(** * Multi-upload LSIF query resolver: cursor codec and fan-out

    A shallow embedding of [lsifQueryResolver] (package [resolvers]): the
    methods [Definitions], [References] and [Hover], and the cursor codec
    [readCursor] / [makeCursor] they use; and of the search latency
    statistics of the package [usagestats], in the module of that name.

    - Go strings and byte slices are sequences of bytes: a Go [string] is a
      [string] here, a [[]byte] is a [list ascii], and a byte is an [ascii]
      whose numeric value is [code].
    - A function that returns a value and an [error] returns a pair here; a
      nil pointer and a nil error are [None].
    - A [map[int64]string] is a [gmap Z string]; a nil map and an empty map,
      which the resolver cannot tell apart, are both the empty map.
    - The LSIF server client is a parameter of the resolver.  Its calls are
      functions of the options and of a world [W] that they may change; the
      calls a request makes are observed through the client [recording].
    - The functions of the Go standard library that the codec calls
      ([encoding/base64], [encoding/json], [strconv], [unicode/utf8],
      [unicode/utf16]) are embedded in modules named after their packages,
      in the behaviour they have for the values the codec gives them.  Their
      loops over a string run on a fuel that is the length of the string;
      the fuel lemmas below show that more fuel changes no result.

    - The tokens [readCursor] accepts are described by two grammars,
      [base64_text] and [cursor_text], which the lemmas relate to the
      decoders.

    The definitions come first; the lemmas on the library functions, the
    codec and the three requests follow. *)

From Stdlib Require Import ZArith Lia Ascii String List.
From stdpp Require Import base option list sorting gmap strings.

Local Open Scope Z_scope.

(** ** Bytes *)

Definition code (c : ascii) : Z := Z.of_N (N_of_ascii c).

(** Go's conversion [byte(x)]: the low eight bits. *)
Definition chr (z : Z) : ascii := ascii_of_N (Z.to_N (z mod 256)).

Definition bytes_of_string : string → list ascii := list_ascii_of_string.
Definition string_of_bytes : list ascii → string := string_of_list_ascii.

(** The byte of a double quote, which no string literal of this file holds. *)
Definition dquote : ascii := "034"%char.
Definition backslash : ascii := "\"%char.

(** ** Errors

    Go's [error] values.  A [CorruptInputError] is the offset of the byte
    at which the base64 text is corrupt, as in Go; the errors of
    [encoding/json] keep their kind and drop their offset and message;
    [BackendError] stands for whatever the LSIF client returns. *)
Inductive error : Type :=
  | CorruptInputError (offset : Z)   (* encoding/base64 *)
  | SyntaxError                (* encoding/json: *SyntaxError *)
  | UnmarshalTypeError         (* encoding/json: *UnmarshalTypeError *)
  | BackendError (msg : string).

(** ** encoding/base64, [StdEncoding] *)
Module base64.

Definition encodeStd : list ascii :=
  bytes_of_string
    "ABCDEFGHIJKLMNOPQRSTUVWXYZabcdefghijklmnopqrstuvwxyz0123456789+/".

Definition padChar : ascii := "="%char.

(** [enc.encode[i]] *)
Definition encode (i : Z) : ascii := nth (Z.to_nat i) encodeStd "A"%char.

Fixpoint index_of (c : ascii) (l : list ascii) (i : Z) : Z :=
  match l with
  | [] => 255
  | x :: l' => if Ascii.eqb c x then i else index_of c l' (i + 1)
  end.

(** [enc.decodeMap[c]]: the position of [c] in the alphabet, or [0xFF]. *)
Definition decodeMap (c : ascii) : Z := index_of c encodeStd 0.

(** [Encoding.Encode]: full groups of three bytes, then the remainder with
    its padding. *)
Fixpoint Encode (src : list ascii) : list ascii :=
  match src with
  | [] => []
  | [s0] =>
      let val := Z.shiftl (code s0) 16 in
      [ encode (Z.land (Z.shiftr val 18) 63);
        encode (Z.land (Z.shiftr val 12) 63);
        padChar; padChar ]
  | [s0; s1] =>
      let val := Z.lor (Z.shiftl (code s0) 16) (Z.shiftl (code s1) 8) in
      [ encode (Z.land (Z.shiftr val 18) 63);
        encode (Z.land (Z.shiftr val 12) 63);
        encode (Z.land (Z.shiftr val 6) 63);
        padChar ]
  | s0 :: s1 :: s2 :: rest =>
      let val := Z.lor (Z.lor (Z.shiftl (code s0) 16) (Z.shiftl (code s1) 8))
                       (code s2) in
      encode (Z.land (Z.shiftr val 18) 63)
      :: encode (Z.land (Z.shiftr val 12) 63)
      :: encode (Z.land (Z.shiftr val 6) 63)
      :: encode (Z.land val 63)
      :: Encode rest
  end.

Definition EncodeToString (src : list ascii) : string :=
  string_of_bytes (Encode src).

Definition is_newline (c : ascii) : bool :=
  Ascii.eqb c "010"%char || Ascii.eqb c "013"%char.

Fixpoint skip_newlines (src : list ascii) : list ascii :=
  match src with
  | c :: src' => if is_newline c then skip_newlines src' else src
  | [] => []
  end.

(** The three bytes a quantum of four sextets holds. *)
Definition quantum (d0 d1 d2 d3 : Z) : list ascii :=
  let val := Z.lor (Z.lor (Z.lor (Z.shiftl d0 18) (Z.shiftl d1 12))
                          (Z.shiftl d2 6)) d3 in
  [chr (Z.shiftr val 16); chr (Z.shiftr val 8); chr val].

(** The line breaks [src] starts with: how far the loop
    [for si < len(src) && (src[si] == '\n' || src[si] == '\r') { si++ }]
    moves [si]. *)
Fixpoint newlines (src : list ascii) : Z :=
  match src with
  | c :: src' => if is_newline c then 1 + newlines src' else 0
  | [] => 0
  end.

(** Behind the padding of the last quantum, from the offset [si]: line
    breaks are skipped, and anything else is trailing garbage, reported at
    its offset. *)
Definition trailing (src : list ascii) (si : Z) : option error :=
  match skip_newlines src with
  | [] => None
  | _ :: _ => Some (CorruptInputError (si + newlines src))
  end.

(** [Encoding.Decode], through [decodeQuantum]: [src] is the input from the
    offset [si] on, and [dbuf] holds the sextets of the quantum being read.
    The result is the bytes written, [dst[:n]], and the error.  Line feeds
    and carriage returns are skipped wherever they stand; the padding is
    required, and nothing but line breaks may follow it; the bits of the
    last quantum that encode no byte are not checked (the encoding is not
    strict).  An error ends the decoding: the bytes of the quanta before it
    are kept, and so are those of a padded quantum that garbage follows. *)
Fixpoint decode (src : list ascii) (si : Z) (dbuf : list Z)
  : list ascii * option error :=
  match src with
  | [] =>
      match dbuf with
      | [] => ([], None)
      | _ :: _ => ([], Some (CorruptInputError (si - Z.of_nat (length dbuf))))
      end
  | c :: src' =>
      let out := decodeMap c in
      if negb (out =? 255) then
        match dbuf with
        | [d0; d1; d2] =>
            let '(dst, err) := decode src' (si + 1) [] in
            (quantum d0 d1 d2 out ++ dst, err)
        | _ => decode src' (si + 1) (dbuf ++ [out])
        end
      else if is_newline c then decode src' (si + 1) dbuf
      else if negb (Ascii.eqb c padChar) then ([], Some (CorruptInputError si))
      else
        match dbuf with
        | [d0; d1] =>
            let si1 := si + 1 + newlines src' in
            match skip_newlines src' with
            | c' :: src'' =>
                if Ascii.eqb c' padChar then
                  (take 1 (quantum d0 d1 0 0), trailing src'' (si1 + 1))
                else ([], Some (CorruptInputError (si1 - 1)))
            | [] => ([], Some (CorruptInputError si1))
            end
        | [d0; d1; d2] => (take 2 (quantum d0 d1 d2 0), trailing src' (si + 1))
        | _ => ([], Some (CorruptInputError si))
        end
  end.

(** [Encoding.DecodeString]: the bytes decoded and the error. *)
Definition DecodeString (s : string) : list ascii * option error :=
  decode (bytes_of_string s) 0 [].

End base64.

(** ** unicode/utf8 *)
Module utf8.

Definition RuneError : Z := 0xFFFD.
Definition MaxRune : Z := 0x10FFFF.
Definition RuneSelf : Z := 0x80.

(** An entry of the table [first]: an ASCII byte ([as]), a byte that starts
    no encoding ([xx]), or the lead byte of an encoding of [size] bytes whose
    second byte lies in [lo .. hi] (the entry's [acceptRange]). *)
Inductive first_info : Type :=
  | ASCII
  | Invalid
  | Lead (size : nat) (lo hi : Z).

Definition first (p0 : Z) : first_info :=
  if p0 <? 0x80 then ASCII
  else if p0 <? 0xC2 then Invalid
  else if p0 <? 0xE0 then Lead 2 0x80 0xBF
  else if p0 =? 0xE0 then Lead 3 0xA0 0xBF
  else if p0 <? 0xED then Lead 3 0x80 0xBF
  else if p0 =? 0xED then Lead 3 0x80 0x9F
  else if p0 <? 0xF0 then Lead 3 0x80 0xBF
  else if p0 =? 0xF0 then Lead 4 0x90 0xBF
  else if p0 <? 0xF4 then Lead 4 0x80 0xBF
  else if p0 =? 0xF4 then Lead 4 0x80 0x8F
  else Invalid.

(** A continuation byte lies in [locb .. hicb]. *)
Definition not_continuation (b : Z) : bool := (b <? 0x80) || (0xBF <? b).

(** [DecodeRune p]: the first rune of [p] and the number of bytes it takes;
    [(RuneError, 1)] for an encoding that is not valid. *)
Definition DecodeRune (p : list ascii) : Z * nat :=
  match p with
  | [] => (RuneError, 0%nat)
  | c0 :: p1 =>
      let p0 := code c0 in
      match first p0 with
      | ASCII => (p0, 1%nat)
      | Invalid => (RuneError, 1%nat)
      | Lead sz lo hi =>
          if (length p <? sz)%nat then (RuneError, 1%nat) else
          match p1 with
          | [] => (RuneError, 1%nat)
          | c1 :: p2 =>
              let b1 := code c1 in
              if (b1 <? lo) || (hi <? b1) then (RuneError, 1%nat)
              else if (sz <=? 2)%nat then
                (Z.lor (Z.shiftl (Z.land p0 0x1F) 6) (Z.land b1 0x3F), 2%nat)
              else
              match p2 with
              | [] => (RuneError, 1%nat)
              | c2 :: p3 =>
                  let b2 := code c2 in
                  if not_continuation b2 then (RuneError, 1%nat)
                  else if (sz <=? 3)%nat then
                    (Z.lor (Z.lor (Z.shiftl (Z.land p0 0x0F) 12)
                                  (Z.shiftl (Z.land b1 0x3F) 6))
                           (Z.land b2 0x3F), 3%nat)
                  else
                  match p3 with
                  | [] => (RuneError, 1%nat)
                  | c3 :: _ =>
                      let b3 := code c3 in
                      if not_continuation b3 then (RuneError, 1%nat)
                      else
                        (Z.lor (Z.lor (Z.lor (Z.shiftl (Z.land p0 0x07) 18)
                                             (Z.shiftl (Z.land b1 0x3F) 12))
                                      (Z.shiftl (Z.land b2 0x3F) 6))
                               (Z.land b3 0x3F), 4%nat)
                  end
              end
          end
      end
  end.

(** The three bytes of a rune up to [0xFFFF]. *)
Definition encode3 (r : Z) : list ascii :=
  [ chr (Z.lor 0xE0 (Z.shiftr r 12 mod 256));
    chr (Z.lor 0x80 (Z.land (Z.shiftr r 6 mod 256) 0x3F));
    chr (Z.lor 0x80 (Z.land (r mod 256) 0x3F)) ].

(** [EncodeRune]: the bytes written for the rune [r] (an [int32]); a
    surrogate or a value above [MaxRune] is written as [RuneError]. *)
Definition EncodeRune (r : Z) : list ascii :=
  let i := r mod 2 ^ 32 in
  if i <=? 0x7F then [chr r]
  else if i <=? 0x7FF then
    [ chr (Z.lor 0xC0 (Z.shiftr r 6 mod 256));
      chr (Z.lor 0x80 (Z.land (r mod 256) 0x3F)) ]
  else if (MaxRune <? i) || ((0xD800 <=? i) && (i <=? 0xDFFF)) then
    encode3 RuneError
  else if i <=? 0xFFFF then encode3 r
  else
    [ chr (Z.lor 0xF0 (Z.shiftr r 18 mod 256));
      chr (Z.lor 0x80 (Z.land (Z.shiftr r 12 mod 256) 0x3F));
      chr (Z.lor 0x80 (Z.land (Z.shiftr r 6 mod 256) 0x3F));
      chr (Z.lor 0x80 (Z.land (r mod 256) 0x3F)) ].

(** [ValidString]: every rune of [s] decodes without the width-one error.
    The fuel is the length of [s]; every step takes at least one byte. *)
Fixpoint valid_from (fuel : nat) (s : list ascii) : bool :=
  match fuel with
  | O => match s with [] => true | _ => false end
  | S fuel' =>
      match s with
      | [] => true
      | _ :: _ =>
          let '(r, size) := DecodeRune s in
          if (r =? RuneError) && (size =? 1)%nat then false
          else valid_from fuel' (drop size s)
      end
  end.

Definition ValidString (s : string) : bool :=
  valid_from (String.length s) (bytes_of_string s).

End utf8.

(** ** strconv, base 10 and 64 bits *)
Module strconv.

Definition digit (d : Z) : ascii := chr (code "0"%char + d).

(** [formatBits]: the digits of [u], the most significant first, before
    [acc].  The fuel bounds the number of digits. *)
Fixpoint format_digits (fuel : nat) (u : Z) (acc : list ascii) : list ascii :=
  match fuel with
  | O => acc
  | S fuel' =>
      if u <? 10 then digit u :: acc
      else format_digits fuel' (u / 10) (digit (u mod 10) :: acc)
  end.

(** [FormatInt(i, 10)]; twenty digits hold any 64-bit magnitude. *)
Definition FormatInt (i : Z) : string :=
  string_of_bytes
    (if i <? 0 then "-"%char :: format_digits 20 (- i) []
     else format_digits 20 i []).

Definition is_digit (c : ascii) : bool :=
  (code "0"%char <=? code c) && (code c <=? code "9"%char).

(** [ParseUint(s, 10, 64)] without its overflow cut-off: the value of a
    string of decimal digits, [None] on any other byte. *)
Fixpoint parse_digits (s : list ascii) (n : Z) : option Z :=
  match s with
  | [] => Some n
  | c :: s' =>
      if is_digit c then parse_digits s' (n * 10 + (code c - code "0"%char))
      else None
  end.

Definition ParseUint (s : list ascii) : option Z :=
  match s with
  | [] => None
  | _ => parse_digits s 0
  end.

(** [ParseInt(s, 10, 64)]: an optional sign, then digits; [None] stands for
    both of its errors, the syntax error and the range error.  [ParseUint]
    reports a magnitude of [2^64] or more as a range error with the largest
    [uint64], which [ParseInt] rejects like any magnitude beyond its
    cut-off [2^63]; hence the magnitude is compared with the cut-off only. *)
Definition ParseInt (s : string) : option Z :=
  match bytes_of_string s with
  | [] => None
  | c :: s' =>
      let neg := Ascii.eqb c "-"%char in
      let digits := if Ascii.eqb c "+"%char || neg then s' else c :: s' in
      match ParseUint digits with
      | None => None
      | Some un =>
          let cutoff := 2 ^ 63 in
          if negb neg && (cutoff <=? un) then None
          else if neg && (cutoff <? un) then None
          else Some (if neg then - un else un)
      end
  end.

End strconv.

(** ** unicode/utf16 *)
Module utf16.

Definition IsSurrogate (r : Z) : bool := (0xD800 <=? r) && (r <? 0xE000).

(** [DecodeRune r1 r2]: the rune of a surrogate pair, or [U+FFFD]. *)
Definition DecodeRune (r1 r2 : Z) : Z :=
  if (0xD800 <=? r1) && (r1 <? 0xDC00) && (0xDC00 <=? r2) && (r2 <? 0xE000)
  then Z.lor (Z.shiftl (r1 - 0xD800) 10) (r2 - 0xDC00) + 0x10000
  else 0xFFFD.

End utf16.

(** ** encoding/json, for a value of type [map[int64]string] *)
Module json.

Definition hex (i : Z) : ascii :=
  nth (Z.to_nat i) (bytes_of_string "0123456789abcdef") "0"%char.

(** [htmlSafeSet[b]] for an ASCII byte: printable, and none of the double
    quote, [&], [<], [>] and the backslash. *)
Definition htmlSafeSet (b : Z) : bool :=
  (0x20 <=? b) && (b <? 0x80)
  && negb ((b =? 0x22) || (b =? 0x26) || (b =? 0x3C) || (b =? 0x3E) || (b =? 0x5C)).

(** The escape [encodeState.string] writes for an ASCII byte outside
    [htmlSafeSet]. *)
Definition escape_ascii (c : ascii) : list ascii :=
  backslash ::
  (if Ascii.eqb c backslash || Ascii.eqb c dquote then [c]
   else if Ascii.eqb c "010"%char then ["n"%char]
   else if Ascii.eqb c "013"%char then ["r"%char]
   else if Ascii.eqb c "009"%char then ["t"%char]
   else [ "u"%char; "0"%char; "0"%char;
          hex (Z.shiftr (code c) 4); hex (Z.land (code c) 0xF) ]).

(** The loop of [encodeState.string s true], byte for byte what it writes
    between the quotes.  The fuel is the length of [s]. *)
Fixpoint string_loop (fuel : nat) (s : list ascii) : list ascii :=
  match fuel, s with
  | S fuel', c :: s' =>
      let b := code c in
      if b <? utf8.RuneSelf then
        if htmlSafeSet b then c :: string_loop fuel' s'
        else escape_ascii c ++ string_loop fuel' s'
      else
        let '(r, size) := utf8.DecodeRune s in
        if (r =? utf8.RuneError) && (size =? 1)%nat then
          bytes_of_string "\ufffd" ++ string_loop fuel' (drop size s)
        else if (r =? 0x2028) || (r =? 0x2029) then
          bytes_of_string "\u202" ++ hex (Z.land r 0xF)
            :: string_loop fuel' (drop size s)
        else take size s ++ string_loop fuel' (drop size s)
  | _, _ => []
  end.

Definition encode_string (s : string) : list ascii :=
  dquote :: string_loop (String.length s) (bytes_of_string s) ++ [dquote].

(** The order [mapEncoder.encode] sorts the keys by: their strings. *)
Definition key_le (a b : string * string) : Prop := String.le a.1 b.1.

#[global] Instance key_le_dec : RelDecision key_le.
Proof. intros a b. unfold key_le. apply _. Defined.

(** The members of the object, a comma before each but the first. *)
Fixpoint encode_members (i : nat) (sv : list (string * string)) : list ascii :=
  match sv with
  | [] => []
  | kv :: sv' =>
      (if (0 <? i)%nat then [","%char] else [])
      ++ encode_string kv.1 ++ ":"%char :: encode_string kv.2
      ++ encode_members (S i) sv'
  end.

(** [Marshal] of a non-nil [map[int64]string]: the keys are formatted in
    base 10 and sorted as strings.  It has no failing case for this type. *)
Definition Marshal (m : gmap Z string) : list ascii * option error :=
  let sv :=
    merge_sort key_le
      ((λ kv : Z * string, (strconv.FormatInt kv.1, kv.2)) <$> map_to_list m) in
  ("{"%char :: encode_members 0 sv ++ ["}"%char], None).

Definition isSpace (c : ascii) : bool :=
  Ascii.eqb c " "%char || Ascii.eqb c "009"%char
  || Ascii.eqb c "013"%char || Ascii.eqb c "010"%char.

Fixpoint skip_space (s : list ascii) : list ascii :=
  match s with
  | c :: s' => if isSpace c then skip_space s' else s
  | [] => []
  end.

Definition hexval (c : ascii) : option Z :=
  let b := code c in
  if (code "0"%char <=? b) && (b <=? code "9"%char) then Some (b - code "0"%char)
  else if (code "a"%char <=? b) && (b <=? code "f"%char) then Some (b - code "a"%char + 10)
  else if (code "A"%char <=? b) && (b <=? code "F"%char) then Some (b - code "A"%char + 10)
  else None.

(** [getu4 s]: the value of the escape [\uXXXX] that [s] starts with, or
    [-1]. *)
Definition getu4 (s : list ascii) : Z :=
  match s with
  | c0 :: c1 :: h0 :: h1 :: h2 :: h3 :: _ =>
      if Ascii.eqb c0 backslash && Ascii.eqb c1 "u"%char then
        match hexval h0, hexval h1, hexval h2, hexval h3 with
        | Some d0, Some d1, Some d2, Some d3 =>
            ((d0 * 16 + d1) * 16 + d2) * 16 + d3
        | _, _, _, _ => -1
        end
      else -1
  | _ => -1
  end.

(** The byte a one-letter escape stands for. *)
Definition simple_escape (e : ascii) : option ascii :=
  if Ascii.eqb e dquote || Ascii.eqb e backslash || Ascii.eqb e "/"%char
  then Some e
  else if Ascii.eqb e "b"%char then Some "008"%char
  else if Ascii.eqb e "f"%char then Some "012"%char
  else if Ascii.eqb e "n"%char then Some "010"%char
  else if Ascii.eqb e "r"%char then Some "013"%char
  else if Ascii.eqb e "t"%char then Some "009"%char
  else None.

(** A string literal from behind its opening quote: the scanner's string
    states and [unquoteBytes] in one pass.  The result is the unquoted
    string and the input behind the closing quote; [None] is the scanner's
    syntax error.  The fuel is the length of [s]. *)
Fixpoint string_lit (fuel : nat) (s : list ascii)
  : option (list ascii * list ascii) :=
  match fuel, s with
  | S fuel', c :: s' =>
      let cons_to (pre : list ascii) (rest : list ascii) :=
        match string_lit fuel' rest with
        | Some (t, out) => Some (pre ++ t, out)
        | None => None
        end in
      if Ascii.eqb c dquote then Some ([], s')
      else if Ascii.eqb c backslash then
        match s' with
        | [] => None
        | e :: s'' =>
            if Ascii.eqb e "u"%char then
              let rr := getu4 s in
              if rr <? 0 then None
              else
                let s2 := drop 6 s in
                if utf16.IsSurrogate rr then
                  let dec := utf16.DecodeRune rr (getu4 s2) in
                  if negb (dec =? 0xFFFD)
                  then cons_to (utf8.EncodeRune dec) (drop 6 s2)
                  else cons_to (utf8.EncodeRune 0xFFFD) s2
                else cons_to (utf8.EncodeRune rr) s2
            else
              match simple_escape e with
              | Some x => cons_to [x] s''
              | None => None
              end
        end
      else if code c <? 0x20 then None
      else if code c <? utf8.RuneSelf then cons_to [c] s'
      else
        let '(rr, size) := utf8.DecodeRune s in
        cons_to (utf8.EncodeRune rr) (drop size s)
  | _, _ => None
  end.

Fixpoint skip_digits (s : list ascii) : list ascii :=
  match s with
  | c :: s' => if strconv.is_digit c then skip_digits s' else s
  | [] => []
  end.

(** The exponent of a number, then its end. *)
Definition number_exp (s : list ascii) : option (list ascii) :=
  match s with
  | c :: s' =>
      if Ascii.eqb c "e"%char || Ascii.eqb c "E"%char then
        let s'' := match s' with
                   | g :: t => if Ascii.eqb g "+"%char || Ascii.eqb g "-"%char
                               then t else s'
                   | [] => s'
                   end in
        match s'' with
        | d :: t => if strconv.is_digit d then Some (skip_digits t) else None
        | [] => None
        end
      else Some s
  | [] => Some s
  end.

(** The fraction of a number, then its exponent. *)
Definition number_frac (s : list ascii) : option (list ascii) :=
  match s with
  | c :: s' =>
      if Ascii.eqb c "."%char then
        match s' with
        | d :: t => if strconv.is_digit d then number_exp (skip_digits t) else None
        | [] => None
        end
      else number_exp s
  | [] => Some s
  end.

(** A number literal: the input behind it. *)
Definition number (s : list ascii) : option (list ascii) :=
  let s1 := match s with
            | c :: t => if Ascii.eqb c "-"%char then t else s
            | [] => s
            end in
  match s1 with
  | d :: t =>
      if Ascii.eqb d "0"%char then number_frac t
      else if strconv.is_digit d then number_frac (skip_digits t)
      else None
  | [] => None
  end.

(** The literal [lit] ([true], [false] or [null]): the input behind it. *)
Fixpoint literal (lit s : list ascii) : option (list ascii) :=
  match lit, s with
  | [], _ => Some s
  | l :: lit', c :: s' => if Ascii.eqb l c then literal lit' s' else None
  | _ :: _, [] => None
  end.

(** The scanner over one value of any kind, as [decodeState.skip] and
    [checkValid] run it: the input behind the value, or [None] for a syntax
    error.  The input starts at the value (no space before it). *)
Fixpoint value (fuel : nat) (s : list ascii) : option (list ascii) :=
  match fuel, s with
  | S fuel', c :: s' =>
      if Ascii.eqb c "{"%char then
        match skip_space s' with
        | c' :: t => if Ascii.eqb c' "}"%char then Some t
                     else members fuel' (c' :: t)
        | [] => None
        end
      else if Ascii.eqb c "["%char then
        match skip_space s' with
        | c' :: t => if Ascii.eqb c' "]"%char then Some t
                     else elements fuel' (c' :: t)
        | [] => None
        end
      else if Ascii.eqb c dquote then
        snd <$> string_lit (length s') s'
      else if Ascii.eqb c "-"%char || strconv.is_digit c then number s
      else if Ascii.eqb c "t"%char then literal (bytes_of_string "true") s
      else if Ascii.eqb c "f"%char then literal (bytes_of_string "false") s
      else if Ascii.eqb c "n"%char then literal (bytes_of_string "null") s
      else None
  | _, _ => None
  end
with members (fuel : nat) (s : list ascii) : option (list ascii) :=
  match fuel, s with
  | S fuel', c :: s' =>
      if Ascii.eqb c dquote then
        match string_lit (length s') s' with
        | Some (_, t) =>
            match skip_space t with
            | c1 :: t1 =>
                if Ascii.eqb c1 ":"%char then
                  match value fuel' (skip_space t1) with
                  | Some t2 =>
                      match skip_space t2 with
                      | c3 :: t3 =>
                          if Ascii.eqb c3 ","%char then members fuel' (skip_space t3)
                          else if Ascii.eqb c3 "}"%char then Some t3
                          else None
                      | [] => None
                      end
                  | None => None
                  end
                else None
            | [] => None
            end
        | None => None
        end
      else None
  | _, _ => None
  end
with elements (fuel : nat) (s : list ascii) : option (list ascii) :=
  match fuel with
  | S fuel' =>
      match value fuel' s with
      | Some t =>
          match skip_space t with
          | c :: t1 =>
              if Ascii.eqb c ","%char then elements fuel' (skip_space t1)
              else if Ascii.eqb c "]"%char then Some t1
              else None
          | [] => None
          end
      | None => None
      end
  | O => None
  end.

(** [decodeState.saveError]: the first error is the one kept. *)
Definition saveError (saved : option error) (e : error) : option error :=
  match saved with
  | Some _ => saved
  | None => Some e
  end.

(** The value of a member, decoded into a [string] element: a string sets
    it, [null] leaves it empty, and any other value is skipped and saved as
    a type error. *)
Definition string_elem (fuel : nat) (s : list ascii)
  : option (string * bool * list ascii) :=
  match s with
  | c :: s' =>
      if Ascii.eqb c dquote then
        (λ r : list ascii * list ascii, (string_of_bytes r.1, false, r.2))
          <$> string_lit (length s') s'
      else if Ascii.eqb c "n"%char then
        (λ t, (""%string, false, t)) <$> literal (bytes_of_string "null") s
      else (λ t, (""%string, true, t)) <$> value fuel s
  | [] => None
  end.

(** [decodeState.object] on a map: the members from the first key on.  A
    key that [ParseInt] refuses is saved as a type error and its member
    dropped; a member whose value had a type error is stored with the empty
    string. *)
Fixpoint object (fuel : nat) (s : list ascii) (m : gmap Z string)
    (saved : option error)
  : option (gmap Z string * option error * list ascii) :=
  match fuel, s with
  | S fuel', c :: s' =>
      if Ascii.eqb c dquote then
        match string_lit (length s') s' with
        | Some (key, t) =>
            match skip_space t with
            | c1 :: t1 =>
                if Ascii.eqb c1 ":"%char then
                  match string_elem fuel' (skip_space t1) with
                  | Some (elem, mismatch, t2) =>
                      let saved1 :=
                        if mismatch then saveError saved UnmarshalTypeError
                        else saved in
                      let '(m', saved2) :=
                        match strconv.ParseInt (string_of_bytes key) with
                        | Some k => (<[k := elem]> m, saved1)
                        | None => (m, saveError saved1 UnmarshalTypeError)
                        end in
                      match skip_space t2 with
                      | c3 :: t3 =>
                          if Ascii.eqb c3 ","%char
                          then object fuel' (skip_space t3) m' saved2
                          else if Ascii.eqb c3 "}"%char
                          then Some (m', saved2, t3)
                          else None
                      | [] => None
                      end
                  | None => None
                  end
                else None
            | [] => None
            end
        | None => None
        end
      else None
  | _, _ => None
  end.

(** The top-level value decoded into the map, which is nil before:
    an object fills it, [null] leaves it nil, any other value is a type
    error. *)
Definition top_value (s : list ascii)
  : option (gmap Z string * option error * list ascii) :=
  match s with
  | c :: s' =>
      if Ascii.eqb c "{"%char then
        match skip_space s' with
        | c' :: t =>
            if Ascii.eqb c' "}"%char then Some (∅, None, t)
            else object (length s') (c' :: t) ∅ None
        | [] => None
        end
      else if Ascii.eqb c "n"%char then
        (λ t, (∅, None, t)) <$> literal (bytes_of_string "null") s
      else
        (λ t, (∅, Some UnmarshalTypeError, t)) <$> value (length s) s
  | [] => None
  end.

(** [Unmarshal data &cursors] with [cursors] nil before the call: the map
    after the call and the error.  A syntax error anywhere in [data] is
    found by [checkValid] before anything is stored; type errors are saved
    while the decoding goes on, so the map may hold entries beside them.
    A nil map and an empty map are both [∅]. *)
Definition Unmarshal (data : list ascii) : gmap Z string * option error :=
  match top_value (skip_space data) with
  | Some (m, saved, t) =>
      match skip_space t with
      | [] => (m, saved)
      | _ :: _ => (∅, Some SyntaxError)
      end
  | None => (∅, Some SyntaxError)
  end.

End json.

(** ** The cursor codec of the resolver

    Go returns a value and an error side by side; so do these.  A nil map
    and an empty map read alike ([len] is 0, every lookup misses); both are
    [∅]. *)

(** [readCursor] decodes a cursor into a map from upload ids to URLs that
    serves the next page of results. *)
Definition readCursor (after : option string) : gmap Z string * option error :=
  match after with
  | None => (∅, None)
  | Some s =>
      let '(decoded, err) := base64.DecodeString s in
      match err with
      | Some e => (∅, Some e)
      | None =>
          let '(cursors, err) := json.Unmarshal decoded in
          match err with
          | Some e => (∅, Some e)
          | None => (cursors, None)
          end
      end
  end.

(** [makeCursor] encodes a map from upload ids to URLs that serves the next
    page of results into a single string that can be sent back for use in
    cursor pagination. *)
Definition makeCursor (cursors : gmap Z string) : string * option error :=
  if (size cursors =? 0)%nat then (""%string, None)
  else
    let '(encoded, err) := json.Marshal cursors in
    match err with
    | Some e => (""%string, Some e)
    | None => (base64.EncodeToString encoded, None)
    end.

(** ** The resolver *)

(** [lsif.LSIFUpload]: the resolver reads its [ID] only. *)
Record LSIFUpload : Type := { ID : Z }.

Record lsifQueryResolver : Type := {
  repoID : Z;
  commit : string;
  path : string;
  uploads : list LSIFUpload
}.

(** [graphqlbackend.LSIFQueryPositionArgs], and the paged arguments that
    embed it beside [First] and [After]. *)
Record LSIFQueryPositionArgs : Type := { Line : Z; Character : Z }.

Record LSIFPagedQueryPositionArgs : Type := {
  Position : LSIFQueryPositionArgs;
  First : option Z;
  After : option string
}.

(** The options of a [Definitions] or [Hover] call of the client. *)
Module PositionOpts.
Record t : Type := mk {
  RepoID : Z;
  Commit : string;
  Path : string;
  Line : Z;
  Character : Z;
  UploadID : Z
}.
End PositionOpts.

(** The options of a [References] call of the client. *)
Module ReferencesOpts.
Record t : Type := mk {
  RepoID : Z;
  Commit : string;
  Path : string;
  Line : Z;
  Character : Z;
  UploadID : Z;
  Limit : option Z;
  Cursor : option string
}.
End ReferencesOpts.

Section Resolver.

(** [lsif.LSIFLocation] and [lsp.Range] are values the resolver passes on
    unread. *)
Context {LSIFLocation Range : Type}.

(** The LSIF server client ([client.DefaultClient]).  A call reads and
    changes the world [W] outside the resolver (the index server and the
    network) and returns what Go returns: the values and the error.  The
    second result of [Definitions], which the resolver drops, is left out. *)
Record Client (W : Type) : Type := {
  client_Definitions :
    PositionOpts.t → W → list LSIFLocation * option error * W;
  client_References :
    ReferencesOpts.t → W → list LSIFLocation * string * option error * W;
  client_Hover :
    PositionOpts.t → W → string * Range * option error * W
}.
Global Arguments client_Definitions {W}.
Global Arguments client_References {W}.
Global Arguments client_Hover {W}.

Record locationConnectionResolver : Type := {
  locations : list LSIFLocation;
  endCursor : string
}.

Record hoverResolver : Type := {
  text : string;
  lspRange : Range
}.

Context {W : Type}.
Variable DefaultClient : Client W.

Definition position_opts (r : lsifQueryResolver) (args : LSIFQueryPositionArgs)
    (upload : LSIFUpload) : PositionOpts.t :=
  {| PositionOpts.RepoID := repoID r;
     PositionOpts.Commit := commit r;
     PositionOpts.Path := path r;
     PositionOpts.Line := Line args;
     PositionOpts.Character := Character args;
     PositionOpts.UploadID := ID upload |}.

(** The loop of [Definitions] over the uploads left, [us]. *)
Fixpoint Definitions_range (r : lsifQueryResolver) (args : LSIFQueryPositionArgs)
    (us : list LSIFUpload) (allLocations : list LSIFLocation) (w : W)
  : option locationConnectionResolver * option error * W :=
  match us with
  | [] => (Some {| locations := allLocations; endCursor := "" |}, None, w)
  | upload :: us' =>
      let opts := position_opts r args upload in
      let '(locations, err, w') := client_Definitions DefaultClient opts w in
      match err with
      | Some e => (None, Some e, w')
      | None => Definitions_range r args us' (allLocations ++ locations) w'
      end
  end.

Definition Definitions (r : lsifQueryResolver) (args : LSIFQueryPositionArgs)
    (w : W) : option locationConnectionResolver * option error * W :=
  Definitions_range r args (uploads r) [] w.

(** The options of the [References] call for [upload]: the limit when
    [args.First] is given, the cursor when [nextURLs] has the upload. *)
Definition references_opts (r : lsifQueryResolver)
    (args : LSIFPagedQueryPositionArgs) (nextURLs : gmap Z string)
    (upload : LSIFUpload) : ReferencesOpts.t :=
  let opts :=
    {| ReferencesOpts.RepoID := repoID r;
       ReferencesOpts.Commit := commit r;
       ReferencesOpts.Path := path r;
       ReferencesOpts.Line := Line (Position args);
       ReferencesOpts.Character := Character (Position args);
       ReferencesOpts.UploadID := ID upload;
       ReferencesOpts.Limit := None;
       ReferencesOpts.Cursor := None |} in
  let opts :=
    match First args with
    | Some _ =>
        ReferencesOpts.mk (ReferencesOpts.RepoID opts) (ReferencesOpts.Commit opts)
          (ReferencesOpts.Path opts) (ReferencesOpts.Line opts)
          (ReferencesOpts.Character opts) (ReferencesOpts.UploadID opts)
          (First args) (ReferencesOpts.Cursor opts)
    | None => opts
    end in
  match nextURLs !! ID upload with
  | Some nextURL =>
      ReferencesOpts.mk (ReferencesOpts.RepoID opts) (ReferencesOpts.Commit opts)
        (ReferencesOpts.Path opts) (ReferencesOpts.Line opts)
        (ReferencesOpts.Character opts) (ReferencesOpts.UploadID opts)
        (ReferencesOpts.Limit opts) (Some nextURL)
  | None => opts
  end.

(** The loop of [References] over the uploads left, [us], and what follows
    it: the end cursor made of [newCursors]. *)
Fixpoint References_range (r : lsifQueryResolver)
    (args : LSIFPagedQueryPositionArgs) (nextURLs : gmap Z string)
    (us : list LSIFUpload) (allLocations : list LSIFLocation)
    (newCursors : gmap Z string) (w : W)
  : option locationConnectionResolver * option error * W :=
  match us with
  | [] =>
      let '(endCursor, err) := makeCursor newCursors in
      match err with
      | Some e => (None, Some e, w)
      | None =>
          (Some {| locations := allLocations; endCursor := endCursor |}, None, w)
      end
  | upload :: us' =>
      let opts := references_opts r args nextURLs upload in
      let '(locations, nextURL, err, w') :=
        client_References DefaultClient opts w in
      match err with
      | Some e => (None, Some e, w')
      | None =>
          References_range r args nextURLs us' (allLocations ++ locations)
            (if negb (String.eqb nextURL "")
             then <[ID upload := nextURL]> newCursors
             else newCursors)
            w'
      end
  end.

Definition References (r : lsifQueryResolver)
    (args : LSIFPagedQueryPositionArgs) (w : W)
  : option locationConnectionResolver * option error * W :=
  let '(nextURLs, err) := readCursor (After args) in
  match err with
  | Some e => (None, Some e, w)
  | None => References_range r args nextURLs (uploads r) [] ∅ w
  end.

(** The loop of [Hover] over the uploads left, [us]. *)
Fixpoint Hover_range (r : lsifQueryResolver) (args : LSIFQueryPositionArgs)
    (us : list LSIFUpload) (w : W)
  : option hoverResolver * option error * W :=
  match us with
  | [] => (None, None, w)
  | upload :: us' =>
      let '(text, lspRange, err, w') :=
        client_Hover DefaultClient (position_opts r args upload) w in
      match err with
      | Some e => (None, Some e, w')
      | None =>
          if negb (String.eqb text "")
          then (Some {| text := text; lspRange := lspRange |}, None, w')
          else Hover_range r args us' w'
      end
  end.

Definition Hover (r : lsifQueryResolver) (args : LSIFQueryPositionArgs)
    (w : W) : option hoverResolver * option error * W :=
  Hover_range r args (uploads r) w.

(** *** The calls a request makes

    [recording c] is the client [c] with a log beside its world: every call
    is passed to [c] and appended, with what [c] returned, to the log. *)
Inductive call : Type :=
  | DefinitionsCall (opts : PositionOpts.t)
      (locations : list LSIFLocation) (err : option error)
  | ReferencesCall (opts : ReferencesOpts.t)
      (locations : list LSIFLocation) (nextURL : string) (err : option error)
  | HoverCall (opts : PositionOpts.t)
      (text : string) (lspRange : Range) (err : option error).

Definition call_upload (c : call) : Z :=
  match c with
  | DefinitionsCall opts _ _ => PositionOpts.UploadID opts
  | ReferencesCall opts _ _ _ => ReferencesOpts.UploadID opts
  | HoverCall opts _ _ _ => PositionOpts.UploadID opts
  end.

Definition call_err (c : call) : option error :=
  match c with
  | DefinitionsCall _ _ err => err
  | ReferencesCall _ _ _ err => err
  | HoverCall _ _ _ err => err
  end.

Definition call_locations (c : call) : list LSIFLocation :=
  match c with
  | DefinitionsCall _ locations _ => locations
  | ReferencesCall _ locations _ _ => locations
  | HoverCall _ _ _ _ => []
  end.

(** The next-page token a [References] call returned. *)
Definition call_nextURL (c : call) : string :=
  match c with
  | ReferencesCall _ _ nextURL _ => nextURL
  | _ => ""
  end.

(** The limit and the cursor a [References] call was made with. *)
Definition call_limit (c : call) : option Z :=
  match c with
  | ReferencesCall opts _ _ _ => ReferencesOpts.Limit opts
  | _ => None
  end.

Definition call_cursor (c : call) : option string :=
  match c with
  | ReferencesCall opts _ _ _ => ReferencesOpts.Cursor opts
  | _ => None
  end.

(** The text a [Hover] call returned. *)
Definition call_text (c : call) : string :=
  match c with
  | HoverCall _ text _ _ => text
  | _ => ""
  end.

End Resolver.

Arguments Client : clear implicits.
Arguments locationConnectionResolver : clear implicits.
Arguments hoverResolver : clear implicits.
Arguments call : clear implicits.

Definition recording {LSIFLocation Range W : Type}
    (c : Client LSIFLocation Range W)
  : Client LSIFLocation Range (W * list (call LSIFLocation Range)) :=
  {| client_Definitions opts '(w, log) :=
       let '(locations, err, w') := client_Definitions c opts w in
       (locations, err, (w', log ++ [DefinitionsCall opts locations err]));
     client_References opts '(w, log) :=
       let '(locations, nextURL, err, w') := client_References c opts w in
       (locations, nextURL, err,
        (w', log ++ [ReferencesCall opts locations nextURL err]));
     client_Hover opts '(w, log) :=
       let '(text, lspRange, err, w') := client_Hover c opts w in
       (text, lspRange, err, (w', log ++ [HoverCall opts text lspRange err])) |}.

(** A call that returned no error, and a [Hover] call that returned no error
    and no text. *)
Definition no_err {L R : Type} (cl : call L R) : Prop := call_err cl = None.

Definition no_text {L R : Type} (cl : call L R) : Prop :=
  call_err cl = None ∧ call_text cl = ""%string.

(** The map [References] builds from the tokens its calls returned. *)
Definition record_cursors {L R : Type} (newCursors : gmap Z string)
    (calls : list (call L R))
  : gmap Z string :=
  foldl (λ m cl,
           if negb (String.eqb (call_nextURL cl) "")
           then <[call_upload cl := call_nextURL cl]> m
           else m)
        newCursors calls.

(** ** Worked requests

    Two uploads [A] and [B]; locations are named by strings, ranges are
    numbers and the client has no state. *)
Definition uploadA : LSIFUpload := {| ID := 1 |}.
Definition uploadB : LSIFUpload := {| ID := 2 |}.

Definition resolverAB : lsifQueryResolver :=
  {| repoID := 7; commit := "deadbeef"; path := "main.go";
     uploads := [uploadA; uploadB] |}.

Definition position0 : LSIFQueryPositionArgs := {| Line := 10; Character := 4 |}.

(** [A] defines [L1; L2] and has no hover text; its references come in two
    pages, the second behind the token [tokA].  [B] defines [L3], has the
    hover text [doc] and one page of references. *)
Definition clientAB : Client string Z unit :=
  {| client_Definitions opts w :=
       (if PositionOpts.UploadID opts =? 1 then ["L1"; "L2"] else ["L3"],
        None, w);
     client_References opts w :=
       (if ReferencesOpts.UploadID opts =? 1 then
          match ReferencesOpts.Cursor opts with
          | None => (["A1"], "tokA")
          | Some _ => (["A2"], "")
          end
        else (["B1"], ""),
        None, w);
     client_Hover opts w :=
       (if PositionOpts.UploadID opts =? 1 then ("", 0) else ("doc", 5),
        None, w) |}.

(** As [clientAB], but every call for [B] fails. *)
Definition clientB_down : Client string Z unit :=
  let down := Some (BackendError "unavailable") in
  {| client_Definitions opts w :=
       if PositionOpts.UploadID opts =? 1 then client_Definitions clientAB opts w
       else ([], down, w);
     client_References opts w :=
       if ReferencesOpts.UploadID opts =? 1 then client_References clientAB opts w
       else ([], "", down, w);
     client_Hover opts w :=
       if PositionOpts.UploadID opts =? 1 then client_Hover clientAB opts w
       else ("", 0, down, w) |}.

Definition first_page : LSIFPagedQueryPositionArgs :=
  {| Position := position0; First := Some 50; After := None |}.

(** The request for the page behind the end cursor [after]. *)
Definition next_page (after : string) : LSIFPagedQueryPositionArgs :=
  {| Position := position0; First := Some 50; After := Some after |}.

(** The end cursor of a result, when it has a page. *)
Definition end_cursor_of {L W : Type}
    (out : option (locationConnectionResolver L) * option error * W) : string :=
  match out.1.1 with
  | Some page => endCursor page
  | None => ""
  end.

(** The second page of the specification's exhaustion example: [A] returned
    the token [tokA] on the first page and [B] the empty token, so the cursor
    of the second request holds [A] alone. *)
Definition second_page : LSIFPagedQueryPositionArgs :=
  next_page (end_cursor_of (References clientAB resolverAB first_page tt)).

(** A cursor with an entry for the upload 99, which is no candidate. *)
Definition stale_page : LSIFPagedQueryPositionArgs :=
  next_page (makeCursor {[ 1 := "tokA"%string; 99 := "gone"%string ]}).1.

(** The cursor map of [second_page]. *)
Definition tokA_only : gmap Z string := {[ 1 := "tokA"%string ]}.

(** A token that is no valid UTF-8: the byte [0xFF]. *)
Definition bad_token : string := String (chr 0xFF) "".

(** ** Definitions of the proofs *)

(** An upload id is an [int64]. *)
Definition int64 (k : Z) : Prop := - 2 ^ 63 ≤ k < 2 ^ 63.

(** A JSON object starts, behind any space, with a brace. *)
Definition begins_object (data : list ascii) : bool :=
  match json.skip_space data with
  | c :: _ => Ascii.eqb c "{"%char
  | [] => false
  end.

(** The JSON text [null], with any space around it. *)
Definition null_text (data : list ascii) : bool :=
  match json.literal (bytes_of_string "null") (json.skip_space data) with
  | Some t => match json.skip_space t with [] => true | _ => false end
  | None => false
  end.

(** The runes of the encodings of two, three and four bytes, in arithmetic. *)
Definition rune2 (p0 b1 : Z) : Z := p0 mod 32 * 64 + b1 mod 64.
Definition rune3 (p0 b1 b2 : Z) : Z :=
  p0 mod 16 * 4096 + b1 mod 64 * 64 + b2 mod 64.
Definition rune4 (p0 b1 b2 b3 : Z) : Z :=
  p0 mod 8 * 262144 + b1 mod 64 * 4096 + b2 mod 64 * 64 + b3 mod 64.

(** The byte sequences [DecodeRune] accepts. *)
Definition valid2 (p0 b1 : Z) : Prop :=
  0xC2 ≤ p0 ≤ 0xDF ∧ 0x80 ≤ b1 ≤ 0xBF.
Definition valid3 (p0 b1 b2 : Z) : Prop :=
  0xE0 ≤ p0 ≤ 0xEF ∧ 0x80 ≤ b1 ≤ 0xBF ∧ (p0 = 0xE0 → 0xA0 ≤ b1)
  ∧ (p0 = 0xED → b1 ≤ 0x9F) ∧ 0x80 ≤ b2 ≤ 0xBF.
Definition valid4 (p0 b1 b2 b3 : Z) : Prop :=
  0xF0 ≤ p0 ≤ 0xF4 ∧ 0x80 ≤ b1 ≤ 0xBF ∧ (p0 = 0xF0 → 0x90 ≤ b1)
  ∧ (p0 = 0xF4 → b1 ≤ 0x8F) ∧ 0x80 ≤ b2 ≤ 0xBF ∧ 0x80 ≤ b3 ≤ 0xBF.

(** What [string_lit] returns when the bytes [pre] come before what it
    reads from [t]. *)
Definition prepend (pre : list ascii) (r : option (list ascii * list ascii))
  : option (list ascii * list ascii) :=
  match r with
  | Some (u, out) => Some (pre ++ u, out)
  | None => None
  end.

(** The entries of a map, inserted in the order of the list. *)
Definition insert_all (m : gmap Z string) (l : list (Z * string)) : gmap Z string :=
  foldl (λ m kv, <[kv.1 := kv.2]> m) m l.

(** What [Marshal] writes for an entry. *)
Definition entry_strings (kv : Z * string) : string * string :=
  (strconv.FormatInt kv.1, kv.2).

(** A scanner that succeeds with the fuel [f] has shortened its input, and
    succeeds alike with any fuel that covers the bytes it took. *)
Definition fuel_ok (scan : nat → list ascii → option (list ascii)) (f : nat) : Prop :=
  ∀ s t, scan f s = Some t →
         (length t < length s)%nat
         ∧ ∀ f', (length s - length t ≤ f')%nat → scan f' s = Some t.

(** Induction on a list by groups of three, as [Encode] reads it. *)
Section list_ind3.
Context {A : Type} (P : list A → Prop).
Hypothesis P0 : P [].
Hypothesis P1 : ∀ a, P [a].
Hypothesis P2 : ∀ a b, P [a; b].
Hypothesis P3 : ∀ a b c l, P l → P (a :: b :: c :: l).

Fixpoint list_ind3 (l : list A) : P l :=
  match l with
  | [] => P0
  | [a] => P1 a
  | [a; b] => P2 a b
  | a :: b :: c :: l' => P3 a b c l' (list_ind3 l')
  end.
End list_ind3.

(** The bytes of a token that are no line breaks. *)
Definition without_newlines (src : list ascii) : list ascii :=
  filter (λ c, base64.is_newline c = false) src.

(** A byte that is no letter of the alphabet, no padding and no line break. *)
Definition stray (c : ascii) : Prop :=
  base64.decodeMap c = 255 ∧ base64.is_newline c = false ∧ c ≠ base64.padChar.

(** * Search latency statistics (package [usagestats])

    [GetSearchLatencyStatistics] and [searchQueryLatency].

    - A [float64] is a value the code copies and never computes with: its
      type is a parameter, with the zero value and the three literals the
      code names.
    - The periods, their latencies and the latency of each search type are
      allocated afresh by [searchQueryLatency], one struct per pointer, so no
      two pointers alias: a struct behind a pointer is a record here, and a
      write through [getLatencies(activityPeriods[i])] replaces the latency
      of that search type in the period [i].
    - Go visits the entries of a map in an order it chooses anew for every
      [range]: the order is an argument, a permutation of the entries.
    - An index out of range is a run-time panic: [Panic].
    - [db.EventLogs] is a parameter whose call reads and changes a world;
      [timeNow().UTC()] reads the clock of that world.  [minIntOrZero] and
      [maxStorageDays] are declared elsewhere in the package and are
      parameters. *)
Module usagestats.

Module db.

(** [db.PeriodType] *)
Inductive PeriodType : Type := Daily | Weekly | Monthly.

(** [db.EventFilterOptions]: the code sets [ByEventName] only. *)
Record EventFilterOptions : Type := { ByEventName : string }.

End db.

(** What a call leaves: its results, or a panic. *)
Inductive outcome (A : Type) : Type :=
  | Return (a : A)
  | Panic.
Arguments Return {A} a.
Arguments Panic {A}.

Definition bind {A B : Type} (x : outcome A) (f : A → outcome B) : outcome B :=
  match x with
  | Return a => f a
  | Panic => Panic
  end.

Notation "x ←! y ; z" := (bind y (λ x, z))
  (at level 20, y at level 100, z at level 200, only parsing).

Section usagestats.

Context {float64 Time error W : Type}.

(** The zero value of a [float64], and the literals [0.5], [0.9], [0.99]. *)
Variable zero : float64.
Variables p50 p90 p99 : float64.

(** [db.PercentileValue]: the code reads [Values] only. *)
Record PercentileValue : Type := { Values : list float64 }.

(** [types.SearchLatency], [types.SearchTypeLatency] and
    [types.SearchLatencyPeriod], in the fields the code sets. *)
Record SearchLatency : Type := { P50 : float64; P90 : float64; P99 : float64 }.

Record SearchTypeLatency : Type := {
  Literal : SearchLatency;
  Regexp : SearchLatency;
  Structural : SearchLatency;
  File : SearchLatency;
  Repo : SearchLatency;
  Diff : SearchLatency;
  Commit : SearchLatency
}.

Record SearchLatencyPeriod : Type := { Latencies : SearchTypeLatency }.

Record SearchLatencyStatistics : Type := {
  Daily : list SearchLatencyPeriod;
  Weekly : list SearchLatencyPeriod;
  Monthly : list SearchLatencyPeriod
}.

(** [db.EventLogs] *)
Record EventLogs : Type := {
  PercentilesPerPeriod :
    db.PeriodType → Time → Z → string → list float64 → db.EventFilterOptions →
    W → list PercentileValue * option error * W
}.

Variable timeNow : W → Time.
Variable db_EventLogs : EventLogs.
Variable minIntOrZero : Z → Z → Z.
Variable maxStorageDays : Z.

(** A value of type [func(p *SearchLatencyPeriod) *SearchLatency]: the
    latency behind the pointer it returns, and the period after a write
    through that pointer. *)
Record getter : Type := {
  load : SearchLatencyPeriod → SearchLatency;
  store : SearchLatency → SearchLatencyPeriod → SearchLatencyPeriod
}.

Definition with_latencies (f : SearchTypeLatency → SearchTypeLatency)
    (p : SearchLatencyPeriod) : SearchLatencyPeriod :=
  {| Latencies := f (Latencies p) |}.

(** [&types.SearchLatency{}] *)
Definition emptyLatency : SearchLatency :=
  {| P50 := zero; P90 := zero; P99 := zero |}.

(** The period [searchQueryLatency] appends for every [i]. *)
Definition emptyPeriod : SearchLatencyPeriod :=
  {| Latencies :=
       {| Literal := emptyLatency; Regexp := emptyLatency;
          Structural := emptyLatency; File := emptyLatency;
          Repo := emptyLatency; Diff := emptyLatency;
          Commit := emptyLatency |} |}.

(** [latenciesByName], in the order of the source. *)
Definition latenciesByName : list (string * getter) :=
  [ ("search.latencies.literal"%string,
     {| load p := Literal (Latencies p);
        store v := with_latencies (λ l,
          {| Literal := v; Regexp := Regexp l; Structural := Structural l;
             File := File l; Repo := Repo l; Diff := Diff l;
             Commit := Commit l |}) |});
    ("search.latencies.regexp"%string,
     {| load p := Regexp (Latencies p);
        store v := with_latencies (λ l,
          {| Literal := Literal l; Regexp := v; Structural := Structural l;
             File := File l; Repo := Repo l; Diff := Diff l;
             Commit := Commit l |}) |});
    ("search.latencies.structural"%string,
     {| load p := Structural (Latencies p);
        store v := with_latencies (λ l,
          {| Literal := Literal l; Regexp := Regexp l; Structural := v;
             File := File l; Repo := Repo l; Diff := Diff l;
             Commit := Commit l |}) |});
    ("search.latencies.file"%string,
     {| load p := File (Latencies p);
        store v := with_latencies (λ l,
          {| Literal := Literal l; Regexp := Regexp l;
             Structural := Structural l; File := v; Repo := Repo l;
             Diff := Diff l; Commit := Commit l |}) |});
    ("search.latencies.repo"%string,
     {| load p := Repo (Latencies p);
        store v := with_latencies (λ l,
          {| Literal := Literal l; Regexp := Regexp l;
             Structural := Structural l; File := File l; Repo := v;
             Diff := Diff l; Commit := Commit l |}) |});
    ("search.latencies.diff"%string,
     {| load p := Diff (Latencies p);
        store v := with_latencies (λ l,
          {| Literal := Literal l; Regexp := Regexp l;
             Structural := Structural l; File := File l; Repo := Repo l;
             Diff := v; Commit := Commit l |}) |});
    ("search.latencies.commit"%string,
     {| load p := Commit (Latencies p);
        store v := with_latencies (λ l,
          {| Literal := Literal l; Regexp := Regexp l;
             Structural := Structural l; File := File l; Repo := Repo l;
             Diff := Diff l; Commit := v |}) |}) ].

Definition durationField : string := "durationMs".
Definition durationPercentiles : list float64 := [p50; p90; p99].

(** One statement of the inner loop,
    [getLatencies(activityPeriods[i]).F = p.Values[k]], where [set] writes
    the field [F]: both indices are checked. *)
Definition assign (getLatencies : getter)
    (set : float64 → SearchLatency → SearchLatency) (i k : nat)
    (p : PercentileValue) (activityPeriods : list SearchLatencyPeriod)
  : outcome (list SearchLatencyPeriod) :=
  match activityPeriods !! i, Values p !! k with
  | Some period, Some v =>
      Return (<[i := store getLatencies (set v (load getLatencies period)) period]>
                activityPeriods)
  | _, _ => Panic
  end.

Definition set_P50 (v : float64) (l : SearchLatency) : SearchLatency :=
  {| P50 := v; P90 := P90 l; P99 := P99 l |}.
Definition set_P90 (v : float64) (l : SearchLatency) : SearchLatency :=
  {| P50 := P50 l; P90 := v; P99 := P99 l |}.
Definition set_P99 (v : float64) (l : SearchLatency) : SearchLatency :=
  {| P50 := P50 l; P90 := P90 l; P99 := v |}.

(** [for i, p := range percentiles { ... }], from the index [i] on. *)
Fixpoint write_percentiles (getLatencies : getter) (i : nat)
    (percentiles : list PercentileValue)
    (activityPeriods : list SearchLatencyPeriod)
  : outcome (list SearchLatencyPeriod) :=
  match percentiles with
  | [] => Return activityPeriods
  | p :: percentiles' =>
      a1 ←! assign getLatencies set_P50 i 0 p activityPeriods;
      a2 ←! assign getLatencies set_P90 i 1 p a1;
      a3 ←! assign getLatencies set_P99 i 2 p a2;
      write_percentiles getLatencies (S i) percentiles' a3
  end.

(** [for name, getLatencies := range latenciesByName { ... }] over the
    entries [order] that are left, and the [return] behind the loop. *)
Fixpoint query_latencies (order : list (string * getter))
    (periodType : db.PeriodType) (periods : Z)
    (activityPeriods : list SearchLatencyPeriod) (w : W)
  : outcome (list SearchLatencyPeriod * option error) * W :=
  match order with
  | [] => (Return (activityPeriods, None), w)
  | (name, getLatencies) :: order' =>
      let '(percentiles, err, w') :=
        PercentilesPerPeriod db_EventLogs periodType (timeNow w) periods
          durationField durationPercentiles {| db.ByEventName := name |} w in
      match err with
      | Some e => (Return ([], Some e), w')
      | None =>
          match write_percentiles getLatencies 0 percentiles activityPeriods with
          | Return activityPeriods' =>
              query_latencies order' periodType periods activityPeriods' w'
          | Panic => (Panic, w')
          end
      end
  end.

(** The largest [int], of 64 bits. *)
Definition maxInt : Z := 2 ^ 63 - 1.

(** [searchQueryLatency]; [order] is the order in which [range] visits
    [latenciesByName].  The first loop appends a period for every [i] from
    [0] to [periods] (none when [periods] is negative); it ends for every
    [periods] below [maxInt], for which the definition is meant: the counter
    of the source wraps around behind [maxInt], and its loop does not end
    then. *)
Definition searchQueryLatency (order : list (string * getter))
    (periodType : db.PeriodType) (periods : Z) (w : W)
  : outcome (list SearchLatencyPeriod * option error) * W :=
  if periods =? 0 then (Return ([], None), w)
  else
    let activityPeriods := (λ _, emptyPeriod) <$> seqZ 0 (periods + 1) in
    query_latencies order periodType periods activityPeriods w.

(** The closure [get] of [GetSearchLatencyStatistics]. *)
Definition get (orders : db.PeriodType → list (string * getter))
    (days weeks months : Z) (periodType : db.PeriodType) (w : W)
  : outcome (list SearchLatencyPeriod * option error) * W :=
  let periods :=
    match periodType with
    | db.Daily => minIntOrZero maxStorageDays days
    | db.Weekly => minIntOrZero (maxStorageDays `quot` 7) weeks
    | db.Monthly => minIntOrZero (maxStorageDays `quot` 31) months
    end in
  searchQueryLatency (orders periodType) periodType periods w.

(** [GetSearchLatencyStatistics]; [orders] gives the order of the map for
    each of the three calls of [searchQueryLatency]. *)
Definition GetSearchLatencyStatistics
    (orders : db.PeriodType → list (string * getter))
    (days weeks months : Z) (w : W)
  : outcome (option SearchLatencyStatistics * option error) * W :=
  match get orders days weeks months db.Daily w with
  | (Panic, w1) => (Panic, w1)
  | (Return (_, Some err), w1) => (Return (None, Some err), w1)
  | (Return (daily, None), w1) =>
      match get orders days weeks months db.Weekly w1 with
      | (Panic, w2) => (Panic, w2)
      | (Return (_, Some err), w2) => (Return (None, Some err), w2)
      | (Return (weekly, None), w2) =>
          match get orders days weeks months db.Monthly w2 with
          | (Panic, w3) => (Panic, w3)
          | (Return (_, Some err), w3) => (Return (None, Some err), w3)
          | (Return (monthly, None), w3) =>
              (Return (Some {| Daily := daily; Weekly := weekly;
                               Monthly := monthly |}, None), w3)
          end
      end
  end.

(** The latency a row of percentiles holds: its first three values. *)
Definition latency_of (row : PercentileValue) : option SearchLatency :=
  match Values row with
  | v0 :: v1 :: v2 :: _ => Some {| P50 := v0; P90 := v1; P99 := v2 |}
  | _ => None
  end.

(** The rows the inner loop can write into [n] periods: no more rows than
    periods, and three values or more in every row. *)
Definition fits (n : nat) (rows : list PercentileValue) : Prop :=
  (length rows ≤ n)%nat ∧ Forall (λ row, is_Some (latency_of row)) rows.

(** A write through the pointer of a getter: the latency written is the
    latency read, and a second write replaces the first. *)
Definition lawful (g : getter) : Prop :=
  (∀ v p, load g (store g v p) = v)
  ∧ (∀ v v' p, store g v (store g v' p) = store g v p).

(** A write through [g] leaves what [g'] reads. *)
Definition apart (g g' : getter) : Prop :=
  ∀ v p, load g' (store g v p) = load g' p.

(** The number of periods of a series. *)
Definition series_length (periods : Z) : nat :=
  if periods =? 0 then 0%nat else Z.to_nat (periods + 1).

End usagestats.

Arguments PercentileValue : clear implicits.
Arguments SearchLatency : clear implicits.
Arguments SearchTypeLatency : clear implicits.
Arguments SearchLatencyPeriod : clear implicits.
Arguments SearchLatencyStatistics : clear implicits.
Arguments EventLogs : clear implicits.
Arguments getter : clear implicits.

(** A query of the event logs and its answer. *)
Record query (float64 Time error : Type) : Type := {
  q_periodType : db.PeriodType;
  q_time : Time;
  q_periods : Z;
  q_field : string;
  q_percentiles : list float64;
  q_name : string;
  q_rows : list (PercentileValue float64);
  q_err : option error
}.
Arguments q_periodType {_ _ _}.
Arguments q_time {_ _ _}.
Arguments q_periods {_ _ _}.
Arguments q_field {_ _ _}.
Arguments q_percentiles {_ _ _}.
Arguments q_name {_ _ _}.
Arguments q_rows {_ _ _}.
Arguments q_err {_ _ _}.

(** The event logs [logs] with a log of the queries beside their world. *)
Definition recording {float64 Time error W : Type}
    (logs : EventLogs float64 Time error W)
  : EventLogs float64 Time error (W * list (query float64 Time error)) :=
  {| PercentilesPerPeriod periodType t periods field percentiles opt '(w, log) :=
       let '(rows, err, w') :=
         PercentilesPerPeriod logs periodType t periods field percentiles opt w in
       (rows, err,
        (w', log ++ [ {| q_periodType := periodType; q_time := t;
                         q_periods := periods; q_field := field;
                         q_percentiles := percentiles;
                         q_name := db.ByEventName opt;
                         q_rows := rows; q_err := err |} ])) |}.

(** The clock of a world that has a log beside it. *)
Definition recording_clock {Time error W float64 : Type} (timeNow : W → Time)
  : W * list (query float64 Time error) → Time :=
  λ wl, timeNow wl.1.

(** A query [searchQueryLatency] makes for the period type [periodType]
    and the number [periods]: the field and the percentiles are fixed, and
    the answer is what the event logs [logs] return for it in some world, at
    the time of that world. *)
Definition asked {float64 Time error W : Type} (p50 p90 p99 : float64)
    (timeNow : W → Time) (logs : EventLogs float64 Time error W)
    (periodType : db.PeriodType) (periods : Z)
    (q : query float64 Time error) : Prop :=
  q_periodType q = periodType ∧ q_periods q = periods
  ∧ q_field q = durationField ∧ q_percentiles q = durationPercentiles p50 p90 p99
  ∧ ∃ w, q_time q = timeNow w
         ∧ (PercentilesPerPeriod logs periodType (timeNow w) periods durationField
              (durationPercentiles p50 p90 p99)
              {| db.ByEventName := q_name q |} w).1
           = (q_rows q, q_err q).

(** A query that was answered without an error, by rows that fit [n]
    periods. *)
Definition answered {float64 Time error : Type} (n : nat)
    (q : query float64 Time error) : Prop :=
  q_err q = None ∧ fits n (q_rows q).

End usagestats.

(** ** Worked statistics

    Event logs that answer every query with two rows, whose values are
    numbers made of the length of the event name; [float64] values are
    stood for by integers, and the world and the clock have one state. *)
Definition exampleLogs : usagestats.EventLogs Z unit string unit :=
  {| usagestats.PercentilesPerPeriod _ _ _ _ _ opt w :=
       let n := Z.of_nat (String.length (usagestats.db.ByEventName opt)) in
       ([ {| usagestats.Values := [n; n + 1; n + 2] |};
          {| usagestats.Values := [2 * n; 2 * n + 1; 2 * n + 2] |} ],
        None, w) |}.

Definition exampleClock : unit → unit := λ _, tt.

(** [searchQueryLatency] for [periods] days on the example logs, with the
    map visited in the order [order]; and the same with the queries logged. *)
Abbreviation exampleLatency order periods :=
  (usagestats.searchQueryLatency 0 50 90 99 exampleClock exampleLogs order
     usagestats.db.Daily periods tt).

Abbreviation exampleQueries order periods :=
  (usagestats.searchQueryLatency 0 50 90 99
     (usagestats.recording_clock exampleClock) (usagestats.recording exampleLogs)
     order usagestats.db.Daily periods (tt, [])).

(** The order of the source. *)
Definition sourceOrder : list (string * usagestats.getter Z) :=
  usagestats.latenciesByName.

(** The periods of a result, when it has some. *)
Definition periods_of {A E W : Type}
    (out : usagestats.outcome (list A * option E) * W) : list A :=
  match out.1 with
  | usagestats.Return (ps, _) => ps
  | usagestats.Panic => []
  end.

(** [minIntOrZero] as its name reads, and 93 days of storage. *)
Definition exampleMin (a b : Z) : Z := Z.max 0 (Z.min a b).

(** ** The tokens and the texts of a cursor, as grammars *)

(** A letter of the base64 alphabet. *)
Definition letter (c : ascii) : Prop := c ∈ base64.encodeStd.

(** Base64 text with its padding: quanta of four letters, the last of
    which may end with one or two padding signs. *)
Inductive base64_text : list ascii → Prop :=
  | base64_end : base64_text []
  | base64_pad2 a b :
      letter a → letter b →
      base64_text [a; b; base64.padChar; base64.padChar]
  | base64_pad1 a b c :
      letter a → letter b → letter c →
      base64_text [a; b; c; base64.padChar]
  | base64_quantum a b c d rest :
      letter a → letter b → letter c → letter d → base64_text rest →
      base64_text (a :: b :: c :: d :: rest).

(** White space between the tokens of a JSON text. *)
Definition blank (l : list ascii) : Prop :=
  Forall (λ c, json.isSpace c = true) l.

(** [quoted lit u]: [lit] is a JSON string literal, from its opening quote
    to its closing quote, and [u] the bytes of the string it denotes, as
    [encoding/json] scans and unquotes it. *)
Definition quoted (lit u : list ascii) : Prop :=
  ∃ body, lit = dquote :: body
          ∧ json.string_lit (length body) body = Some (u, []).

(** The value of a member of a cursor: a string, or [null], which reads as
    the empty string. *)
Inductive member_value : list ascii → string → Prop :=
  | value_string lit u : quoted lit u → member_value lit (string_of_bytes u)
  | value_null : member_value (bytes_of_string "null") "".

(** A member of a cursor: a name that is the decimal text of an [int64],
    a colon and a value. *)
Inductive member : list ascii → Z → string → Prop :=
  | member_intro lit u k b1 b2 val v :
      quoted lit u → strconv.ParseInt (string_of_bytes u) = Some k →
      blank b1 → blank b2 → member_value val v →
      member (lit ++ b1 ++ ":"%char :: b2 ++ val) k v.

(** The members of an object, with the commas between them. *)
Inductive member_list : list ascii → list (Z * string) → Prop :=
  | members_last txt k v b :
      member txt k v → blank b → member_list (txt ++ b) [(k, v)]
  | members_more txt k v b1 b2 rest kvs :
      member txt k v → blank b1 → blank b2 → member_list rest kvs →
      member_list (txt ++ b1 ++ ","%char :: b2 ++ rest) ((k, v) :: kvs).

(** The JSON texts [readCursor] takes for a cursor, and the map each one
    denotes: [null], and an object whose members have [int64] names and
    string or [null] values; of two members with one name the later one
    counts. *)
Inductive cursor_text : list ascii → gmap Z string → Prop :=
  | cursor_null b1 b2 :
      blank b1 → blank b2 →
      cursor_text (b1 ++ bytes_of_string "null" ++ b2) ∅
  | cursor_no_member b1 b2 b3 :
      blank b1 → blank b2 → blank b3 →
      cursor_text (b1 ++ "{"%char :: b2 ++ "}"%char :: b3) ∅
  | cursor_members b1 b2 ms kvs b3 :
      blank b1 → blank b2 → member_list ms kvs → blank b3 →
      cursor_text (b1 ++ "{"%char :: b2 ++ ms ++ "}"%char :: b3)
                  (insert_all ∅ kvs).

(** An error without the offset it reports. *)
Definition forget_offset (e : error) : error :=
  match e with
  | CorruptInputError _ => CorruptInputError 0
  | _ => e
  end.

(** * Bytes and bits *)

Lemma code_range (c : ascii) : 0 ≤ code c < 256.
Proof.
  unfold code. pose proof (N_ascii_bounded c). lia.
Qed.

Lemma chr_code (c : ascii) : chr (code c) = c.
Proof.
  unfold chr. rewrite Z.mod_small by apply code_range.
  unfold code. rewrite N2Z.id. apply ascii_N_embedding.
Qed.

Lemma code_chr (z : Z) : code (chr z) = z mod 256.
Proof.
  unfold chr, code. pose proof (Z.mod_pos_bound z 256 eq_refl).
  rewrite N_ascii_embedding by lia. lia.
Qed.

Lemma chr_mod (z : Z) : chr (z mod 256) = chr z.
Proof. unfold chr. by rewrite Z.mod_mod. Qed.

Lemma land_mul_pow2_low (a b n : Z) :
  0 ≤ n → 0 ≤ b < 2 ^ n → Z.land (a * 2 ^ n) b = 0.
Proof.
  intros Hn Hb. apply Z.bits_inj'. intros i Hi.
  rewrite Z.land_spec, Z.bits_0.
  destruct (Z.lt_ge_cases i n).
  - by rewrite Z.mul_pow2_bits_low.
  - rewrite <- (Z.mod_small b (2 ^ n)) by done.
    rewrite Z.mod_pow2_bits_high by lia. apply andb_false_r.
Qed.

(** An [or] of a shifted value and a value below the shift is a sum. *)
Lemma lor_shiftl (a b n : Z) :
  0 ≤ n → 0 ≤ b < 2 ^ n → Z.lor (Z.shiftl a n) b = a * 2 ^ n + b.
Proof.
  intros Hn Hb. rewrite Z.shiftl_mul_pow2 by done.
  rewrite <- Z.lxor_lor, <- Z.add_nocarry_lxor; auto using land_mul_pow2_low.
Qed.

Lemma lor_mul (a b n : Z) :
  0 ≤ n → 0 ≤ b < 2 ^ n → Z.lor (a * 2 ^ n) b = a * 2 ^ n + b.
Proof.
  intros Hn Hb.
  rewrite <- Z.lxor_lor, <- Z.add_nocarry_lxor; auto using land_mul_pow2_low.
Qed.

Lemma land_ones_mod (a n : Z) : 0 ≤ n → Z.land a (2 ^ n - 1) = a mod 2 ^ n.
Proof.
  intros Hn. rewrite <- Z.land_ones by done. f_equal.
  rewrite Z.ones_equiv. lia.
Qed.

Lemma pack3 a b c : 0 ≤ a → 0 ≤ b < 256 → 0 ≤ c < 256 →
  Z.lor (Z.lor (Z.shiftl a 16) (Z.shiftl b 8)) c = a * 65536 + b * 256 + c.
Proof.
  intros.
  rewrite (Z.shiftl_mul_pow2 b 8) by lia.
  rewrite (lor_shiftl a (b * 2 ^ 8) 16) by lia.
  replace (a * 2 ^ 16 + b * 2 ^ 8) with ((a * 256 + b) * 2 ^ 8) by lia.
  rewrite lor_mul by lia. lia.
Qed.

Lemma chr_eq (z : Z) (c : ascii) : z mod 256 = code c → chr z = c.
Proof. intros H. by rewrite <- chr_mod, H, chr_code. Qed.

Lemma sextet (val k : Z) :
  0 ≤ k → Z.land (Z.shiftr val k) 63 = val / 2 ^ k mod 64.
Proof.
  intros Hk. rewrite Z.shiftr_div_pow2 by done.
  change 63 with (2 ^ 6 - 1). by rewrite land_ones_mod.
Qed.

Lemma pack4 d0 d1 d2 d3 :
  0 ≤ d0 → 0 ≤ d1 < 64 → 0 ≤ d2 < 64 → 0 ≤ d3 < 64 →
  Z.lor (Z.lor (Z.lor (Z.shiftl d0 18) (Z.shiftl d1 12)) (Z.shiftl d2 6)) d3
  = d0 * 262144 + d1 * 4096 + d2 * 64 + d3.
Proof.
  intros.
  rewrite (Z.shiftl_mul_pow2 d1 12), (Z.shiftl_mul_pow2 d2 6) by lia.
  rewrite (lor_shiftl d0 (d1 * 2 ^ 12) 18) by lia.
  replace (d0 * 2 ^ 18 + d1 * 2 ^ 12) with ((d0 * 64 + d1) * 2 ^ 12) by lia.
  rewrite lor_mul by lia.
  replace ((d0 * 64 + d1) * 2 ^ 12 + d2 * 2 ^ 6)
    with (((d0 * 64 + d1) * 64 + d2) * 2 ^ 6) by lia.
  rewrite lor_mul by lia. lia.
Qed.

Lemma decodeMap_encode (i : Z) : 0 ≤ i < 64 → base64.decodeMap (base64.encode i) = i.
Proof.
  intros Hi. rewrite <- (Z2Nat.id i) by lia.
  assert (Hn : (Z.to_nat i < 64)%nat) by lia.
  generalize dependent (Z.to_nat i). clear. intros n Hn.
  do 64 (destruct n as [|n]; [reflexivity|]). lia.
Qed.

Lemma decode_sextet (i : Z) (src : list ascii) (si : Z) (dbuf : list Z) :
  0 ≤ i < 64 →
  base64.decode (base64.encode i :: src) si dbuf
  = match dbuf with
    | [d0; d1; d2] =>
        let '(dst, err) := base64.decode src (si + 1) [] in
        (base64.quantum d0 d1 d2 i ++ dst, err)
    | _ => base64.decode src (si + 1) (dbuf ++ [i])
    end.
Proof.
  intros Hi. pose proof (decodeMap_encode i Hi) as Hd.
  generalize dependent (base64.encode i). intros c Hd.
  cbn [base64.decode]. rewrite Hd.
  replace (i =? 255) with false by lia. reflexivity.
Qed.

Lemma quantum_bytes d0 d1 d2 d3 :
  0 ≤ d0 < 64 → 0 ≤ d1 < 64 → 0 ≤ d2 < 64 → 0 ≤ d3 < 64 →
  base64.quantum d0 d1 d2 d3
  = let val := d0 * 262144 + d1 * 4096 + d2 * 64 + d3 in
    [chr (val / 65536); chr (val / 256); chr val].
Proof.
  intros. unfold base64.quantum. rewrite pack4 by lia. cbv zeta.
  by rewrite !Z.shiftr_div_pow2 by lia.
Qed.

Lemma decode_padding2 (si d0 d1 : Z) :
  base64.decode [base64.padChar; base64.padChar] si [d0; d1]
  = (take 1 (base64.quantum d0 d1 0 0), None).
Proof. reflexivity. Qed.

Lemma decode_padding1 (si d0 d1 d2 : Z) :
  base64.decode [base64.padChar] si [d0; d1; d2]
  = (take 2 (base64.quantum d0 d1 d2 0), None).
Proof. reflexivity. Qed.

Ltac sextets :=
  repeat match goal with
         | |- context [?x mod 64] =>
             let s := fresh "s" in
             let Hs := fresh "Hs" in
             let Hr := fresh "Hr" in
             pose proof (Z.mod_pos_bound x 64 eq_refl) as Hr;
             remember (x mod 64) as s eqn:Hs
         end.

Theorem base64_decode_Encode (src : list ascii) :
  ∀ si, base64.decode (base64.Encode src) si [] = (src, None).
Proof.
  induction src as [|a|a b|a b c src IH] using list_ind3; intros si.
  - reflexivity.
  - pose proof (code_range a). cbn [base64.Encode].
    rewrite Z.shiftl_mul_pow2, !sextet by lia. sextets.
    rewrite !decode_sextet by done. cbn [app].
    rewrite decode_padding2, quantum_bytes by lia. cbv zeta. cbn [take].
    do 2 f_equal. apply chr_eq. subst. Z.div_mod_to_equations. lia.
  - pose proof (code_range a). pose proof (code_range b). cbn [base64.Encode].
    replace (Z.lor (Z.shiftl (code a) 16) (Z.shiftl (code b) 8))
      with (code a * 65536 + code b * 256 + 0)
      by (rewrite <- (pack3 (code a) (code b) 0) by lia; by rewrite Z.lor_0_r).
    rewrite !sextet by lia. sextets.
    rewrite !decode_sextet by done. cbn [app].
    rewrite decode_padding1, quantum_bytes by lia. cbv zeta. cbn [take].
    do 2 f_equal; [|f_equal];
      apply chr_eq; subst; Z.div_mod_to_equations; lia.
  - pose proof (code_range a). pose proof (code_range b). pose proof (code_range c).
    cbn [base64.Encode]. rewrite pack3 by lia.
    replace (Z.land (code a * 65536 + code b * 256 + code c) 63)
      with (Z.land (Z.shiftr (code a * 65536 + code b * 256 + code c) 0) 63)
      by (by rewrite Z.shiftr_0_r).
    rewrite !sextet by lia. sextets.
    rewrite !decode_sextet by done. cbn [app]. rewrite IH.
    rewrite quantum_bytes by lia. cbv zeta. cbn [app].
    do 2 f_equal; [|f_equal; [|f_equal]];
      apply chr_eq; subst; Z.div_mod_to_equations; lia.
Qed.

(** * The library models on examples *)

Example base64_encodes_with_padding :
  base64.EncodeToString (bytes_of_string "hello!!") = "aGVsbG8hIQ=="
  ∧ base64.EncodeToString (bytes_of_string "null") = "bnVsbA=="
  ∧ base64.EncodeToString [] = "".
Proof. repeat split. Qed.

Example base64_decodes :
  base64.DecodeString "aGVsbG8hIQ==" = (bytes_of_string "hello!!", None)
  ∧ base64.DecodeString "" = ([], None).
Proof. repeat split. Qed.

(** A line feed inside the text is skipped; a missing pad byte and a byte
    outside the alphabet are errors; the spare bits of the last quantum are
    not checked. *)
Example base64_decodes_leniently :
  base64.DecodeString (string_of_bytes (bytes_of_string "aGVs" ++ "010"%char
                                        :: bytes_of_string "bG8hIQ=="))
  = (bytes_of_string "hello!!", None)
  ∧ base64.DecodeString "aGVsbG8hIQ="
    = (bytes_of_string "hello!", Some (CorruptInputError 11))
  ∧ base64.DecodeString "aGV*bG8h" = ([], Some (CorruptInputError 3))
  ∧ base64.DecodeString "aGVsbG8hIR==" = (bytes_of_string "hello!!", None).
Proof. repeat split. Qed.

Example utf8_decodes_and_encodes :
  utf8.DecodeRune [chr 0xE2; chr 0x82; chr 0xAC] = (0x20AC, 3%nat)
  ∧ utf8.EncodeRune 0x20AC = [chr 0xE2; chr 0x82; chr 0xAC]
  ∧ utf8.DecodeRune [chr 0xF0; chr 0x9F; chr 0x98; chr 0x80] = (0x1F600, 4%nat)
  ∧ utf8.EncodeRune 0x1F600 = [chr 0xF0; chr 0x9F; chr 0x98; chr 0x80].
Proof. repeat split. Qed.

(** An encoded surrogate is no valid UTF-8, and a surrogate is written as
    [U+FFFD]. *)
Example utf8_refuses_surrogates :
  utf8.DecodeRune [chr 0xED; chr 0xA0; chr 0x80] = (utf8.RuneError, 1%nat)
  ∧ utf8.EncodeRune 0xD800 = [chr 0xEF; chr 0xBF; chr 0xBD].
Proof. repeat split. Qed.

Example strconv_formats_and_parses :
  strconv.FormatInt (-9223372036854775808) = "-9223372036854775808"
  ∧ strconv.FormatInt 0 = "0"
  ∧ strconv.ParseInt "-9223372036854775808" = Some (-9223372036854775808)
  ∧ strconv.ParseInt "+007" = Some 7
  ∧ strconv.ParseInt "9223372036854775808" = None
  ∧ strconv.ParseInt "-" = None
  ∧ strconv.ParseInt "1_000" = None.
Proof. repeat split. Qed.

(** The keys are sorted as strings, [10] before [9], and [<] is escaped; the
    text is compared in base64, where it has no double quote. *)
Example json_marshals_sorted_and_escaped :
  base64.EncodeToString
    (json.Marshal {[ 9 := "tokA"%string; 10 := "b<c"%string; -3 := "x"%string ]}).1
  = "eyItMyI6IngiLCIxMCI6ImJcdTAwM2NjIiwiOSI6InRva0EifQ=="
  ∧ json.Unmarshal
      (json.Marshal {[ 9 := "tokA"%string; 10 := "b<c"%string; -3 := "x"%string ]}).1
    = ({[ 9 := "tokA"%string; 10 := "b<c"%string; -3 := "x"%string ]}, None).
Proof. split; vm_compute; reflexivity. Qed.

(** The empty text and a text with bytes behind its value are syntax
    errors, an array is a type error, and [null] is accepted. *)
Example json_unmarshals :
  json.Unmarshal [] = (∅, Some SyntaxError)
  ∧ json.Unmarshal (bytes_of_string " [1, 2.5e3, {}]x ") = (∅, Some SyntaxError)
  ∧ json.Unmarshal (bytes_of_string " [1, 2.5e3, {}] ") = (∅, Some UnmarshalTypeError)
  ∧ json.Unmarshal (bytes_of_string " null ") = (∅, None)
  ∧ json.Unmarshal (bytes_of_string "{}") = (∅, None).
Proof. repeat split; vm_compute; reflexivity. Qed.

(** * strconv: formatting and parsing *)

Lemma bytes_of_string_of_bytes (l : list ascii) :
  bytes_of_string (string_of_bytes l) = l.
Proof. apply list_ascii_of_string_of_list_ascii. Qed.

Lemma string_of_bytes_of_string (s : string) :
  string_of_bytes (bytes_of_string s) = s.
Proof. apply string_of_list_ascii_of_string. Qed.

Lemma length_bytes_of_string (s : string) :
  length (bytes_of_string s) = String.length s.
Proof. induction s; simpl; by f_equal. Qed.

Lemma code_digit (u : Z) : 0 ≤ u < 10 → code (strconv.digit u) = 48 + u.
Proof.
  intros Hu. unfold strconv.digit. rewrite code_chr.
  change (code "0") with 48. apply Z.mod_small. lia.
Qed.

Lemma is_digit_code (c : ascii) :
  strconv.is_digit c = true ↔ 48 ≤ code c ≤ 57.
Proof.
  unfold strconv.is_digit. change (code "0") with 48. change (code "9") with 57.
  rewrite andb_true_iff, !Z.leb_le. done.
Qed.

Lemma is_digit_digit (u : Z) : 0 ≤ u < 10 → strconv.is_digit (strconv.digit u) = true.
Proof. intros Hu. apply is_digit_code. rewrite code_digit by done. lia. Qed.

Lemma parse_format_digits (fuel : nat) :
  ∀ u acc, 0 ≤ u < 10 ^ Z.of_nat fuel →
    strconv.parse_digits (strconv.format_digits fuel u acc) 0
    = strconv.parse_digits acc u.
Proof.
  induction fuel as [|fuel IH]; intros u acc Hu.
  - simpl in *. by replace u with 0 by lia.
  - cbn [strconv.format_digits]. destruct (Z.ltb_spec u 10) as [Hlt|Hge].
    + cbn [strconv.parse_digits]. rewrite is_digit_digit, code_digit by lia.
      change (code "0") with 48. f_equal. lia.
    + rewrite IH.
      * cbn [strconv.parse_digits].
        pose proof (Z.mod_pos_bound u 10 eq_refl).
        rewrite is_digit_digit, code_digit by lia.
        change (code "0") with 48. f_equal. Z.div_mod_to_equations. lia.
      * rewrite Nat2Z.inj_succ, Z.pow_succ_r in Hu by lia.
        Z.div_mod_to_equations. lia.
Qed.

(** The digits [format_digits] writes start with a digit. *)
Lemma format_digits_head (fuel : nat) :
  ∀ u acc, 0 ≤ u →
    (0 < fuel)%nat ∨ (∃ d acc', acc = d :: acc' ∧ strconv.is_digit d = true) →
    ∃ d rest, strconv.format_digits fuel u acc = d :: rest
              ∧ strconv.is_digit d = true.
Proof.
  induction fuel as [|fuel IH]; intros u acc Hu Hhead.
  - destruct Hhead as [?|(d & acc' & -> & Hd)]; [lia|]. by exists d, acc'.
  - cbn [strconv.format_digits]. destruct (Z.ltb_spec u 10) as [Hlt|Hge].
    + eexists _, _. split; [done|]. apply is_digit_digit. lia.
    + apply IH; [Z.div_mod_to_equations; lia|]. right.
      eexists _, _. split; [done|]. apply is_digit_digit.
      apply Z.mod_pos_bound. lia.
Qed.

Lemma is_digit_not_sign (d : ascii) :
  strconv.is_digit d = true →
  Ascii.eqb d "+" = false ∧ Ascii.eqb d "-" = false.
Proof.
  intros Hd. apply is_digit_code in Hd.
  split; apply Ascii.eqb_neq; intros ->; vm_compute in Hd; destruct Hd; congruence.
Qed.

Theorem ParseInt_FormatInt (i : Z) :
  - 2 ^ 63 ≤ i < 2 ^ 63 → strconv.ParseInt (strconv.FormatInt i) = Some i.
Proof.
  intros Hi. unfold strconv.ParseInt, strconv.FormatInt.
  rewrite bytes_of_string_of_bytes.
  destruct (Z.ltb_spec i 0) as [Hneg|Hpos].
  - change (Ascii.eqb "-" "-") with true. change (Ascii.eqb "-" "+") with false.
    cbn [orb].
    destruct (format_digits_head 20 (- i) [] ltac:(lia) ltac:(left; lia))
      as (d & rest & Heq & _).
    unfold strconv.ParseUint.
    pose proof (parse_format_digits 20 (- i) [] ltac:(simpl; lia)) as Hparse.
    rewrite Heq in *. rewrite Hparse. cbn [strconv.parse_digits negb andb].
    destruct (Z.ltb_spec (2 ^ 63) (- i)); [lia|]. f_equal. lia.
  - destruct (format_digits_head 20 i [] ltac:(lia) ltac:(left; lia))
      as (d & rest & Heq & Hd).
    pose proof (parse_format_digits 20 i [] ltac:(simpl; lia)) as Hparse.
    rewrite Heq in *. destruct (is_digit_not_sign d Hd) as [-> ->].
    cbn [orb]. unfold strconv.ParseUint. rewrite Hparse.
    cbn [strconv.parse_digits negb andb].
    destruct (Z.leb_spec (2 ^ 63) i); [lia|]. done.
Qed.

(** * unicode/utf8: decoding and encoding *)

Lemma land_mask (a n m k : Z) :
  0 ≤ n → m = 2 ^ n - 1 → k = 2 ^ n → Z.land a m = a mod k.
Proof. intros Hn -> ->. by apply land_ones_mod. Qed.

Lemma rune2_bits (p0 b1 : Z) :
  Z.lor (Z.shiftl (Z.land p0 0x1F) 6) (Z.land b1 0x3F) = rune2 p0 b1.
Proof.
  rewrite (land_mask p0 5 _ 32), (land_mask b1 6 _ 64) by done.
  pose proof (Z.mod_pos_bound b1 64 eq_refl).
  rewrite lor_shiftl by lia. unfold rune2. lia.
Qed.

Lemma rune3_bits (p0 b1 b2 : Z) :
  Z.lor (Z.lor (Z.shiftl (Z.land p0 0x0F) 12) (Z.shiftl (Z.land b1 0x3F) 6))
        (Z.land b2 0x3F)
  = rune3 p0 b1 b2.
Proof.
  rewrite (land_mask p0 4 _ 16), (land_mask b1 6 _ 64), (land_mask b2 6 _ 64)
    by done.
  pose proof (Z.mod_pos_bound b1 64 eq_refl).
  pose proof (Z.mod_pos_bound b2 64 eq_refl).
  rewrite (Z.shiftl_mul_pow2 (b1 mod 64)) by lia.
  rewrite lor_shiftl by lia.
  replace (p0 mod 16 * 2 ^ 12 + b1 mod 64 * 2 ^ 6)
    with ((p0 mod 16 * 64 + b1 mod 64) * 2 ^ 6) by lia.
  rewrite lor_mul by lia. unfold rune3. lia.
Qed.

Lemma rune4_bits (p0 b1 b2 b3 : Z) :
  Z.lor (Z.lor (Z.lor (Z.shiftl (Z.land p0 0x07) 18)
                      (Z.shiftl (Z.land b1 0x3F) 12))
               (Z.shiftl (Z.land b2 0x3F) 6))
        (Z.land b3 0x3F)
  = rune4 p0 b1 b2 b3.
Proof.
  rewrite (land_mask p0 3 _ 8), (land_mask b1 6 _ 64), (land_mask b2 6 _ 64),
    (land_mask b3 6 _ 64) by done.
  pose proof (Z.mod_pos_bound p0 8 eq_refl).
  pose proof (Z.mod_pos_bound b1 64 eq_refl).
  pose proof (Z.mod_pos_bound b2 64 eq_refl).
  pose proof (Z.mod_pos_bound b3 64 eq_refl).
  rewrite pack4 by lia. unfold rune4. lia.
Qed.

Ltac split_tests :=
  repeat match goal with
         | |- context [Z.ltb ?a ?b] => destruct (Z.ltb_spec a b); try lia
         | |- context [Z.leb ?a ?b] => destruct (Z.leb_spec a b); try lia
         | |- context [Z.eqb ?a ?b] => destruct (Z.eqb_spec a b); try lia
         end.

Lemma DecodeRune_2 (c0 c1 : ascii) (rest : list ascii) :
  valid2 (code c0) (code c1) →
  utf8.DecodeRune (c0 :: c1 :: rest) = (rune2 (code c0) (code c1), 2%nat).
Proof.
  intros (H0 & H1). unfold utf8.DecodeRune, utf8.first. split_tests.
  all: cbn; by rewrite rune2_bits.
Qed.

Lemma DecodeRune_3 (c0 c1 c2 : ascii) (rest : list ascii) :
  valid3 (code c0) (code c1) (code c2) →
  utf8.DecodeRune (c0 :: c1 :: c2 :: rest)
  = (rune3 (code c0) (code c1) (code c2), 3%nat).
Proof.
  intros (H0 & H1 & Hlo & Hhi & H2).
  unfold utf8.DecodeRune, utf8.first, utf8.not_continuation. split_tests.
  all: cbn; by rewrite rune3_bits.
Qed.

Lemma DecodeRune_4 (c0 c1 c2 c3 : ascii) (rest : list ascii) :
  valid4 (code c0) (code c1) (code c2) (code c3) →
  utf8.DecodeRune (c0 :: c1 :: c2 :: c3 :: rest)
  = (rune4 (code c0) (code c1) (code c2) (code c3), 4%nat).
Proof.
  intros (H0 & H1 & Hlo & Hhi & H2 & H3).
  unfold utf8.DecodeRune, utf8.first, utf8.not_continuation. split_tests.
  all: cbn; by rewrite rune4_bits.
Qed.

(** What [DecodeRune] returns for a lead byte outside ASCII: the width-one
    error, or the rune of one of the accepted sequences. *)
Lemma DecodeRune_inv (c0 : ascii) (p1 : list ascii) (r : Z) (size : nat) :
  utf8.DecodeRune (c0 :: p1) = (r, size) → 0x80 ≤ code c0 →
  (r = utf8.RuneError ∧ size = 1%nat)
  ∨ (∃ c1 rest, p1 = c1 :: rest ∧ valid2 (code c0) (code c1)
       ∧ r = rune2 (code c0) (code c1) ∧ size = 2%nat)
  ∨ (∃ c1 c2 rest, p1 = c1 :: c2 :: rest
       ∧ valid3 (code c0) (code c1) (code c2)
       ∧ r = rune3 (code c0) (code c1) (code c2) ∧ size = 3%nat)
  ∨ (∃ c1 c2 c3 rest, p1 = c1 :: c2 :: c3 :: rest
       ∧ valid4 (code c0) (code c1) (code c2) (code c3)
       ∧ r = rune4 (code c0) (code c1) (code c2) (code c3) ∧ size = 4%nat).
Proof.
  intros Hdec H0. pose proof (code_range c0).
  destruct p1 as [|c1 [|c2 [|c3 rest]]];
    revert Hdec;
    unfold utf8.DecodeRune, utf8.first, utf8.not_continuation, valid2, valid3, valid4;
    split_tests; cbn;
    rewrite ?rune2_bits, ?rune3_bits, ?rune4_bits;
    intros [= <- <-]; first [ by left | right ].
  all: first
    [ left; eexists _, _; repeat split; (reflexivity || lia)
    | right; left; eexists _, _, _; repeat split; (reflexivity || lia)
    | right; right; eexists _, _, _, _; repeat split; (reflexivity || lia) ].
Qed.

Lemma lor_const (c k y n : Z) :
  c = k * 2 ^ n → 0 ≤ n → 0 ≤ y < 2 ^ n → Z.lor c y = c + y.
Proof. intros -> Hn Hy. by apply lor_mul. Qed.

Ltac encode_bytes :=
  rewrite ?Z.shiftr_div_pow2 by lia;
  rewrite ?(land_mask _ 6 0x3F 64) by done;
  repeat match goal with
         | |- context [Z.lor 0x80 ?y] =>
             rewrite (lor_const 0x80 2 y 6) by (try done; Z.div_mod_to_equations; lia)
         | |- context [Z.lor 0xC0 ?y] =>
             rewrite (lor_const 0xC0 6 y 5) by (try done; Z.div_mod_to_equations; lia)
         | |- context [Z.lor 0xE0 ?y] =>
             rewrite (lor_const 0xE0 14 y 4) by (try done; Z.div_mod_to_equations; lia)
         | |- context [Z.lor 0xF0 ?y] =>
             rewrite (lor_const 0xF0 30 y 3) by (try done; Z.div_mod_to_equations; lia)
         end;
  repeat f_equal; apply chr_eq; Z.div_mod_to_equations; lia.

Lemma EncodeRune_rune2 (c0 c1 : ascii) :
  valid2 (code c0) (code c1) →
  utf8.EncodeRune (rune2 (code c0) (code c1)) = [c0; c1].
Proof.
  intros (H0 & H1). unfold utf8.EncodeRune, rune2, utf8.MaxRune.
  set (r := _ + _).
  assert (Hr : 0x80 ≤ r ≤ 0x7FF) by (subst r; Z.div_mod_to_equations; lia).
  rewrite (Z.mod_small r) by lia. split_tests.
  subst r. encode_bytes.
Qed.

Lemma EncodeRune_rune3 (c0 c1 c2 : ascii) :
  valid3 (code c0) (code c1) (code c2) →
  utf8.EncodeRune (rune3 (code c0) (code c1) (code c2)) = [c0; c1; c2].
Proof.
  intros (H0 & H1 & Hlo & Hhi & H2).
  unfold utf8.EncodeRune, rune3, utf8.MaxRune, utf8.encode3.
  set (r := _ + _ + _).
  assert (Hr : 0x800 ≤ r ≤ 0xFFFF ∧ ¬ (0xD800 ≤ r ≤ 0xDFFF))
    by (subst r; Z.div_mod_to_equations; lia).
  rewrite (Z.mod_small r) by lia. split_tests; cbn [orb andb].
  all: subst r; encode_bytes.
Qed.

Lemma EncodeRune_rune4 (c0 c1 c2 c3 : ascii) :
  valid4 (code c0) (code c1) (code c2) (code c3) →
  utf8.EncodeRune (rune4 (code c0) (code c1) (code c2) (code c3))
  = [c0; c1; c2; c3].
Proof.
  intros (H0 & H1 & Hlo & Hhi & H2 & H3).
  unfold utf8.EncodeRune, rune4, utf8.MaxRune.
  set (r := _ + _ + _ + _).
  assert (Hr : 0x10000 ≤ r ≤ 0x10FFFF)
    by (subst r; Z.div_mod_to_equations; lia).
  rewrite (Z.mod_small r) by lia. split_tests; cbn [orb andb].
  all: subst r; encode_bytes.
Qed.

(** A rune [DecodeRune] accepts is written back byte for byte, and is read
    the same whatever follows its bytes. *)
Lemma DecodeRune_valid (c0 : ascii) (p1 : list ascii) (r : Z) (size : nat) :
  utf8.DecodeRune (c0 :: p1) = (r, size) → 0x80 ≤ code c0 →
  ¬ (r = utf8.RuneError ∧ size = 1%nat) →
  ∃ pre rest,
    c0 :: p1 = pre ++ rest ∧ length pre = size ∧ (2 ≤ size)%nat
    ∧ utf8.EncodeRune r = pre
    ∧ ∀ t, utf8.DecodeRune (pre ++ t) = (r, size).
Proof.
  intros Hdec H0 Hvalid.
  destruct (DecodeRune_inv c0 p1 r size Hdec H0)
    as [?|[(c1 & rest & -> & Hv & -> & ->)
          |[(c1 & c2 & rest & -> & Hv & -> & ->)
           |(c1 & c2 & c3 & rest & -> & Hv & -> & ->)]]]; [done|..].
  - exists [c0; c1], rest. repeat split; [lia | by apply EncodeRune_rune2 |].
    intros t. by apply DecodeRune_2.
  - exists [c0; c1; c2], rest. repeat split; [lia | by apply EncodeRune_rune3 |].
    intros t. by apply DecodeRune_3.
  - exists [c0; c1; c2; c3], rest.
    repeat split; [lia | by apply EncodeRune_rune4 |].
    intros t. by apply DecodeRune_4.
Qed.

(** * encoding/json: strings *)

Lemma string_lit_plain (c : ascii) (t : list ascii) (fuel : nat) :
  json.htmlSafeSet (code c) = true →
  json.string_lit (S fuel) (c :: t) = prepend [c] (json.string_lit fuel t).
Proof.
  intros Hsafe. unfold json.htmlSafeSet in Hsafe.
  apply andb_true_iff in Hsafe as [Hrange Hnot].
  apply andb_true_iff in Hrange as [Hlo Hhi].
  apply negb_true_iff in Hnot. repeat apply orb_false_iff in Hnot as [Hnot ?].
  assert (Ascii.eqb c dquote = false) as Hq.
  { apply Ascii.eqb_neq. intros ->. by vm_compute in Hnot. }
  assert (Ascii.eqb c backslash = false) as Hb.
  { apply Ascii.eqb_neq. intros ->. by vm_compute in H. }
  cbn [json.string_lit]. rewrite Hq, Hb.
  unfold utf8.RuneSelf. split_tests. reflexivity.
Qed.

Lemma string_lit_escape (c : ascii) (t : list ascii) (fuel : nat) :
  code c < 0x80 → json.htmlSafeSet (code c) = false →
  json.string_lit (S fuel) (json.escape_ascii c ++ t)
  = prepend [c] (json.string_lit fuel t).
Proof.
  intros Hc Hsafe.
  destruct c as [[] [] [] [] [] [] [] []];
    try (vm_compute in Hc; discriminate Hc);
    try (vm_compute in Hsafe; discriminate Hsafe);
    reflexivity.
Qed.

Lemma string_lit_rune (pre tail : list ascii) (r : Z) (size : nat) (fuel : nat) :
  (∃ c pre', pre = c :: pre' ∧ 0x80 ≤ code c) →
  utf8.DecodeRune (pre ++ tail) = (r, size) →
  utf8.EncodeRune r = pre → length pre = size →
  json.string_lit (S fuel) (pre ++ tail)
  = prepend pre (json.string_lit fuel tail).
Proof.
  intros (c & pre' & -> & Hc) Hdec Henc Hlen.
  pose proof (code_range c).
  assert (Ascii.eqb c dquote = false) as Hq.
  { apply Ascii.eqb_neq. intros ->. vm_compute in Hc. by destruct Hc. }
  assert (Ascii.eqb c backslash = false) as Hb.
  { apply Ascii.eqb_neq. intros ->. vm_compute in Hc. by destruct Hc. }
  rewrite <- app_comm_cons in *. cbn [json.string_lit]. rewrite Hq, Hb.
  unfold utf8.RuneSelf. split_tests.
  rewrite Hdec, Henc. rewrite app_comm_cons, <- Hlen, drop_app_length.
  reflexivity.
Qed.

Lemma string_lit_separator (r : Z) (tail : list ascii) (fuel : nat) :
  r = 0x2028 ∨ r = 0x2029 →
  json.string_lit (S fuel)
    (bytes_of_string "\u202" ++ json.hex (Z.land r 0xF) :: tail)
  = prepend (utf8.EncodeRune r) (json.string_lit fuel tail).
Proof. intros [-> | ->]; reflexivity. Qed.

(** [unquote (quote s) = s] for a string that is valid UTF-8: the literal
    [encodeState.string] writes for [s] is read back as [s], whatever
    follows its closing quote. *)
Lemma string_lit_string_loop (n : nat) :
  ∀ s rest fuel,
    utf8.valid_from n s = true →
    (length (json.string_loop n s) < fuel)%nat →
    json.string_lit fuel (json.string_loop n s ++ dquote :: rest)
    = Some (s, rest).
Proof.
  induction n as [|n IH]; intros s rest fuel Hvalid Hfuel.
  - destruct s; [|done]. destruct fuel; [simpl in Hfuel; lia|]. reflexivity.
  - destruct s as [|c s'].
    { destruct fuel; [simpl in Hfuel; lia|]. reflexivity. }
    pose proof (code_range c) as Hc.
    cbn [utf8.valid_from] in Hvalid. cbn [json.string_loop] in *.
    unfold utf8.RuneSelf in *.
    destruct (Z.ltb_spec (code c) 0x80) as [Hascii|Hhigh].
    + assert (utf8.DecodeRune (c :: s') = (code c, 1%nat)) as Hdec.
      { unfold utf8.DecodeRune, utf8.first. by split_tests. }
      rewrite Hdec in Hvalid. unfold utf8.RuneError in Hvalid.
      destruct (Z.eqb_spec (code c) 0xFFFD); [lia|].
      cbn [andb drop] in Hvalid.
      destruct (json.htmlSafeSet (code c)) eqn:Hsafe.
      * destruct fuel; [simpl in Hfuel; lia|].
        rewrite <- app_comm_cons, string_lit_plain by done.
        rewrite IH; [done | done | simpl in Hfuel; lia].
      * destruct fuel; [simpl in Hfuel; lia|].
        rewrite <- app_assoc, string_lit_escape by done.
        rewrite IH; [done | done |].
        rewrite length_app in Hfuel. unfold json.escape_ascii in Hfuel.
        simpl in Hfuel. lia.
    + destruct (utf8.DecodeRune (c :: s')) as [r size] eqn:Hdec.
      destruct ((r =? utf8.RuneError) && (size =? 1)%nat) eqn:Herr; [done|].
      destruct (DecodeRune_valid c s' r size Hdec Hhigh)
        as (pre & rest0 & Hsplit & Hlen & Hsize & Henc & Hpre).
      { intros [-> ->]. by vm_compute in Herr. }
      assert (drop size (c :: s') = rest0) as Hdrop.
      { by rewrite Hsplit, <- Hlen, drop_app_length. }
      assert (take size (c :: s') = pre) as Htake.
      { by rewrite Hsplit, <- Hlen, take_app_length. }
      rewrite Hdrop, ?Htake in *.
      destruct fuel; [simpl in Hfuel; lia|].
      destruct ((r =? 0x2028) || (r =? 0x2029)) eqn:Hsep.
      * rewrite <- app_assoc, <- app_comm_cons.
        rewrite string_lit_separator by lia.
        rewrite IH; [|done|].
        -- cbn [prepend]. by rewrite Henc, Hsplit.
        -- rewrite length_app in Hfuel. simpl in Hfuel. lia.
      * rewrite <- app_assoc.
        rewrite (string_lit_rune pre _ r size); [|..|done|done].
        -- rewrite IH; [|done|].
           ++ cbn [prepend]. by rewrite Hsplit.
           ++ rewrite length_app in Hfuel. lia.
        -- destruct pre as [|c' pre']; [simpl in Hlen; lia|].
           injection Hsplit as <- _. by exists c, pre'.
        -- apply Hpre.
Qed.

(** * encoding/json: objects *)

Lemma string_lit_encode_string (v : string) (rest : list ascii) :
  utf8.ValidString v = true →
  ∃ body, json.encode_string v ++ rest = dquote :: body
          ∧ json.string_lit (length body) body = Some (bytes_of_string v, rest).
Proof.
  intros Hvalid. unfold json.encode_string, utf8.ValidString in *.
  eexists. split.
  { rewrite <- app_comm_cons, <- app_assoc. reflexivity. }
  apply string_lit_string_loop; [done|].
  rewrite length_app. simpl. lia.
Qed.

Lemma skip_space_dquote (t : list ascii) :
  json.skip_space (dquote :: t) = dquote :: t.
Proof. reflexivity. Qed.

(** One member written by [encode_members], then what follows it. *)
Lemma object_member (kstr v : string) (k : Z) (tail : list ascii)
    (m : gmap Z string) (saved : option error) (fuel : nat) :
  utf8.ValidString kstr = true → utf8.ValidString v = true →
  strconv.ParseInt kstr = Some k →
  json.object (S fuel)
    (json.encode_string kstr ++ ":"%char :: json.encode_string v ++ tail) m saved
  = match json.skip_space tail with
    | c3 :: t3 =>
        if Ascii.eqb c3 ","%char
        then json.object fuel (json.skip_space t3) (<[k := v]> m) saved
        else if Ascii.eqb c3 "}"%char then Some (<[k := v]> m, saved, t3)
        else None
    | [] => None
    end.
Proof.
  intros Hk Hv Hparse.
  destruct (string_lit_encode_string kstr
              (":"%char :: json.encode_string v ++ tail) Hk)
    as (body & -> & Hlit).
  destruct (string_lit_encode_string v tail Hv) as (body' & Heq' & Hlit').
  cbn [json.object]. change (Ascii.eqb dquote dquote) with true. cbn iota.
  rewrite Hlit. cbn [json.skip_space].
  change (json.isSpace ":") with false. cbn iota.
  change (Ascii.eqb ":" ":") with true. cbn iota.
  rewrite Heq', skip_space_dquote. cbn [json.string_elem].
  change (Ascii.eqb dquote dquote) with true. cbn iota.
  rewrite Hlit'. cbn [fmap option_fmap option_map fst snd].
  rewrite !string_of_bytes_of_string, Hparse. reflexivity.
Qed.

Lemma valid_from_ascii (s : list ascii) :
  ∀ n, Forall (λ c, code c < 0x80) s → (length s ≤ n)%nat →
       utf8.valid_from n s = true.
Proof.
  induction s as [|c s IH]; intros n Hall Hn.
  - by destruct n.
  - destruct n as [|n]; [simpl in Hn; lia|].
    apply Forall_cons in Hall as [Hc Hall]. pose proof (code_range c).
    cbn [utf8.valid_from].
    assert (utf8.DecodeRune (c :: s) = (code c, 1%nat)) as ->.
    { unfold utf8.DecodeRune, utf8.first. by split_tests. }
    unfold utf8.RuneError. destruct (Z.eqb_spec (code c) 0xFFFD); [lia|].
    cbn [andb drop]. apply IH; [done | simpl in Hn; lia].
Qed.

Lemma format_digits_ascii (fuel : nat) :
  ∀ u acc, 0 ≤ u → Forall (λ c, code c < 0x80) acc →
           Forall (λ c, code c < 0x80) (strconv.format_digits fuel u acc).
Proof.
  induction fuel as [|fuel IH]; intros u acc Hu Hacc; [done|].
  cbn [strconv.format_digits]. destruct (Z.ltb_spec u 10).
  - constructor; [|done]. rewrite code_digit by lia. lia.
  - apply IH; [Z.div_mod_to_equations; lia|]. constructor; [|done].
    pose proof (Z.mod_pos_bound u 10 eq_refl). rewrite code_digit by lia. lia.
Qed.

Lemma ValidString_FormatInt (i : Z) : utf8.ValidString (strconv.FormatInt i) = true.
Proof.
  unfold utf8.ValidString. rewrite <- length_bytes_of_string.
  apply valid_from_ascii; [|done].
  unfold strconv.FormatInt. rewrite bytes_of_string_of_bytes.
  destruct (Z.ltb_spec i 0).
  - constructor; [by vm_compute|]. apply format_digits_ascii; [lia | constructor].
  - apply format_digits_ascii; [lia | constructor].
Qed.

Lemma skip_space_encode_string (s : string) (t : list ascii) :
  json.skip_space (json.encode_string s ++ t) = json.encode_string s ++ t.
Proof. reflexivity. Qed.

Lemma object_encode_members (l : list (Z * string)) :
  ∀ k v i m fuel rest,
    int64 k → utf8.ValidString v = true →
    Forall (λ kv, int64 kv.1 ∧ utf8.ValidString kv.2 = true) l →
    (length l < fuel)%nat →
    json.object fuel
      (json.encode_string (strconv.FormatInt k) ++ ":"%char ::
       json.encode_string v
       ++ json.encode_members (S i) (entry_strings <$> l) ++ "}"%char :: rest)
      m None
    = Some (insert_all (<[k := v]> m) l, None, rest).
Proof.
  induction l as [|[k2 v2] l IH]; intros k v i m fuel rest Hk Hv Hall Hfuel.
  - destruct fuel; [simpl in Hfuel; lia|].
    rewrite (object_member _ _ k) by auto using ValidString_FormatInt, ParseInt_FormatInt.
    reflexivity.
  - destruct fuel; [simpl in Hfuel; lia|].
    apply Forall_cons in Hall as [[Hk2 Hv2] Hall].
    rewrite (object_member _ _ k) by auto using ValidString_FormatInt, ParseInt_FormatInt.
    cbn [fmap list_fmap json.encode_members entry_strings fst snd].
    change (0 <? S i)%nat with true. cbn iota. cbn [app json.skip_space].
    change (json.isSpace ",") with false. cbn iota.
    change (Ascii.eqb "," ",") with true. cbn iota.
    rewrite <- !app_assoc, <- app_comm_cons, <- !app_assoc.
    rewrite skip_space_encode_string.
    rewrite (IH k2 v2 (S i)); [done | done | done | done |].
    simpl in Hfuel. lia.
Qed.

Lemma insert_all_list_to_map (l : list (Z * string)) :
  insert_all ∅ l = list_to_map (reverse l).
Proof.
  unfold insert_all. induction l as [|[k v] l IH] using rev_ind; [done|].
  by rewrite foldl_app, reverse_app, IH.
Qed.

Lemma insert_all_map_to_list (m : gmap Z string) (l : list (Z * string)) :
  l ≡ₚ map_to_list m → insert_all ∅ l = m.
Proof.
  intros Hperm. rewrite insert_all_list_to_map. symmetry.
  apply list_to_map_flip. by rewrite reverse_Permutation.
Qed.

Lemma length_encode_members (sv : list (string * string)) :
  ∀ i, (length sv ≤ length (json.encode_members i sv))%nat.
Proof.
  induction sv as [|kv sv IH]; intros i; [done|].
  cbn [json.encode_members]. rewrite !length_app. cbn [length].
  rewrite length_app. specialize (IH (S i)). lia.
Qed.

(** [Unmarshal] reads what [Marshal] wrote: the same map and no error, for
    a map of [int64] keys and tokens that are valid UTF-8. *)
Theorem Unmarshal_Marshal (m : gmap Z string) :
  map_Forall (λ k v, int64 k ∧ utf8.ValidString v = true) m →
  json.Unmarshal (json.Marshal m).1 = (m, None).
Proof.
  intros Hm. unfold json.Marshal. cbn [fst].
  set (sv := merge_sort json.key_le _).
  assert (∃ l, sv = entry_strings <$> l ∧ l ≡ₚ map_to_list m) as (l & -> & Hperm).
  { assert (sv ≡ₚ entry_strings <$> map_to_list m) as Hsv
      by apply merge_sort_Permutation.
    apply Permutation_map_inv in Hsv as (l & -> & Hl). by exists l. }
  assert (Forall (λ kv, int64 kv.1 ∧ utf8.ValidString kv.2 = true) l) as Hall.
  { rewrite Hperm. apply Forall_forall. intros [k v] Hin.
    apply elem_of_map_to_list in Hin. by apply (Hm k v). }
  rewrite <- (insert_all_map_to_list m l Hperm).
  unfold json.Unmarshal. cbn [json.skip_space].
  change (json.isSpace "{") with false. cbn iota.
  destruct l as [|[k v] l]; [reflexivity|].
  apply Forall_cons in Hall as [[Hk Hv] Hall].
  cbn [json.top_value]. change (Ascii.eqb "{" "{") with true. cbn iota.
  cbn [fmap list_fmap json.encode_members entry_strings fst snd].
  change (0 <? 0)%nat with false. cbn iota. cbn [app].
  repeat (rewrite <- app_assoc || rewrite <- app_comm_cons).
  rewrite skip_space_encode_string.
  pose proof (length_encode_members (entry_strings <$> l) 1) as Hlen.
  rewrite length_fmap in Hlen.
  pose proof (object_encode_members l k v 0 ∅
                (length (json.encode_string (strconv.FormatInt k) ++ ":"%char ::
                         json.encode_string v
                         ++ json.encode_members 1 (entry_strings <$> l) ++ ["}"%char]))
                [] Hk Hv Hall) as Hobj.
  destruct (string_lit_encode_string (strconv.FormatInt k)
              (":"%char :: json.encode_string v
               ++ json.encode_members 1 (entry_strings <$> l) ++ ["}"%char])
              (ValidString_FormatInt k)) as (body & Heq & _).
  rewrite Heq in *. change (Ascii.eqb dquote "}") with false. cbn iota.
  rewrite Hobj; [reflexivity|].
  rewrite <- Heq, !length_app. cbn [length]. rewrite !length_app. lia.
Qed.

(** * The fuel of the scanners *)

Lemma DecodeRune_size (c : ascii) (p : list ascii) :
  (1 ≤ (utf8.DecodeRune (c :: p)).2)%nat.
Proof.
  unfold utf8.DecodeRune, utf8.first, utf8.not_continuation.
  destruct p as [|c1 [|c2 [|c3 p]]]; split_tests; cbn; lia.
Qed.

Ltac fuel_bound :=
  repeat match goal with
         | H : utf8.DecodeRune (?c :: ?p) = (_, ?size) |- _ =>
             lazymatch goal with
             | _ : (1 ≤ size)%nat |- _ => fail
             | _ => let Hs := fresh in
                    pose proof (DecodeRune_size c p) as Hs;
                    rewrite H in Hs; cbn [snd] in Hs
             end
         end;
  cbn [length] in *; rewrite ?length_drop in *; cbn [length] in *; lia.

Lemma string_lit_nil (fuel : nat) : json.string_lit fuel [] = None.
Proof. by destruct fuel. Qed.

(** More fuel than the input has bytes changes nothing. *)
Lemma string_lit_fuel_eq (n : nat) :
  ∀ s f f', (length s ≤ n)%nat → (length s ≤ f)%nat → (length s ≤ f')%nat →
            json.string_lit f s = json.string_lit f' s.
Proof.
  induction n as [|n IH]; intros s f f' Hn Hf Hf'.
  - destruct s; [|simpl in Hn; lia]. by rewrite !string_lit_nil.
  - destruct s as [|c s']; [by rewrite !string_lit_nil|].
    destruct f as [|f]; [simpl in Hf; lia|].
    destruct f' as [|f']; [simpl in Hf'; lia|].
    cbn [json.string_lit].
    repeat match goal with
           | |- context [json.string_lit f ?X] =>
               rewrite (IH X f f') by fuel_bound
           | |- context [match ?x with _ => _ end] =>
               lazymatch x with
               | context [json.string_lit] => fail
               | _ => destruct x eqn:?
               end
           end; reflexivity.
Qed.

Lemma string_lit_fuel (s : list ascii) (fuel : nat) :
  (length s ≤ fuel)%nat → json.string_lit fuel s = json.string_lit (length s) s.
Proof. intros. by apply (string_lit_fuel_eq (length s)). Qed.

Lemma skip_space_length (s : list ascii) :
  (length (json.skip_space s) ≤ length s)%nat.
Proof.
  induction s as [|c s IH]; [done|]. cbn [json.skip_space].
  destruct (json.isSpace c); cbn [length]; lia.
Qed.

Lemma skip_digits_length (s : list ascii) :
  (length (json.skip_digits s) ≤ length s)%nat.
Proof.
  induction s as [|c s IH]; [done|]. cbn [json.skip_digits].
  destruct (strconv.is_digit c); cbn [length]; lia.
Qed.

Lemma string_lit_shorter (f : nat) :
  ∀ s u t, json.string_lit f s = Some (u, t) → (length t < length s)%nat.
Proof.
  induction f as [|f IH]; intros s u t H; [by destruct s|].
  destruct s as [|c s']; [done|]. cbn [json.string_lit] in H.
  repeat match type of H with
         | context [json.string_lit f ?X] =>
             let Hrec := fresh "Hrec" in
             destruct (json.string_lit f X) as [[? ?]|] eqn:Hrec;
             [apply IH in Hrec|]
         | context [match ?x with _ => _ end] => destruct x eqn:?
         end; try discriminate; injection H as <- <-; fuel_bound.
Qed.

(** Case analysis on the tests of a hypothesis, the innermost first. *)
Ltac split_matches H :=
  repeat match type of H with
         | context [match ?x with _ => _ end] =>
             lazymatch x with
             | context [match _ with _ => _ end] => fail
             | context [json.number_exp] => fail
             | context [json.number_frac] => fail
             | _ => destruct x eqn:?
             end
         end.

Ltac digits_bound :=
  repeat match goal with
         | H : context [json.skip_digits ?a] |- _ =>
             pose proof (skip_digits_length a);
             generalize dependent (json.skip_digits a); intros
         | |- context [json.skip_digits ?a] =>
             pose proof (skip_digits_length a);
             generalize dependent (json.skip_digits a); intros
         end;
  simplify_eq; cbn [length] in *; lia.

Lemma number_exp_length (s t : list ascii) :
  json.number_exp s = Some t → (length t ≤ length s)%nat.
Proof.
  unfold json.number_exp. intros H. split_matches H;
    try discriminate; injection H as <-; digits_bound.
Qed.

Lemma number_frac_length (s t : list ascii) :
  json.number_frac s = Some t → (length t ≤ length s)%nat.
Proof.
  unfold json.number_frac. intros H. split_matches H;
    try discriminate;
    first [apply number_exp_length in H | injection H as <-]; digits_bound.
Qed.

Lemma number_shorter (s t : list ascii) :
  json.number s = Some t → (length t < length s)%nat.
Proof.
  unfold json.number. intros H. split_matches H;
    try discriminate;
    first [apply number_frac_length in H | injection H as <-]; digits_bound.
Qed.

Lemma literal_length (lit : list ascii) :
  ∀ s t, json.literal lit s = Some t → length s = (length lit + length t)%nat.
Proof.
  induction lit as [|l lit IH]; intros s t H; cbn [json.literal] in H.
  - by injection H as ->.
  - destruct s as [|c s]; [done|]. destruct (Ascii.eqb l c); [|done].
    apply IH in H. cbn [length]. lia.
Qed.

Ltac lengths :=
  repeat match goal with
         | H : json.skip_space ?a = _ |- _ =>
             lazymatch goal with
             | _ : (length (json.skip_space a) ≤ length a)%nat |- _ => fail
             | _ => pose proof (skip_space_length a)
             end
         end;
  repeat match goal with
         | H : json.skip_space ?a = _ |- _ => rewrite H in *; clear H
         end;
  repeat match goal with
         | H : json.string_lit _ _ = Some _ |- _ => apply string_lit_shorter in H
         | H : json.number _ = Some _ |- _ => apply number_shorter in H
         | H : json.literal _ _ = Some _ |- _ => apply literal_length in H
         end;
  cbn [length bytes_of_string list_ascii_of_string] in *; lia.

Lemma scan_fuel (f : nat) :
  fuel_ok json.value f ∧ fuel_ok json.members f ∧ fuel_ok json.elements f.
Proof.
  induction f as [|f (IHv & IHm & IHe)];
    [split; [|split]; intros s t H; by destruct s|].
  split; [|split]; intros s t H.
  - destruct s as [|c s']; [done|]. cbn [json.value] in H.
    destruct (Ascii.eqb c "{") eqn:Hobj.
    { destruct (json.skip_space s') as [|c' t0] eqn:Hskip; [done|].
      destruct (Ascii.eqb c' "}") eqn:Hclose.
      - injection H as <-. split; [lengths|].
        intros [|f'] Hf'; [lengths|]. cbn [json.value].
        by rewrite Hobj, Hskip, Hclose.
      - apply IHm in H as [Hlt Hfuel]. split; [lengths|].
        intros [|f'] Hf'; [lengths|]. cbn [json.value].
        rewrite Hobj, Hskip, Hclose. apply Hfuel. lengths. }
    destruct (Ascii.eqb c "[") eqn:Harr.
    { destruct (json.skip_space s') as [|c' t0] eqn:Hskip; [done|].
      destruct (Ascii.eqb c' "]") eqn:Hclose.
      - injection H as <-. split; [lengths|].
        intros [|f'] Hf'; [lengths|]. cbn [json.value].
        by rewrite Hobj, Harr, Hskip, Hclose.
      - apply IHe in H as [Hlt Hfuel]. split; [lengths|].
        intros [|f'] Hf'; [lengths|]. cbn [json.value].
        rewrite Hobj, Harr, Hskip, Hclose. apply Hfuel. lengths. }
    assert (Hrest : ∀ f', json.value (S f') (c :: s') = json.value (S f) (c :: s')).
    { intros f'. cbn [json.value]. by rewrite Hobj, Harr. }
    assert (Hshort : (length t < length (c :: s'))%nat).
    { destruct (Ascii.eqb c dquote).
      { destruct (json.string_lit (length s') s') as [[u t']|] eqn:Hlit; [|done].
        injection H as <-. lengths. }
      destruct (Ascii.eqb c "-" || strconv.is_digit c); [lengths|].
      repeat (destruct (Ascii.eqb c _); [lengths|]). done. }
    split; [done|]. intros [|f'] Hf'; [lengths|].
    rewrite Hrest. cbn [json.value]. by rewrite Hobj, Harr.
  - destruct s as [|c s']; [done|]. cbn [json.members] in H.
    destruct (Ascii.eqb c dquote) eqn:Hq; [|done].
    destruct (json.string_lit (length s') s') as [[u t0]|] eqn:Hlit; [|done].
    destruct (json.skip_space t0) as [|c1 t1] eqn:Hs0; [done|].
    destruct (Ascii.eqb c1 ":") eqn:Hcolon; [|done].
    destruct (json.value f (json.skip_space t1)) as [t2|] eqn:Hval; [|done].
    destruct (json.skip_space t2) as [|c3 t3] eqn:Hs2; [done|].
    apply IHv in Hval as [Hv1 Hv2].
    pose proof (skip_space_length t1) as Hs1.
    destruct (Ascii.eqb c3 ",") eqn:Hcomma.
    + apply IHm in H as [Hlt Hfuel].
      pose proof (skip_space_length t3) as Hs3.
      pose proof (string_lit_shorter _ _ _ _ Hlit) as Hl.
      split; [lengths|].
      intros [|f'] Hf'; [lengths|]. cbn [json.members].
      rewrite Hq, Hlit, Hs0, Hcolon, Hv2 by lengths.
      rewrite Hs2, Hcomma. apply Hfuel. lengths.
    + destruct (Ascii.eqb c3 "}") eqn:Hclose; [|done]. injection H as <-.
      pose proof (string_lit_shorter _ _ _ _ Hlit) as Hl.
      split; [lengths|].
      intros [|f'] Hf'; [lengths|]. cbn [json.members].
      rewrite Hq, Hlit, Hs0, Hcolon, Hv2 by lengths.
      by rewrite Hs2, Hcomma, Hclose.
  - cbn [json.elements] in H.
    destruct (json.value f s) as [t1|] eqn:Hval; [|done].
    destruct (json.skip_space t1) as [|c1 t2] eqn:Hs1; [done|].
    apply IHv in Hval as [Hv1 Hv2].
    destruct (Ascii.eqb c1 ",") eqn:Hcomma.
    + apply IHe in H as [Hlt Hfuel].
      pose proof (skip_space_length t2) as Hs2.
      split; [lengths|].
      intros [|f'] Hf'; [lengths|]. cbn [json.elements].
      rewrite Hv2 by lengths. rewrite Hs1, Hcomma. apply Hfuel. lengths.
    + destruct (Ascii.eqb c1 "]") eqn:Hclose; [|done]. injection H as <-.
      split; [lengths|].
      intros [|f'] Hf'; [lengths|]. cbn [json.elements].
      rewrite Hv2 by lengths. by rewrite Hs1, Hcomma, Hclose.
Qed.

(** The fuel [Unmarshal] gives the scanner, the length of its input, is
    enough: more fuel gives the same result. *)
Lemma value_fuel (s : list ascii) (fuel : nat) :
  (length s ≤ fuel)%nat → json.value fuel s = json.value (length s) s.
Proof.
  intros Hfuel.
  destruct (json.value fuel s) as [t|] eqn:H1.
  - apply (proj1 (scan_fuel fuel)) in H1 as [Hlt H1]. symmetry. apply H1. lia.
  - destruct (json.value (length s) s) as [t|] eqn:H2; [|done].
    apply (proj1 (scan_fuel (length s))) in H2 as [Hlt H2].
    rewrite H2 in H1 by lia. done.
Qed.

Lemma string_elem_fuel (f : nat) (s : list ascii) (elem : string)
    (mismatch : bool) (t : list ascii) :
  json.string_elem f s = Some (elem, mismatch, t) →
  (length t < length s)%nat
  ∧ ∀ f', (length s - length t ≤ f')%nat →
          json.string_elem f' s = Some (elem, mismatch, t).
Proof.
  unfold json.string_elem. destruct s as [|c s']; [done|].
  destruct (Ascii.eqb c dquote).
  { destruct (json.string_lit (length s') s') as [[u t']|] eqn:Hlit; [|done].
    intros [= <- <- <-]. split; [lengths | done]. }
  destruct (Ascii.eqb c "n").
  { destruct (json.literal _ _) as [t'|] eqn:Hlit; [|done].
    intros [= <- <- <-]. split; [lengths | done]. }
  destruct (json.value f (c :: s')) as [t'|] eqn:Hval; [|done].
  intros [= <- <- <-]. apply (proj1 (scan_fuel f)) in Hval as [Hlt Hval].
  split; [done|]. intros f' Hf'. by rewrite Hval.
Qed.

Lemma object_fuel_ok (f : nat) :
  ∀ s m saved m' saved' t,
    json.object f s m saved = Some (m', saved', t) →
    (length t < length s)%nat
    ∧ ∀ f', (length s - length t ≤ f')%nat →
            json.object f' s m saved = Some (m', saved', t).
Proof.
  induction f as [|f IH]; intros s m saved m' saved' t H; [by destruct s|].
  destruct s as [|c s']; [done|]. cbn [json.object] in H.
  destruct (Ascii.eqb c dquote) eqn:Hq; [|done].
  destruct (json.string_lit (length s') s') as [[key t0]|] eqn:Hlit; [|done].
  destruct (json.skip_space t0) as [|c1 t1] eqn:Hs0; [done|].
  destruct (Ascii.eqb c1 ":") eqn:Hcolon; [|done].
  destruct (json.string_elem f (json.skip_space t1)) as [[[elem mm] t2]|] eqn:Hel;
    [|done].
  apply string_elem_fuel in Hel as [He1 He2].
  pose proof (skip_space_length t1) as Hs1.
  pose proof (string_lit_shorter _ _ _ _ Hlit) as Hl.
  set (saved1 := if mm then json.saveError saved UnmarshalTypeError else saved) in *.
  destruct (match strconv.ParseInt (string_of_bytes key) with
            | Some k => (<[k := elem]> m, saved1)
            | None => (m, json.saveError saved1 UnmarshalTypeError)
            end) as [m1 saved2] eqn:Hstore.
  destruct (json.skip_space t2) as [|c3 t3] eqn:Hs2; [done|].
  destruct (Ascii.eqb c3 ",") eqn:Hcomma.
  - apply IH in H as [Hlt Hfuel].
    pose proof (skip_space_length t3) as Hs3.
    split; [lengths|].
    intros [|f'] Hf'; [lengths|]. cbn [json.object].
    rewrite Hq, Hlit, Hs0, Hcolon, He2 by lengths.
    fold saved1. rewrite Hstore, Hs2, Hcomma. apply Hfuel. lengths.
  - destruct (Ascii.eqb c3 "}") eqn:Hclose; [|done]. injection H as <- <- <-.
    split; [lengths|].
    intros [|f'] Hf'; [lengths|]. cbn [json.object].
    rewrite Hq, Hlit, Hs0, Hcolon, He2 by lengths.
    fold saved1. by rewrite Hstore, Hs2, Hcomma, Hclose.
Qed.

Lemma object_fuel (s : list ascii) (m : gmap Z string) (saved : option error)
    (fuel : nat) :
  (length s ≤ fuel)%nat →
  json.object fuel s m saved = json.object (length s) s m saved.
Proof.
  intros Hfuel.
  destruct (json.object fuel s m saved) as [[[m' saved'] t]|] eqn:H1.
  - apply object_fuel_ok in H1 as [Hlt H1]. symmetry. apply H1. lia.
  - destruct (json.object (length s) s m saved) as [[[m' saved'] t]|] eqn:H2;
      [|done].
    apply object_fuel_ok in H2 as [Hlt H2]. rewrite H2 in H1 by lia. done.
Qed.

Lemma valid_from_fuel_eq (n : nat) :
  ∀ s f f', (length s ≤ n)%nat → (length s ≤ f)%nat → (length s ≤ f')%nat →
            utf8.valid_from f s = utf8.valid_from f' s.
Proof.
  induction n as [|n IH]; intros s f f' Hn Hf Hf'.
  - destruct s; [|simpl in Hn; lia]. by destruct f, f'.
  - destruct s as [|c s']; [by destruct f, f'|].
    destruct f as [|f]; [simpl in Hf; lia|].
    destruct f' as [|f']; [simpl in Hf'; lia|].
    cbn [utf8.valid_from].
    destruct (utf8.DecodeRune (c :: s')) as [r size] eqn:Hdec.
    destruct ((r =? utf8.RuneError) && (size =? 1)%nat); [done|].
    apply IH; fuel_bound.
Qed.

Lemma string_loop_fuel_eq (n : nat) :
  ∀ s f f', (length s ≤ n)%nat → (length s ≤ f)%nat → (length s ≤ f')%nat →
            json.string_loop f s = json.string_loop f' s.
Proof.
  induction n as [|n IH]; intros s f f' Hn Hf Hf'.
  - destruct s; [|simpl in Hn; lia]. by destruct f, f'.
  - destruct s as [|c s']; [by destruct f, f'|].
    destruct f as [|f]; [simpl in Hf; lia|].
    destruct f' as [|f']; [simpl in Hf'; lia|].
    cbn [json.string_loop].
    destruct (code c <? utf8.RuneSelf).
    { rewrite (IH s' f f') by fuel_bound. done. }
    destruct (utf8.DecodeRune (c :: s')) as [r size] eqn:Hdec.
    rewrite (IH (drop size (c :: s')) f f') by fuel_bound. done.
Qed.

(** * The cursor codec *)

Lemma makeCursor_no_error (m : gmap Z string) : (makeCursor m).2 = None.
Proof. unfold makeCursor. by destruct (size m =? 0)%nat. Qed.

Lemma Encode_nonempty (c : ascii) (src : list ascii) : base64.Encode (c :: src) ≠ [].
Proof. by destruct src as [|? [|? ?]]. Qed.

(** [makeCursor] writes the empty string for the empty map and for no
    other. *)
Lemma makeCursor_empty_iff (m : gmap Z string) :
  (makeCursor m).1 = ""%string ↔ m = ∅.
Proof.
  unfold makeCursor. destruct (size m =? 0)%nat eqn:Hsize; simpl.
  - apply Nat.eqb_eq, map_size_empty_iff in Hsize. by split.
  - apply Nat.eqb_neq in Hsize. split.
    + unfold base64.EncodeToString.
      destruct (base64.Encode _) eqn:Henc; [|done].
      by apply Encode_nonempty in Henc.
    + intros ->. by rewrite map_size_empty in Hsize.
Qed.

Lemma DecodeString_EncodeToString (src : list ascii) :
  base64.DecodeString (base64.EncodeToString src) = (src, None).
Proof.
  unfold base64.DecodeString, base64.EncodeToString.
  by rewrite bytes_of_string_of_bytes, base64_decode_Encode.
Qed.

(** C2, as the code has it.  For a cursor map that is not empty, with
    [int64] keys and tokens that are valid UTF-8, [makeCursor] writes a
    string that is not empty and that [readCursor] decodes, without an error,
    to the same map.  (The empty map is written as the empty string, which
    [readCursor] does not decode: see [cursor_sentinels].) *)
Theorem cursor_round_trip (m : gmap Z string) :
  m ≠ ∅ →
  map_Forall (λ k v, int64 k ∧ utf8.ValidString v = true) m →
  ∃ s, makeCursor m = (s, None) ∧ s ≠ ""%string
       ∧ readCursor (Some s) = (m, None).
Proof.
  intros Hne Hm.
  exists (makeCursor m).1. split; [|split].
  - pose proof (makeCursor_no_error m) as He.
    destruct (makeCursor m) as [s e]. simpl in *. by subst e.
  - by rewrite makeCursor_empty_iff.
  - unfold makeCursor.
    destruct (size m =? 0)%nat eqn:Hsize.
    { apply Nat.eqb_eq, map_size_empty_iff in Hsize. done. }
    pose proof (Unmarshal_Marshal m Hm) as Hjson.
    destruct (json.Marshal m) as [encoded [e|]] eqn:Henc; [done|].
    cbn [fst] in *. unfold readCursor.
    by rewrite DecodeString_EncodeToString, Hjson.
Qed.

(** The round trip of the cursor that holds the token [tokA] of the
    upload 1. *)
Lemma cursor_round_trip_witness :
  (tokA_only ≠ ∅
   ∧ map_Forall (λ k v, int64 k ∧ utf8.ValidString v = true) tokA_only)
  ∧ ∃ s, makeCursor tokA_only = (s, None) ∧ s ≠ ""%string
         ∧ readCursor (Some s) = (tokA_only, None).
Proof.
  assert (H1 : tokA_only ≠ ∅) by (by apply insert_non_empty).
  assert (H2 : map_Forall (λ k v, int64 k ∧ utf8.ValidString v = true) tokA_only).
  { apply map_Forall_singleton. split; [unfold int64; lia | reflexivity]. }
  split; [by split|]. exact (cursor_round_trip tokA_only H1 H2).
Defined.

(** The round trip fails on the empty map, whose encoding [readCursor]
    rejects, and on a token that is no valid UTF-8, which [json.Marshal]
    replaces by [U+FFFD]. *)
Lemma cursor_round_trip_fails :
  (makeCursor ∅ = (""%string, None)
   ∧ readCursor (Some (makeCursor ∅).1) = (∅, Some SyntaxError))
  ∧ (makeCursor {[ 1 := bad_token ]} = ("eyIxIjoiXHVmZmZkIn0="%string, None)
     ∧ readCursor (Some "eyIxIjoiXHVmZmZkIn0="%string)
       = ({[ 1 := String (chr 0xEF) (String (chr 0xBF) (String (chr 0xBD) "")) ]},
          None)).
Proof. repeat split; vm_compute; reflexivity. Qed.

(** [Unmarshal] reports an error for every text whose value is neither an
    object nor [null]. *)
Lemma Unmarshal_accepts (data : list ascii) :
  (json.Unmarshal data).2 = None →
  begins_object data = true ∨ null_text data = true.
Proof.
  unfold json.Unmarshal, json.top_value, begins_object, null_text.
  destruct (json.skip_space data) as [|c s']; [done|].
  destruct (Ascii.eqb c "{"); [by left|].
  destruct (Ascii.eqb c "n").
  - destruct (json.literal _ _) as [t|]; [|done]. cbn.
    destruct (json.skip_space t); [by right | done].
  - destruct (json.value _ _) as [t|]; [|done]. cbn.
    by destruct (json.skip_space t).
Qed.

(** The token [bnVsbA==] is the base64 of the JSON text [null], which is no
    object; [readCursor] accepts it as the empty map. *)
Lemma readCursor_accepts_null :
  base64.DecodeString "bnVsbA==" = (bytes_of_string "null", None)
  ∧ begins_object (bytes_of_string "null") = false
  ∧ readCursor (Some "bnVsbA=="%string) = (∅, None).
Proof. repeat split. Qed.

(** [Unmarshal] goes on after a type error: here it has stored the entry
    of the key 1 when it reports the value of the key 2; [readCursor] returns
    the error alone.  The token is the base64 of an object whose second
    value is a number. *)
Example readCursor_drops_partial_map :
  (json.Unmarshal (base64.DecodeString "eyIxIjoiYSIsIjIiOjV9").1).1
  = {[ 1 := "a"%string; 2 := ""%string ]}
  ∧ readCursor (Some "eyIxIjoiYSIsIjIiOjV9"%string) = (∅, Some UnmarshalTypeError).
Proof. split; vm_compute; reflexivity. Qed.

(** C3, as the code has it.  [makeCursor] writes the empty string for the
    empty map, and [readCursor] reads an absent token as the empty map; the
    empty string given as a token is no JSON text, and [readCursor] fails on
    it with the syntax error of [json.Unmarshal]. *)
Theorem cursor_sentinels :
  makeCursor ∅ = (""%string, None)
  ∧ readCursor None = (∅, None)
  ∧ readCursor (Some ""%string) = (∅, Some SyntaxError).
Proof. repeat split. Qed.

(** The empty string is not read as the empty map. *)
Lemma readCursor_empty_string_fails :
  readCursor (Some ""%string) ≠ (∅, None).
Proof. by vm_compute. Qed.

(** * The requests and the calls they make *)

Section Runs.

Context {L R W : Type} (c : Client L R W) (r : lsifQueryResolver).


(** [Definitions] against the recording client: the result of the plain
    run, and one call per upload up to the first failing one. *)
Lemma Definitions_range_run (args : LSIFQueryPositionArgs) us :
  ∀ acc w log,
  ∃ calls,
    Definitions_range (recording c) r args us acc (w, log)
    = ((Definitions_range c r args us acc w).1,
       ((Definitions_range c r args us acc w).2, log ++ calls))
    ∧ match (Definitions_range c r args us acc w).1 with
      | (Some page, None) =>
          call_upload <$> calls = ID <$> us
          ∧ Forall no_err calls
          ∧ locations page = acc ++ concat (call_locations <$> calls)
      | (None, Some e) =>
          ∃ calls' cl, calls = calls' ++ [cl] ∧ call_err cl = Some e
            ∧ Forall no_err calls'
            ∧ call_upload <$> calls = take (length calls) (ID <$> us)
      | _ => False
      end.
Proof.
  induction us as [|u us IH]; intros acc w log; simpl.
  - exists []. rewrite !app_nil_r. auto.
  - destruct (client_Definitions c (position_opts r args u) w)
      as [[locs err] w'] eqn:E.
    destruct err as [e|]; simpl.
    + eexists [_]. split; [reflexivity|].
      exists [], (DefinitionsCall (position_opts r args u) locs (Some e)).
      repeat split; auto.
    + destruct (IH (acc ++ locs) w'
                  (log ++ [DefinitionsCall (position_opts r args u) locs None]))
        as (calls & Hrun & Hspec).
      exists (DefinitionsCall (position_opts r args u) locs None :: calls).
      split.
      { rewrite Hrun. by rewrite <- app_assoc. }
      destruct (Definitions_range c r args us (acc ++ locs) w')
        as [[[page|] [e|]] w'']; simpl in *; try done.
      * destruct Hspec as (? & ? & ?).
        repeat split; [by f_equal | by constructor |].
        by rewrite app_assoc.
      * destruct Hspec as (calls' & cl & -> & ? & ? & Hp).
        exists (DefinitionsCall (position_opts r args u) locs None :: calls'), cl.
        repeat split; [done | by constructor |]. simpl. by f_equal.
Qed.

Lemma references_opts_UploadID (args : LSIFPagedQueryPositionArgs) nextURLs u :
  ReferencesOpts.UploadID (references_opts r args nextURLs u) = ID u.
Proof.
  unfold references_opts. by destruct (First args), (nextURLs !! ID u).
Qed.

Lemma references_opts_Limit (args : LSIFPagedQueryPositionArgs) nextURLs u :
  ReferencesOpts.Limit (references_opts r args nextURLs u) = First args.
Proof.
  unfold references_opts. by destruct (First args), (nextURLs !! ID u).
Qed.

Lemma references_opts_Cursor (args : LSIFPagedQueryPositionArgs) nextURLs u :
  ReferencesOpts.Cursor (references_opts r args nextURLs u) = nextURLs !! ID u.
Proof.
  unfold references_opts. by destruct (First args), (nextURLs !! ID u).
Qed.

(** [References] against the recording client. *)
Lemma References_range_run (args : LSIFPagedQueryPositionArgs) nextURLs us :
  ∀ acc newCursors w log,
  ∃ calls,
    References_range (recording c) r args nextURLs us acc newCursors (w, log)
    = ((References_range c r args nextURLs us acc newCursors w).1,
       ((References_range c r args nextURLs us acc newCursors w).2, log ++ calls))
    ∧ Forall (λ cl, ∃ u locs nextURL err,
                cl = ReferencesCall (references_opts r args nextURLs u)
                       locs nextURL err ∧ u ∈ us) calls
    ∧ match (References_range c r args nextURLs us acc newCursors w).1 with
      | (Some page, None) =>
          call_upload <$> calls = ID <$> us
          ∧ Forall no_err calls
          ∧ locations page = acc ++ concat (call_locations <$> calls)
          ∧ makeCursor (record_cursors newCursors calls) = (endCursor page, None)
      | (None, Some e) =>
          ∃ calls' cl, calls = calls' ++ [cl] ∧ call_err cl = Some e
            ∧ Forall no_err calls'
            ∧ call_upload <$> calls = take (length calls) (ID <$> us)
      | _ => False
      end.
Proof.
  induction us as [|u us IH]; intros acc newCursors w log; simpl.
  - exists []. rewrite !app_nil_r. split; [|split; [constructor|]].
    + by destruct (makeCursor newCursors) as [s [e|]].
    + pose proof (makeCursor_no_error newCursors) as He.
      destruct (makeCursor newCursors) as [s [e|]] eqn:Hm; simpl in *; [done|].
      repeat split; [constructor | done].
  - destruct (client_References c (references_opts r args nextURLs u) w)
      as [[[locs next] err] w'] eqn:E.
    set (cl0 := ReferencesCall (references_opts r args nextURLs u) locs next err).
    assert (Hcl0 : ∃ u' locs' nextURL' err',
               cl0 = ReferencesCall (references_opts r args nextURLs u')
                       locs' nextURL' err' ∧ u' ∈ u :: us).
    { exists u, locs, next, err. split; [done | by left]. }
    destruct err as [e|]; simpl.
    + exists [cl0]. split; [reflexivity|].
      split; [constructor; [exact Hcl0 | constructor]|].
      exists [], cl0. repeat split; try reflexivity; [constructor|].
      simpl. by rewrite references_opts_UploadID.
    + destruct (IH (acc ++ locs)
                  (if negb (String.eqb next "") then <[ID u := next]> newCursors
                   else newCursors)
                  w' (log ++ [cl0]))
        as (calls & Hrun & Hopts & Hspec).
      exists (cl0 :: calls).
      split; [rewrite Hrun; by rewrite <- app_assoc|].
      split.
      { constructor; [done|]. eapply Forall_impl; [exact Hopts|].
        intros cl (u' & ? & ? & ? & -> & Hin). eexists u', _, _, _.
        split; [done | by right]. }
      destruct (References_range c r args nextURLs us (acc ++ locs) _ w')
        as [[[page|] [e|]] w'']; simpl in *; try done.
      * destruct Hspec as (? & ? & ? & ?).
        repeat split; [|by constructor | by rewrite app_assoc |].
        -- simpl. rewrite references_opts_UploadID. by f_equal.
        -- unfold record_cursors in *. simpl.
           by rewrite references_opts_UploadID.
      * destruct Hspec as (calls' & cl & -> & ? & ? & Hp).
        exists (cl0 :: calls'), cl.
        repeat split; [done | by constructor |].
        simpl. rewrite references_opts_UploadID. by f_equal.
Qed.


(** [Hover] against the recording client. *)
Lemma Hover_range_run (args : LSIFQueryPositionArgs) us :
  ∀ w log,
  ∃ calls,
    Hover_range (recording c) r args us (w, log)
    = ((Hover_range c r args us w).1, ((Hover_range c r args us w).2, log ++ calls))
    ∧ call_upload <$> calls = take (length calls) (ID <$> us)
    ∧ match (Hover_range c r args us w).1 with
      | (Some h, None) =>
          ∃ calls' opts, calls = calls' ++ [HoverCall opts (text h) (lspRange h) None]
            ∧ text h ≠ ""%string ∧ Forall no_text calls'
      | (None, None) => Forall no_text calls ∧ length calls = length us
      | (None, Some e) =>
          ∃ calls' cl, calls = calls' ++ [cl] ∧ call_err cl = Some e
            ∧ Forall no_text calls'
      | _ => False
      end.
Proof.
  induction us as [|u us IH]; intros w log; simpl.
  - exists []. rewrite !app_nil_r. auto.
  - destruct (client_Hover c (position_opts r args u) w)
      as [[[txt rng] err] w'] eqn:E.
    set (cl0 := HoverCall (position_opts r args u) txt rng err).
    destruct err as [e|]; simpl.
    + exists [cl0]. split; [reflexivity|]. split; [done|].
      exists [], cl0. repeat split; auto.
    + destruct (String.eqb txt "") eqn:Htxt; simpl.
      * apply String.eqb_eq in Htxt. subst txt.
        destruct (IH w' (log ++ [cl0])) as (calls & Hrun & Hpre & Hspec).
        exists (cl0 :: calls).
        split; [rewrite Hrun; by rewrite <- app_assoc|].
        split; [simpl; by f_equal|].
        destruct (Hover_range c r args us w') as [[[h|] [e|]] w''];
          simpl in *; try done.
        -- destruct Hspec as (calls' & opts & -> & ? & ?).
           exists (cl0 :: calls'), opts. repeat split; [done|]. by constructor.
        -- destruct Hspec as (calls' & cl & -> & ? & ?).
           exists (cl0 :: calls'), cl. repeat split; [done|]. by constructor.
        -- destruct Hspec as [? ?]. split; [by constructor | by f_equal].
      * apply String.eqb_neq in Htxt.
        exists [cl0]. split; [reflexivity|]. split; [done|].
        exists [], (position_opts r args u). by repeat split.
Qed.

End Runs.

Example first_page_AB :
  (References clientAB resolverAB first_page tt).1
  = (Some {| locations := ["A1"; "B1"]; endCursor := "eyIxIjoidG9rQSJ9" |}, None).
Proof. vm_compute. reflexivity. Qed.

(** * The fan-out of Definitions, References and Hover *)

(** C8. The result of [Definitions] is the concatenation of the location
    lists its backend calls returned, one call per upload in the order of the
    candidate list, every list kept whole and in its own order: nothing is
    dropped, merged or reordered across uploads. *)
Theorem Definitions_concatenates_in_upload_order
    {L R W : Type} (c : Client L R W) (r : lsifQueryResolver)
    (args : LSIFQueryPositionArgs) (w w' : W)
    (page : locationConnectionResolver L) (log : list (call L R)) :
  Definitions (recording c) r args (w, []) = (Some page, None, (w', log)) →
  Definitions c r args w = (Some page, None, w')
  ∧ call_upload <$> log = ID <$> uploads r
  ∧ Forall no_err log
  ∧ locations page = concat (call_locations <$> log).
Proof.
  unfold Definitions. intros Hrec.
  destruct (Definitions_range_run c r args (uploads r) [] w [])
    as (calls & Hrun & Hspec).
  rewrite Hrec in Hrun. simpl in Hrun.
  destruct (Definitions_range c r args (uploads r) [] w) as [[res err] w''].
  simpl in *. injection Hrun as <- <- <- ->. tauto.
Qed.

(** The ordering example of the specification: [A] returns [L1; L2] and
    [B] returns [L3]. *)
Lemma Definitions_concatenates_in_upload_order_witness :
  Definitions (recording clientAB) resolverAB position0 (tt, [])
  = (Some {| locations := ["L1"; "L2"; "L3"]; endCursor := "" |}, None,
     (tt, [ DefinitionsCall (position_opts resolverAB position0 uploadA)
              ["L1"; "L2"] None;
            DefinitionsCall (position_opts resolverAB position0 uploadB)
              ["L3"] None ]))
  ∧ (Definitions clientAB resolverAB position0 tt
     = (Some {| locations := ["L1"; "L2"; "L3"]; endCursor := "" |}, None, tt)
     ∧ [1; 2] = ID <$> uploads resolverAB
     ∧ Forall no_err
         [ DefinitionsCall (Range := Z) (position_opts resolverAB position0 uploadA)
             ["L1"; "L2"] None;
           DefinitionsCall (position_opts resolverAB position0 uploadB)
             ["L3"] None ]
     ∧ ["L1"; "L2"; "L3"] = concat [["L1"; "L2"]; ["L3"]]).
Proof.
  split; [reflexivity|].
  exact (Definitions_concatenates_in_upload_order clientAB resolverAB position0
           tt tt _ _ eq_refl).
Defined.

(** C5. When a backend call of [Definitions], [References] or [Hover]
    returns an error, the request returns that same error and no page or
    hover value: the locations collected from the uploads before it are
    dropped. *)
Theorem backend_error_fails_the_request
    {L R W : Type} (c : Client L R W) (r : lsifQueryResolver)
    (args : LSIFQueryPositionArgs) (pargs : LSIFPagedQueryPositionArgs) (w : W) :
  (∀ cl e, cl ∈ (Definitions (recording c) r args (w, [])).2.2 →
           call_err cl = Some e →
           (Definitions c r args w).1 = (None, Some e))
  ∧ (∀ cl e, cl ∈ (References (recording c) r pargs (w, [])).2.2 →
             call_err cl = Some e →
             (References c r pargs w).1 = (None, Some e))
  ∧ (∀ cl e, cl ∈ (Hover (recording c) r args (w, [])).2.2 →
             call_err cl = Some e →
             (Hover c r args w).1 = (None, Some e)).
Proof.
  assert (Hlast : ∀ (P : call L R → Prop) calls' (cl0 cl : call L R) e0 e,
             (∀ x, P x → call_err x = None) →
             Forall P calls' → call_err cl0 = Some e0 →
             cl ∈ calls' ++ [cl0] → call_err cl = Some e → e0 = e).
  { intros P calls' cl0 cl e0 e HP Hall H0 Hin He.
    apply elem_of_app in Hin as [Hin|Hin].
    - rewrite Forall_forall in Hall. apply Hall, HP in Hin. congruence.
    - apply list_elem_of_singleton in Hin. congruence. }
  assert (Hnone : ∀ (P : call L R → Prop) calls (cl : call L R) e,
             (∀ x, P x → call_err x = None) →
             Forall P calls → cl ∈ calls → call_err cl = Some e → False).
  { intros P calls cl e HP Hall Hin He.
    rewrite Forall_forall in Hall. apply Hall, HP in Hin. congruence. }
  split; [|split].
  - intros cl e. unfold Definitions.
    destruct (Definitions_range_run c r args (uploads r) [] w [])
      as (calls & -> & Hspec). simpl.
    destruct (Definitions_range c r args (uploads r) [] w)
      as [[[page|] [e0|]] w']; simpl in *; try done.
    + destruct Hspec as (_ & Hall & _). intros Hin He.
      destruct (Hnone no_err calls cl e (λ _ H, H) Hall Hin He).
    + destruct Hspec as (calls' & cl0 & -> & H0 & Hall & _). intros Hin He.
      by rewrite (Hlast no_err calls' cl0 cl e0 e (λ _ H, H) Hall H0 Hin He).
  - intros cl e. unfold References.
    destruct (readCursor (After pargs)) as [nextURLs [e1|]]; simpl.
    { intros Hin. by apply elem_of_nil in Hin. }
    destruct (References_range_run c r pargs nextURLs (uploads r) [] ∅ w [])
      as (calls & -> & _ & Hspec). simpl.
    destruct (References_range c r pargs nextURLs (uploads r) [] ∅ w)
      as [[[page|] [e0|]] w']; simpl in *; try done.
    + destruct Hspec as (_ & Hall & _). intros Hin He.
      destruct (Hnone no_err calls cl e (λ _ H, H) Hall Hin He).
    + destruct Hspec as (calls' & cl0 & -> & H0 & Hall & _). intros Hin He.
      by rewrite (Hlast no_err calls' cl0 cl e0 e (λ _ H, H) Hall H0 Hin He).
  - intros cl e. unfold Hover.
    destruct (Hover_range_run c r args (uploads r) w [])
      as (calls & -> & _ & Hspec). simpl.
    destruct (Hover_range c r args (uploads r) w)
      as [[[h|] [e0|]] w']; simpl in *; try done.
    + destruct Hspec as (calls' & opts & -> & _ & Hall). intros Hin He.
      apply elem_of_app in Hin as [Hin|Hin].
      * destruct (Hnone no_text calls' cl e (λ _ H, proj1 H) Hall Hin He).
      * apply list_elem_of_singleton in Hin. by subst cl.
    + destruct Hspec as (calls' & cl0 & -> & H0 & Hall). intros Hin He.
      by rewrite (Hlast no_text calls' cl0 cl e0 e (λ _ H, proj1 H) Hall H0 Hin He).
    + destruct Hspec as [Hall _]. intros Hin He.
      destruct (Hnone no_text calls cl e (λ _ H, proj1 H) Hall Hin He).
Qed.

(** A [References] page on which [A] succeeds and [B] fails: the error of
    [B] and no page, though [A] had returned a location. *)
Example References_with_B_down :
  References (recording clientB_down) resolverAB first_page (tt, [])
  = (None, Some (BackendError "unavailable"),
     (tt, [ ReferencesCall (references_opts resolverAB first_page ∅ uploadA)
              ["A1"] "tokA" None;
            ReferencesCall (references_opts resolverAB first_page ∅ uploadB)
              [] "" (Some (BackendError "unavailable")) ])).
Proof. reflexivity. Qed.

(** C7. [Hover] calls the backend for the uploads in the order of the
    candidate list and stops at the first call that returns a text: that text
    and its range are the result, and no later upload is called.  When every
    call returns the empty text, the result is no hover value and no error. *)
Theorem Hover_returns_first_text
    {L R W : Type} (c : Client L R W) (r : lsifQueryResolver)
    (args : LSIFQueryPositionArgs) (w : W) :
  call_upload <$> (Hover (recording c) r args (w, [])).2.2
  = take (length (Hover (recording c) r args (w, [])).2.2) (ID <$> uploads r)
  ∧ (Hover (recording c) r args (w, [])).1 = (Hover c r args w).1
  ∧ match (Hover c r args w).1 with
    | (Some h, None) =>
        ∃ calls' opts,
          (Hover (recording c) r args (w, [])).2.2
          = calls' ++ [HoverCall opts (text h) (lspRange h) None]
          ∧ text h ≠ ""%string ∧ Forall no_text calls'
    | (None, None) =>
        Forall no_text (Hover (recording c) r args (w, [])).2.2
        ∧ length (Hover (recording c) r args (w, [])).2.2 = length (uploads r)
    | (None, Some e) =>
        ∃ calls' cl,
          (Hover (recording c) r args (w, [])).2.2 = calls' ++ [cl]
          ∧ call_err cl = Some e ∧ Forall no_text calls'
    | (Some _, Some _) => False
    end
  ∧ (Forall no_text (Hover (recording c) r args (w, [])).2.2 →
     (Hover c r args w).1 = (None, None)).
Proof.
  unfold Hover.
  destruct (Hover_range_run c r args (uploads r) w [])
    as (calls & -> & Hpre & Hspec). simpl.
  split; [done|]. split; [done|]. split; [done|].
  intros Hall. rewrite Forall_forall in Hall.
  destruct (Hover_range c r args (uploads r) w) as [[[h|] [e|]] w'];
    simpl in *; try done.
  - destruct Hspec as (calls' & opts & -> & Hne & _).
    destruct (Hall (HoverCall opts (text h) (lspRange h) None)) as [_ Ht].
    { apply elem_of_app. right. by apply list_elem_of_singleton. }
    done.
  - destruct Hspec as (calls' & cl & -> & He & _).
    destruct (Hall cl) as [Hn _].
    { apply elem_of_app. right. by apply list_elem_of_singleton. }
    congruence.
Qed.

(** The two hover requests of the specification: [A] has no text and [B]
    has [doc]; then neither has a text. *)
Example Hover_AB :
  Hover (recording clientAB) resolverAB position0 (tt, [])
  = (Some {| text := "doc"; lspRange := 5 |}, None,
     (tt, [ HoverCall (position_opts resolverAB position0 uploadA) "" 0 None;
            HoverCall (position_opts resolverAB position0 uploadB) "doc" 5 None ])).
Proof. reflexivity. Qed.

Example Hover_AA :
  (Hover clientAB
     {| repoID := 7; commit := "deadbeef"; path := "main.go";
        uploads := [uploadA; uploadA] |} position0 tt).1
  = (None, None).
Proof. reflexivity. Qed.

(** C9. Every backend call of [References] carries the limit of the
    request as it was given: [args.First] when it is present, no limit when
    it is absent; the same for each upload.  And the calls are made: when the
    cursor of the request decodes, the backend is called for the candidate
    uploads in their order, one call each, until a call fails, so for every
    upload when a page is returned and for the first upload whenever there
    is one. *)
Theorem References_forwards_the_limit
    {L R W : Type} (c : Client L R W) (r : lsifQueryResolver)
    (args : LSIFPagedQueryPositionArgs) (w : W) :
  let out := References (recording c) r args (w, []) in
  Forall (λ cl, ∃ opts locs nextURL err,
            cl = ReferencesCall opts locs nextURL err
            ∧ ReferencesOpts.Limit opts = First args)
         out.2.2
  ∧ ∀ nextURLs, readCursor (After args) = (nextURLs, None) →
      call_upload <$> out.2.2 = take (length out.2.2) (ID <$> uploads r)
      ∧ (length out.2.2 = length (uploads r)
         ∨ ∃ cl e, last out.2.2 = Some cl ∧ call_err cl = Some e
                   ∧ out.1 = (None, Some e))
      ∧ (∀ page, out.1 = (Some page, None) →
                 call_upload <$> out.2.2 = ID <$> uploads r).
Proof.
  cbv zeta. unfold References. split.
  - destruct (readCursor (After args)) as [nextURLs [e|]]; simpl; [constructor|].
    destruct (References_range_run c r args nextURLs (uploads r) [] ∅ w [])
      as (calls & -> & Hopts & _). simpl.
    eapply Forall_impl; [exact Hopts|].
    intros cl (u & locs & nextURL & err & -> & _).
    eexists _, _, _, _. split; [reflexivity|]. apply references_opts_Limit.
  - intros nextURLs ->.
    destruct (References_range_run c r args nextURLs (uploads r) [] ∅ w [])
      as (calls & -> & _ & Hspec). cbn [fst snd app].
    destruct (References_range c r args nextURLs (uploads r) [] ∅ w).1
      as [[page|] [e|]]; try done.
    + destruct Hspec as (Hids & _).
      assert (Hlen : length calls = length (uploads r)).
      { by rewrite <- (length_fmap call_upload), Hids, length_fmap. }
      split; [|split; [by left|done]].
      rewrite Hids, Hlen, <- (length_fmap ID). by rewrite firstn_all.
    + destruct Hspec as (calls' & cl & -> & Hcl & _ & Hpre).
      split; [done|]. split; [|done].
      right. exists cl, e. by rewrite last_snoc.
Qed.

(** The first page of the exhaustion example: a call for [A] and a call
    for [B], each with the limit 50 of the request. *)
Lemma References_forwards_the_limit_witness :
  (readCursor (After first_page) = (∅, None)
   ∧ call_limit <$> (References (recording clientAB) resolverAB first_page
                       (tt, [])).2.2
     = [Some 50; Some 50])
  ∧ let out := References (recording clientAB) resolverAB first_page (tt, []) in
    Forall (λ cl, ∃ opts locs nextURL err,
              cl = ReferencesCall opts locs nextURL err
              ∧ ReferencesOpts.Limit opts = First first_page)
           out.2.2
    ∧ ∀ nextURLs, readCursor (After first_page) = (nextURLs, None) →
        call_upload <$> out.2.2
        = take (length out.2.2) (ID <$> uploads resolverAB)
        ∧ (length out.2.2 = length (uploads resolverAB)
           ∨ ∃ cl e, last out.2.2 = Some cl ∧ call_err cl = Some e
                     ∧ out.1 = (None, Some e))
        ∧ (∀ page, out.1 = (Some page, None) →
                   call_upload <$> out.2.2 = ID <$> uploads resolverAB).
Proof.
  split; [split; reflexivity|].
  exact (References_forwards_the_limit clientAB resolverAB first_page tt).
Defined.

(** * The cursors of References *)

Section Cursors.

Context {L R : Type}.

Lemma record_cursors_is_Some (calls : list (call L R)) :
  ∀ (m : gmap Z string) k,
    is_Some (record_cursors m calls !! k)
    ↔ is_Some (m !! k)
      ∨ ∃ cl, cl ∈ calls ∧ call_upload cl = k ∧ call_nextURL cl ≠ ""%string.
Proof.
  induction calls as [|cl0 calls IH]; intros m k; simpl.
  - split; [auto|]. intros [H|(cl & Hin & _)]; [done|].
    by apply elem_of_nil in Hin.
  - unfold record_cursors in *. simpl. rewrite IH. clear IH.
    destruct (String.eqb (call_nextURL cl0) "") eqn:Hnext; simpl.
    + apply String.eqb_eq in Hnext. split.
      * intros [H|(cl & Hin & Hk & Hne)]; [by left|].
        right. exists cl. split; [by right | done].
      * intros [H|(cl & Hin & Hk & Hne)]; [by left|].
        apply elem_of_cons in Hin as [->|Hin]; [congruence|].
        right. by exists cl.
    + apply String.eqb_neq in Hnext. split.
      * intros [H|(cl & Hin & Hk & Hne)].
        -- destruct (decide (call_upload cl0 = k)) as [<-|Hk].
           ++ right. exists cl0. split; [by left | done].
           ++ rewrite lookup_insert_ne in H by done. by left.
        -- right. exists cl. split; [by right | done].
      * intros [H|(cl & Hin & Hk & Hne)].
        -- left. destruct (decide (call_upload cl0 = k)) as [<-|Hk].
           ++ rewrite lookup_insert_eq. by eexists.
           ++ by rewrite lookup_insert_ne.
        -- apply elem_of_cons in Hin as [->|Hin].
           ++ left. rewrite Hk, lookup_insert_eq. by eexists.
           ++ right. by exists cl.
Qed.

Lemma record_cursors_lookup (calls : list (call L R)) :
  ∀ (m : gmap Z string) k tok,
    record_cursors m calls !! k = Some tok →
    m !! k = Some tok
    ∨ (tok ≠ ""%string
       ∧ ∃ cl, cl ∈ calls ∧ call_upload cl = k ∧ call_nextURL cl = tok).
Proof.
  induction calls as [|cl0 calls IH]; intros m k tok; simpl; [auto|].
  unfold record_cursors in *. simpl. intros H. apply IH in H. clear IH.
  destruct H as [H|(Hne & cl & Hin & Hk & Htok)].
  - destruct (String.eqb (call_nextURL cl0) "") eqn:Hnext; simpl in H; [auto|].
    apply String.eqb_neq in Hnext.
    destruct (decide (call_upload cl0 = k)) as [<-|Hk].
    + rewrite lookup_insert_eq in H. injection H as <-.
      right. split; [done|]. exists cl0. split; [by left | done].
    + rewrite lookup_insert_ne in H by done. auto.
  - right. split; [done|]. exists cl. split; [by right | done].
Qed.

End Cursors.

(** C6. On a page [References] returns, the outgoing cursor map holds the
    uploads whose backend call on this page returned a non-empty next-page
    token, each with such a token, and no other upload; the end cursor is the
    encoding of that map, and it is the empty string exactly when the map is
    empty. *)
Theorem References_end_cursor
    {L R W : Type} (c : Client L R W) (r : lsifQueryResolver)
    (args : LSIFPagedQueryPositionArgs) (w w' : W)
    (page : locationConnectionResolver L) (log : list (call L R)) :
  References (recording c) r args (w, []) = (Some page, None, (w', log)) →
  ∃ newCursors : gmap Z string,
    makeCursor newCursors = (endCursor page, None)
    ∧ (∀ k, is_Some (newCursors !! k)
            ↔ ∃ cl, cl ∈ log ∧ call_upload cl = k ∧ call_nextURL cl ≠ ""%string)
    ∧ (∀ k tok, newCursors !! k = Some tok →
                tok ≠ ""%string
                ∧ ∃ cl, cl ∈ log ∧ call_upload cl = k ∧ call_nextURL cl = tok)
    ∧ (endCursor page = ""%string ↔ newCursors = ∅).
Proof.
  unfold References. intros Hrec.
  destruct (readCursor (After args)) as [nextURLs [e|]]; [done|].
  destruct (References_range_run c r args nextURLs (uploads r) [] ∅ w [])
    as (calls & Hrun & _ & Hspec).
  rewrite Hrec in Hrun. simpl in Hrun.
  destruct (References_range c r args nextURLs (uploads r) [] ∅ w)
    as [[res err] w''].
  simpl in *. injection Hrun as <- <- <- <-.
  destruct Hspec as (_ & _ & _ & Hmake).
  exists (record_cursors ∅ log). split; [done|]. split; [|split].
  - intros k. rewrite record_cursors_is_Some, lookup_empty.
    split; [intros [[? ?]|?]; done | auto].
  - intros k tok H. apply record_cursors_lookup in H as [H|H]; [|done].
    by rewrite lookup_empty in H.
  - rewrite <- makeCursor_empty_iff. by rewrite Hmake.
Qed.

(** The first page of the exhaustion example: the outgoing cursor holds
    [A] alone. *)
Lemma References_end_cursor_witness :
  References (recording clientAB) resolverAB first_page (tt, [])
  = (Some {| locations := ["A1"; "B1"]; endCursor := "eyIxIjoidG9rQSJ9" |}, None,
     (tt, [ ReferencesCall (references_opts resolverAB first_page ∅ uploadA)
              ["A1"] "tokA" None;
            ReferencesCall (references_opts resolverAB first_page ∅ uploadB)
              ["B1"] "" None ]))
  ∧ ∃ newCursors : gmap Z string,
      makeCursor newCursors = ("eyIxIjoidG9rQSJ9"%string, None)
      ∧ (∀ k, is_Some (newCursors !! k)
              ↔ ∃ cl : call string Z,
                  cl ∈ [ ReferencesCall
                           (references_opts resolverAB first_page ∅ uploadA)
                           ["A1"] "tokA" None;
                         ReferencesCall
                           (references_opts resolverAB first_page ∅ uploadB)
                           ["B1"] "" None ]
                  ∧ call_upload cl = k ∧ call_nextURL cl ≠ ""%string)
      ∧ (∀ k tok, newCursors !! k = Some tok →
                  tok ≠ ""%string
                  ∧ ∃ cl : call string Z,
                      cl ∈ [ ReferencesCall
                               (references_opts resolverAB first_page ∅ uploadA)
                               ["A1"] "tokA" None;
                             ReferencesCall
                               (references_opts resolverAB first_page ∅ uploadB)
                               ["B1"] "" None ]
                      ∧ call_upload cl = k ∧ call_nextURL cl = tok)
      ∧ ("eyIxIjoidG9rQSJ9"%string = ""%string ↔ newCursors = ∅).
Proof.
  split; [vm_compute; reflexivity|].
  exact (References_end_cursor clientAB resolverAB first_page tt tt
           {| locations := ["A1"; "B1"]; endCursor := "eyIxIjoidG9rQSJ9" |} _
           eq_refl).
Defined.

(** A page [References] returns has called the backend once for every
    candidate upload, whatever the incoming cursor holds. *)
Lemma References_calls_every_upload
    {L R W : Type} (c : Client L R W) (r : lsifQueryResolver)
    (args : LSIFPagedQueryPositionArgs) (w : W) :
  (References (recording c) r args (w, [])).1 = (References c r args w).1
  ∧ ∀ page, (References c r args w).1 = (Some page, None) →
      call_upload <$> (References (recording c) r args (w, [])).2.2
      = ID <$> uploads r
      ∧ makeCursor (record_cursors ∅ (References (recording c) r args (w, [])).2.2)
        = (endCursor page, None).
Proof.
  unfold References.
  destruct (readCursor (After args)) as [nextURLs [e|]]; simpl; [done|].
  destruct (References_range_run c r args nextURLs (uploads r) [] ∅ w [])
    as (calls & -> & _ & Hspec). simpl.
  split; [done|]. intros page Hpage. rewrite Hpage in Hspec. tauto.
Qed.

(** Every backend call of a [References] request carries the limit of the
    request and the token the incoming cursor has for its upload, or no
    cursor when it has none. *)
Lemma References_calls_carry_limit_and_cursor
    {L R W : Type} (c : Client L R W) (r : lsifQueryResolver)
    (args : LSIFPagedQueryPositionArgs) (w : W) (nextURLs : gmap Z string) :
  readCursor (After args) = (nextURLs, None) →
  Forall (λ cl, call_limit cl = First args
                ∧ call_cursor cl = nextURLs !! call_upload cl)
         (References (recording c) r args (w, [])).2.2.
Proof.
  intros Hread. unfold References. rewrite Hread.
  destruct (References_range_run c r args nextURLs (uploads r) [] ∅ w [])
    as (calls & -> & Hopts & _). simpl.
  eapply Forall_impl; [exact Hopts|].
  intros cl (u & locs & nextURL & err & -> & _). simpl.
  by rewrite references_opts_Limit, references_opts_Cursor,
    references_opts_UploadID.
Qed.

(** C1, as the code runs it.  The cursor of the second page decodes to the
    map with the one entry of [A]; the request calls the backend for [A] with
    that token and for [B] again, with no cursor, and the first page of [B]
    is returned a second time. *)
Theorem References_second_page_calls_exhausted_upload :
  readCursor (After second_page) = ({[ 1 := "tokA"%string ]}, None)
  ∧ References (recording clientAB) resolverAB second_page (tt, [])
    = (Some {| locations := ["A2"; "B1"]; endCursor := "" |}, None,
       (tt, [ ReferencesCall
                (ReferencesOpts.mk 7 "deadbeef" "main.go" 10 4 1 (Some 50)
                   (Some "tokA"%string))
                ["A2"] "" None;
              ReferencesCall
                (ReferencesOpts.mk 7 "deadbeef" "main.go" 10 4 2 (Some 50) None)
                ["B1"] "" None ])).
Proof. split; vm_compute; reflexivity. Qed.

Section CursorEntries.

Context {L R W : Type} (c : Client L R W) (r : lsifQueryResolver).

Lemma references_opts_ext (args args' : LSIFPagedQueryPositionArgs)
    (nextURLs nextURLs' : gmap Z string) (u : LSIFUpload) :
  Position args' = Position args → First args' = First args →
  nextURLs' !! ID u = nextURLs !! ID u →
  references_opts r args' nextURLs' u = references_opts r args nextURLs u.
Proof. unfold references_opts. by intros -> -> ->. Qed.

(** The loop reads the incoming cursor at the candidate uploads only. *)
Lemma References_range_ext (args args' : LSIFPagedQueryPositionArgs)
    (nextURLs nextURLs' : gmap Z string) (us : list LSIFUpload) :
  Position args' = Position args → First args' = First args →
  (∀ u, u ∈ us → nextURLs' !! ID u = nextURLs !! ID u) →
  ∀ acc newCursors w,
    References_range c r args' nextURLs' us acc newCursors w
    = References_range c r args nextURLs us acc newCursors w.
Proof.
  intros Hpos Hfirst. induction us as [|u us IH]; intros Hin acc nc w; simpl.
  - done.
  - rewrite (references_opts_ext args args' nextURLs nextURLs' u Hpos Hfirst)
      by (apply Hin; by left).
    destruct (client_References c _ w) as [[[locs next] [e|]] w']; [done|].
    apply IH. intros u' Hu'. apply Hin. by right.
Qed.

End CursorEntries.

(** C10. An entry of the decoded incoming cursor for an upload that is not
    a candidate is dropped: no backend call is made for it, the outgoing
    cursor map has keys among the candidate uploads only, and the request runs
    as it does for any cursor that agrees on the candidate uploads, so the
    entry neither fails it nor changes its result. *)
Theorem unknown_cursor_entries_are_dropped
    {L R W : Type} (c : Client L R W) (r : lsifQueryResolver)
    (args : LSIFPagedQueryPositionArgs) (w : W) (nextURLs : gmap Z string) :
  readCursor (After args) = (nextURLs, None) →
  Forall (λ cl, ∃ u, u ∈ uploads r ∧ call_upload cl = ID u)
         (References (recording c) r args (w, [])).2.2
  ∧ (∀ page, (References c r args w).1 = (Some page, None) →
       ∃ newCursors : gmap Z string,
         makeCursor newCursors = (endCursor page, None)
         ∧ ∀ k, is_Some (newCursors !! k) → ∃ u, u ∈ uploads r ∧ ID u = k)
  ∧ (∀ args' nextURLs',
       readCursor (After args') = (nextURLs', None) →
       Position args' = Position args → First args' = First args →
       (∀ u, u ∈ uploads r → nextURLs' !! ID u = nextURLs !! ID u) →
       References c r args' w = References c r args w).
Proof.
  intros Hread. split; [|split].
  - unfold References. rewrite Hread.
    destruct (References_range_run c r args nextURLs (uploads r) [] ∅ w [])
      as (calls & -> & Hopts & _). simpl.
    eapply Forall_impl; [exact Hopts|].
    intros cl (u & locs & nextURL & err & -> & Hin).
    exists u. split; [done|]. simpl. apply references_opts_UploadID.
  - intros page Hpage.
    destruct (References_calls_every_upload c r args w) as [_ Hall].
    destruct (Hall page Hpage) as [Hids Hmake].
    eexists. split; [exact Hmake|].
    intros k Hk. apply record_cursors_is_Some in Hk as [Hk|(cl & Hin & <- & _)].
    { rewrite lookup_empty in Hk. by destruct Hk. }
    assert (Hk : call_upload cl ∈ ID <$> uploads r).
    { rewrite <- Hids. by apply list_elem_of_fmap_2. }
    apply list_elem_of_fmap in Hk as (u & -> & Hu). by exists u.
  - intros args' nextURLs' Hread' Hpos Hfirst Hagree.
    unfold References. rewrite Hread, Hread'.
    by apply References_range_ext.
Qed.

(** The request with the entry of the upload 99 in its cursor runs as the
    request without it. *)
Lemma unknown_cursor_entries_are_dropped_witness :
  readCursor (After stale_page)
  = ({[ 1 := "tokA"%string; 99 := "gone"%string ]}, None)
  ∧ References clientAB resolverAB second_page tt
    = References clientAB resolverAB stale_page tt.
Proof.
  split; [vm_compute; reflexivity|].
  refine (proj2 (proj2 (unknown_cursor_entries_are_dropped clientAB resolverAB
                          stale_page tt _ _)) second_page {[ 1 := "tokA"%string ]}
                 _ _ _ _).
  - vm_compute; reflexivity.
  - vm_compute; reflexivity.
  - reflexivity.
  - reflexivity.
  - intros u Hu. apply elem_of_cons in Hu as [->|Hu]; [reflexivity|].
    apply list_elem_of_singleton in Hu as ->. reflexivity.
Defined.

(** * More on the three requests *)

(** [readCursor] decodes what [makeCursor] wrote for a map that is not
    empty. *)
Lemma readCursor_makeCursor (m : gmap Z string) :
  m ≠ ∅ →
  map_Forall (λ k v, int64 k ∧ utf8.ValidString v = true) m →
  readCursor (Some (makeCursor m).1) = (m, None).
Proof.
  intros Hne Hm. unfold makeCursor.
  destruct (size m =? 0)%nat eqn:Hsize.
  { apply Nat.eqb_eq, map_size_empty_iff in Hsize. done. }
  pose proof (Unmarshal_Marshal m Hm) as Hjson.
  destruct (json.Marshal m) as [encoded [e|]] eqn:Henc; [done|].
  cbn [fst] in *. unfold readCursor.
  by rewrite DecodeString_EncodeToString, Hjson.
Qed.

Lemma references_opts_eq (r : lsifQueryResolver)
    (args : LSIFPagedQueryPositionArgs) (nextURLs : gmap Z string)
    (u : LSIFUpload) :
  references_opts r args nextURLs u
  = ReferencesOpts.mk (repoID r) (commit r) (path r) (Line (Position args))
      (Character (Position args)) (ID u) (First args) (nextURLs !! ID u).
Proof.
  unfold references_opts. by destruct (First args), (nextURLs !! ID u).
Qed.

Section Logs.

Context {L R W : Type} (c : Client L R W) (r : lsifQueryResolver).

(** The log of the recording client grows by the calls of the request
    alone: what holds of the log before and of every call for a candidate
    upload holds of the log after. *)
Lemma Definitions_range_log (P : call L R → Prop)
    (args : LSIFQueryPositionArgs) (us : list LSIFUpload) :
  (∀ u locs err, u ∈ us →
     P (DefinitionsCall (position_opts r args u) locs err)) →
  ∀ acc w log, Forall P log →
    Forall P (Definitions_range (recording c) r args us acc (w, log)).2.2.
Proof.
  induction us as [|u us IH]; intros HP acc w log Hlog; simpl; [done|].
  destruct (client_Definitions c (position_opts r args u) w)
    as [[locs err] w'] eqn:E.
  assert (Forall P (log ++ [DefinitionsCall (position_opts r args u) locs err])).
  { apply Forall_app. split; [done|]. constructor; [|done]. apply HP. by left. }
  destruct err as [e|]; simpl; [done|].
  apply IH; [|done]. intros u' ? ? Hin. apply HP. by right.
Qed.

Lemma Hover_range_log (P : call L R → Prop)
    (args : LSIFQueryPositionArgs) (us : list LSIFUpload) :
  (∀ u txt rng err, u ∈ us →
     P (HoverCall (position_opts r args u) txt rng err)) →
  ∀ w log, Forall P log →
    Forall P (Hover_range (recording c) r args us (w, log)).2.2.
Proof.
  induction us as [|u us IH]; intros HP w log Hlog; simpl; [done|].
  destruct (client_Hover c (position_opts r args u) w)
    as [[[txt rng] err] w'] eqn:E.
  assert (Forall P (log ++ [HoverCall (position_opts r args u) txt rng err])).
  { apply Forall_app. split; [done|]. constructor; [|done]. apply HP. by left. }
  destruct err as [e|]; simpl; [done|].
  destruct (negb (String.eqb txt "")); simpl; [done|].
  apply IH; [|done]. intros u' ? ? ? Hin. apply HP. by right.
Qed.

End Logs.

(** X1. The page [References] returns holds the concatenation of the
    location lists its backend calls returned: one call per candidate upload,
    in the order of the candidate list and whatever the incoming cursor
    holds, every list whole and in its own order. *)
Theorem References_concatenates_in_upload_order
    {L R W : Type} (c : Client L R W) (r : lsifQueryResolver)
    (args : LSIFPagedQueryPositionArgs) (w w' : W)
    (page : locationConnectionResolver L) (log : list (call L R)) :
  References (recording c) r args (w, []) = (Some page, None, (w', log)) →
  References c r args w = (Some page, None, w')
  ∧ call_upload <$> log = ID <$> uploads r
  ∧ Forall no_err log
  ∧ locations page = concat (call_locations <$> log).
Proof.
  unfold References. intros Hrec.
  destruct (readCursor (After args)) as [nextURLs [e|]]; [done|].
  destruct (References_range_run c r args nextURLs (uploads r) [] ∅ w [])
    as (calls & Hrun & _ & Hspec).
  rewrite Hrec in Hrun. simpl in Hrun.
  destruct (References_range c r args nextURLs (uploads r) [] ∅ w)
    as [[res err] w''].
  simpl in *. injection Hrun as <- <- <- <-. tauto.
Qed.

Lemma References_concatenates_in_upload_order_witness :
  References (recording clientAB) resolverAB second_page (tt, [])
  = (Some {| locations := ["A2"; "B1"]; endCursor := "" |}, None,
     (tt, [ ReferencesCall
              (references_opts resolverAB second_page tokA_only uploadA)
              ["A2"] "" None;
            ReferencesCall
              (references_opts resolverAB second_page tokA_only uploadB)
              ["B1"] "" None ]))
  ∧ (References clientAB resolverAB second_page tt
     = (Some {| locations := ["A2"; "B1"]; endCursor := "" |}, None, tt)
     ∧ [1; 2] = ID <$> uploads resolverAB
     ∧ Forall no_err
         [ ReferencesCall (Range := Z)
             (references_opts resolverAB second_page tokA_only uploadA)
             ["A2"] "" None;
           ReferencesCall
             (references_opts resolverAB second_page tokA_only uploadB)
             ["B1"] "" None ]
     ∧ ["A2"; "B1"] = concat [["A2"]; ["B1"]]).
Proof.
  split; [vm_compute; reflexivity|].
  exact (References_concatenates_in_upload_order clientAB resolverAB second_page
           tt tt _ _ eq_refl).
Defined.

(** X2. Every backend call of [References] is made for a candidate
    upload with the repository, commit and path of the resolver, the position
    and the limit of the request, and as its cursor the token the decoded
    incoming cursor holds for that upload: no cursor when it holds none. *)
Theorem References_calls_carry_the_cursor_tokens
    {L R W : Type} (c : Client L R W) (r : lsifQueryResolver)
    (args : LSIFPagedQueryPositionArgs) (w : W) (nextURLs : gmap Z string) :
  readCursor (After args) = (nextURLs, None) →
  Forall (λ cl, ∃ u locs nextURL err,
            u ∈ uploads r
            ∧ cl = ReferencesCall
                     (ReferencesOpts.mk (repoID r) (commit r) (path r)
                        (Line (Position args)) (Character (Position args))
                        (ID u) (First args) (nextURLs !! ID u))
                     locs nextURL err)
         (References (recording c) r args (w, [])).2.2.
Proof.
  intros Hread. unfold References. rewrite Hread.
  destruct (References_range_run c r args nextURLs (uploads r) [] ∅ w [])
    as (calls & -> & Hopts & _). simpl.
  eapply Forall_impl; [exact Hopts|].
  intros cl (u & locs & nextURL & err & -> & Hin).
  exists u, locs, nextURL, err. by rewrite references_opts_eq.
Qed.

Lemma References_calls_carry_the_cursor_tokens_witness :
  readCursor (After second_page) = (tokA_only, None)
  ∧ Forall (λ cl : call string Z, ∃ u locs nextURL err,
              u ∈ uploads resolverAB
              ∧ cl = ReferencesCall
                       (ReferencesOpts.mk 7 "deadbeef" "main.go" 10 4
                          (ID u) (Some 50) (tokA_only !! ID u))
                       locs nextURL err)
           (References (recording clientAB) resolverAB second_page (tt, [])).2.2.
Proof.
  assert (H : readCursor (After second_page) = (tokA_only, None))
    by (vm_compute; reflexivity).
  split; [exact H|].
  exact (References_calls_carry_the_cursor_tokens clientAB resolverAB second_page
           tt tokA_only H).
Defined.

(** X3. Every backend call of [Definitions] and of [Hover] is made for a
    candidate upload with the repository, commit and path of the resolver and
    the line and character of the request: the calls of one request differ
    in the upload alone. *)
Theorem Definitions_and_Hover_calls_carry_the_position
    {L R W : Type} (c : Client L R W) (r : lsifQueryResolver)
    (args : LSIFQueryPositionArgs) (w : W) :
  Forall (λ cl, ∃ u locs err,
            u ∈ uploads r
            ∧ cl = DefinitionsCall
                     (PositionOpts.mk (repoID r) (commit r) (path r)
                        (Line args) (Character args) (ID u))
                     locs err)
         (Definitions (recording c) r args (w, [])).2.2
  ∧ Forall (λ cl, ∃ u txt rng err,
              u ∈ uploads r
              ∧ cl = HoverCall
                       (PositionOpts.mk (repoID r) (commit r) (path r)
                          (Line args) (Character args) (ID u))
                       txt rng err)
           (Hover (recording c) r args (w, [])).2.2.
Proof.
  split.
  - apply Definitions_range_log; [|constructor].
    intros u locs err Hin. by exists u, locs, err.
  - apply Hover_range_log; [|constructor].
    intros u txt rng err Hin. by exists u, txt, rng, err.
Qed.

(** X4. The end cursor of a page hands each upload its own token back.
    When a [References] page ends with a cursor that is not empty, the upload
    ids are [int64] and the tokens the backend returned are valid UTF-8, that
    end cursor decodes without an error, and every backend call of a request
    made with it as [After] carries the decoded token of its upload: a token
    that is not empty and that a call for this upload returned on the page
    before, or no cursor when every such call returned the empty token. *)
Theorem References_next_page_resumes_each_upload
    {L R W : Type} (c : Client L R W) (r : lsifQueryResolver)
    (args : LSIFPagedQueryPositionArgs) (w w' : W)
    (page : locationConnectionResolver L) (log : list (call L R)) :
  References (recording c) r args (w, []) = (Some page, None, (w', log)) →
  endCursor page ≠ ""%string →
  Forall (λ u, int64 (ID u)) (uploads r) →
  Forall (λ cl, utf8.ValidString (call_nextURL cl) = true) log →
  ∃ nextURLs : gmap Z string,
    readCursor (Some (endCursor page)) = (nextURLs, None)
    ∧ ∀ (r' : lsifQueryResolver) (args' : LSIFPagedQueryPositionArgs) (w2 : W),
        After args' = Some (endCursor page) →
        Forall (λ cl,
                  call_cursor cl = nextURLs !! call_upload cl
                  ∧ match call_cursor cl with
                    | Some tok =>
                        tok ≠ ""%string
                        ∧ ∃ cl0, cl0 ∈ log ∧ call_upload cl0 = call_upload cl
                                 ∧ call_nextURL cl0 = tok
                    | None =>
                        ∀ cl0, cl0 ∈ log → call_upload cl0 = call_upload cl →
                               call_nextURL cl0 = ""%string
                    end)
               (References (recording c) r' args' (w2, [])).2.2.
Proof.
  intros Hrec Hne Hids Htoks.
  assert (Hrun : call_upload <$> log = ID <$> uploads r
                 ∧ makeCursor (record_cursors ∅ log) = (endCursor page, None)).
  { revert Hrec. unfold References.
    destruct (readCursor (After args)) as [nextURLs [e|]]; [done|].
    destruct (References_range_run c r args nextURLs (uploads r) [] ∅ w [])
      as (calls & -> & _ & Hspec). simpl.
    destruct (References_range c r args nextURLs (uploads r) [] ∅ w)
      as [[res err] w'']. simpl in *.
    intros [= -> -> -> ->]. tauto. }
  destruct Hrun as [Hcalled Hmake].
  set (m := record_cursors ∅ log) in *.
  assert (Hm : m ≠ ∅).
  { intros Hm. apply makeCursor_empty_iff in Hm. rewrite Hmake in Hm. done. }
  assert (Hvalid : map_Forall (λ k v, int64 k ∧ utf8.ValidString v = true) m).
  { intros k tok Hk. apply record_cursors_lookup in Hk as [Hk|Hk].
    { by rewrite lookup_empty in Hk. }
    destruct Hk as (_ & cl & Hin & <- & <-). split.
    - assert (Hk : call_upload cl ∈ ID <$> uploads r).
      { rewrite <- Hcalled. by apply list_elem_of_fmap_2. }
      apply list_elem_of_fmap in Hk as (u & -> & Hu).
      rewrite Forall_forall in Hids. by apply Hids.
    - rewrite Forall_forall in Htoks. by apply Htoks. }
  pose proof (readCursor_makeCursor m Hm Hvalid) as Hread.
  rewrite Hmake in Hread. cbn [fst] in Hread.
  exists m. split; [done|].
  intros r' args' w2 Hafter. unfold References. rewrite Hafter, Hread.
  destruct (References_range_run c r' args' m (uploads r') [] ∅ w2 [])
    as (calls & -> & Hopts & _). simpl.
  eapply Forall_impl; [exact Hopts|].
  intros cl (u & locs & nextURL & err & -> & _). simpl.
  rewrite references_opts_Cursor, references_opts_UploadID.
  split; [done|].
  destruct (m !! ID u) as [tok|] eqn:Hk.
  - apply record_cursors_lookup in Hk as [Hk|Hk]; [|done].
    by rewrite lookup_empty in Hk.
  - intros cl0 Hin Hup.
    destruct (decide (call_nextURL cl0 = ""%string)) as [|Hnext]; [done|].
    assert (is_Some (m !! ID u)) as [? ?]; [|congruence].
    apply record_cursors_is_Some. right. by exists cl0.
Qed.

Lemma References_next_page_resumes_each_upload_witness :
  (References (recording clientAB) resolverAB first_page (tt, [])
   = (Some {| locations := ["A1"; "B1"]; endCursor := "eyIxIjoidG9rQSJ9" |}, None,
      (tt, [ ReferencesCall (references_opts resolverAB first_page ∅ uploadA)
               ["A1"] "tokA" None;
             ReferencesCall (references_opts resolverAB first_page ∅ uploadB)
               ["B1"] "" None ]))
   ∧ "eyIxIjoidG9rQSJ9"%string ≠ ""%string
   ∧ Forall (λ u, int64 (ID u)) (uploads resolverAB)
   ∧ Forall (λ cl : call string Z, utf8.ValidString (call_nextURL cl) = true)
       [ ReferencesCall (references_opts resolverAB first_page ∅ uploadA)
           ["A1"] "tokA" None;
         ReferencesCall (references_opts resolverAB first_page ∅ uploadB)
           ["B1"] "" None ])
  ∧ ∃ nextURLs : gmap Z string,
      readCursor (Some "eyIxIjoidG9rQSJ9"%string) = (nextURLs, None)
      ∧ ∀ (r' : lsifQueryResolver) (args' : LSIFPagedQueryPositionArgs) (w2 : unit),
          After args' = Some "eyIxIjoidG9rQSJ9"%string →
          Forall (λ cl : call string Z,
                    call_cursor cl = nextURLs !! call_upload cl
                    ∧ match call_cursor cl with
                      | Some tok =>
                          tok ≠ ""%string
                          ∧ ∃ cl0 : call string Z,
                              cl0 ∈ [ ReferencesCall
                                        (references_opts resolverAB first_page ∅ uploadA)
                                        ["A1"] "tokA" None;
                                      ReferencesCall
                                        (references_opts resolverAB first_page ∅ uploadB)
                                        ["B1"] "" None ]
                              ∧ call_upload cl0 = call_upload cl
                              ∧ call_nextURL cl0 = tok
                      | None =>
                          ∀ cl0 : call string Z,
                            cl0 ∈ [ ReferencesCall
                                      (references_opts resolverAB first_page ∅ uploadA)
                                      ["A1"] "tokA" None;
                                    ReferencesCall
                                      (references_opts resolverAB first_page ∅ uploadB)
                                      ["B1"] "" None ] →
                            call_upload cl0 = call_upload cl →
                            call_nextURL cl0 = ""%string
                      end)
                 (References (recording clientAB) r' args' (w2, [])).2.2.
Proof.
  assert (H1 : References (recording clientAB) resolverAB first_page (tt, [])
               = (Some {| locations := ["A1"; "B1"];
                          endCursor := "eyIxIjoidG9rQSJ9" |}, None,
                  (tt, [ ReferencesCall
                           (references_opts resolverAB first_page ∅ uploadA)
                           ["A1"] "tokA" None;
                         ReferencesCall
                           (references_opts resolverAB first_page ∅ uploadB)
                           ["B1"] "" None ])))
    by (vm_compute; reflexivity).
  assert (H2 : "eyIxIjoidG9rQSJ9"%string ≠ ""%string) by done.
  assert (H3 : Forall (λ u, int64 (ID u)) (uploads resolverAB))
    by (repeat constructor; unfold int64; simpl; lia).
  assert (H4 : Forall (λ cl : call string Z,
                         utf8.ValidString (call_nextURL cl) = true)
                 [ ReferencesCall (references_opts resolverAB first_page ∅ uploadA)
                     ["A1"] "tokA" None;
                   ReferencesCall (references_opts resolverAB first_page ∅ uploadB)
                     ["B1"] "" None ])
    by (repeat constructor).
  split; [by repeat split|].
  exact (References_next_page_resumes_each_upload clientAB resolverAB first_page
           tt tt _ _ H1 H2 H3 H4).
Defined.

(** X5. [Definitions] and [References] return a page or an error, never
    both and never neither.  An error of [Definitions] is the error of the
    last backend call it made.  An error of [References] is the error of
    decoding the cursor, with no backend call made, or the error of the last
    backend call it made: [makeCursor] adds none. *)
Theorem Definitions_and_References_fail_on_cursor_or_backend
    {L R W : Type} (c : Client L R W) (r : lsifQueryResolver)
    (args : LSIFQueryPositionArgs) (pargs : LSIFPagedQueryPositionArgs) (w : W) :
  match (Definitions c r args w).1 with
  | (Some _, None) => True
  | (None, Some e) =>
      ∃ cl, last (Definitions (recording c) r args (w, [])).2.2 = Some cl
            ∧ call_err cl = Some e
  | _ => False
  end
  ∧ match (References c r pargs w).1 with
    | (Some _, None) => (readCursor (After pargs)).2 = None
    | (None, Some e) =>
        ((readCursor (After pargs)).2 = Some e
         ∧ (References (recording c) r pargs (w, [])).2.2 = [])
        ∨ ((readCursor (After pargs)).2 = None
           ∧ ∃ cl, last (References (recording c) r pargs (w, [])).2.2 = Some cl
                   ∧ call_err cl = Some e)
    | _ => False
    end.
Proof.
  split.
  - unfold Definitions.
    destruct (Definitions_range_run c r args (uploads r) [] w [])
      as (calls & -> & Hspec). simpl.
    destruct (Definitions_range c r args (uploads r) [] w)
      as [[[page|] [e|]] w']; simpl in *; try done.
    destruct Hspec as (calls' & cl & -> & He & _).
    exists cl. by rewrite last_snoc.
  - unfold References.
    destruct (readCursor (After pargs)) as [nextURLs [e1|]]; simpl; [by left|].
    destruct (References_range_run c r pargs nextURLs (uploads r) [] ∅ w [])
      as (calls & -> & _ & Hspec). simpl.
    destruct (References_range c r pargs nextURLs (uploads r) [] ∅ w)
      as [[[page|] [e|]] w']; simpl in *; try done.
    destruct Hspec as (calls' & cl & -> & He & _).
    right. split; [done|]. exists cl. by rewrite last_snoc.
Qed.

(** X6. The uploads [Definitions] and [References] have called the
    backend for are a prefix of the candidate list, in its order, and a call
    that returned an error is the last call of the request: no upload behind
    a failing one is queried. *)
Theorem no_backend_call_follows_a_failed_one
    {L R W : Type} (c : Client L R W) (r : lsifQueryResolver)
    (args : LSIFQueryPositionArgs) (pargs : LSIFPagedQueryPositionArgs) (w : W) :
  (call_upload <$> (Definitions (recording c) r args (w, [])).2.2
   = take (length (Definitions (recording c) r args (w, [])).2.2)
       (ID <$> uploads r)
   ∧ ∀ calls cl rest,
       (Definitions (recording c) r args (w, [])).2.2 = calls ++ cl :: rest →
       call_err cl ≠ None → rest = [])
  ∧ (call_upload <$> (References (recording c) r pargs (w, [])).2.2
     = take (length (References (recording c) r pargs (w, [])).2.2)
         (ID <$> uploads r)
     ∧ ∀ calls cl rest,
         (References (recording c) r pargs (w, [])).2.2 = calls ++ cl :: rest →
         call_err cl ≠ None → rest = []).
Proof.
  assert (Hfull : ∀ calls : list (call L R),
             call_upload <$> calls = ID <$> uploads r →
             call_upload <$> calls = take (length calls) (ID <$> uploads r)).
  { intros calls H. rewrite <- H, <- (length_fmap call_upload).
    by rewrite firstn_all. }
  assert (Hok : ∀ (log calls : list (call L R)) cl rest,
             Forall no_err log → log = calls ++ cl :: rest →
             call_err cl ≠ None → rest = []).
  { intros log calls cl rest Hall -> He.
    apply Forall_app in Hall as [_ Hall]. apply Forall_cons in Hall as [Hcl _].
    done. }
  assert (Hlast : ∀ (calls' calls : list (call L R)) cl0 cl rest,
             Forall no_err calls' → calls' ++ [cl0] = calls ++ cl :: rest →
             call_err cl ≠ None → rest = []).
  { intros calls' calls cl0 cl rest Hall Heq He.
    destruct rest as [|cl1 rest _] using rev_ind; [done|].
    rewrite app_comm_cons, app_assoc in Heq.
    apply app_inj_tail in Heq as [-> _].
    apply Forall_app in Hall as [_ Hall].
    apply Forall_cons in Hall as [Hcl _]. done. }
  split.
  - unfold Definitions.
    destruct (Definitions_range_run c r args (uploads r) [] w [])
      as (calls & -> & Hspec). simpl.
    destruct (Definitions_range c r args (uploads r) [] w)
      as [[[page|] [e|]] w']; simpl in *; try done.
    + destruct Hspec as (Hids & Hall & _). split; [by apply Hfull|].
      intros calls0 cl rest. by apply Hok.
    + destruct Hspec as (calls' & cl0 & -> & _ & Hall & Hpre). split; [done|].
      intros calls0 cl rest. by apply Hlast.
  - unfold References.
    destruct (readCursor (After pargs)) as [nextURLs [e1|]]; simpl.
    { split; [done|]. intros calls0 cl rest Heq. by destruct calls0. }
    destruct (References_range_run c r pargs nextURLs (uploads r) [] ∅ w [])
      as (calls & -> & _ & Hspec). simpl.
    destruct (References_range c r pargs nextURLs (uploads r) [] ∅ w)
      as [[[page|] [e|]] w']; simpl in *; try done.
    + destruct Hspec as (Hids & Hall & _). split; [by apply Hfull|].
      intros calls0 cl rest. by apply Hok.
    + destruct Hspec as (calls' & cl0 & -> & _ & Hall & Hpre). split; [done|].
      intros calls0 cl rest. by apply Hlast.
Qed.

(** * More on the cursor codec *)

Lemma encode_alphabet (i : Z) : base64.encode i ∈ base64.encodeStd.
Proof.
  unfold base64.encode. apply list_elem_of_In.
  destruct (Nat.lt_ge_cases (Z.to_nat i) (length base64.encodeStd)).
  - by apply nth_In.
  - rewrite nth_overflow by done. by left.
Qed.

Lemma Encode_alphabet (src : list ascii) :
  Forall (λ c, c ∈ base64.encodeStd ∨ c = base64.padChar) (base64.Encode src)
  ∧ ∃ n, length (base64.Encode src) = (4 * n)%nat.
Proof.
  induction src as [|a|a b|a b c src [IH [n IHn]]] using list_ind3.
  - split; [constructor | by exists 0%nat].
  - split; [|by exists 1%nat]. cbn [base64.Encode].
    repeat (apply Forall_cons; split;
            [first [left; apply encode_alphabet | by right]|]).
    constructor.
  - split; [|by exists 1%nat]. cbn [base64.Encode].
    repeat (apply Forall_cons; split;
            [first [left; apply encode_alphabet | by right]|]).
    constructor.
  - split.
    + cbn [base64.Encode].
      do 4 (apply Forall_cons; split; [left; apply encode_alphabet|]). done.
    + exists (S n). cbn [base64.Encode length]. lia.
Qed.

Lemma length_string_of_bytes (l : list ascii) :
  String.length (string_of_bytes l) = length l.
Proof. induction l as [|c l IH]; [done|]. simpl. by rewrite IH. Qed.

(** X7. The string [makeCursor] returns is base64 text: every byte is a
    letter of the standard alphabet or the padding sign, and the length is a
    multiple of four. *)
Theorem makeCursor_writes_base64_text (m : gmap Z string) :
  Forall (λ c, c ∈ base64.encodeStd ∨ c = base64.padChar)
    (bytes_of_string (makeCursor m).1)
  ∧ ∃ n, String.length (makeCursor m).1 = (4 * n)%nat.
Proof.
  unfold makeCursor. destruct (size m =? 0)%nat.
  { split; [constructor | by exists 0%nat]. }
  destruct (json.Marshal m) as [encoded [e|]] eqn:Henc; [done|].
  cbn [fst]. unfold base64.EncodeToString.
  rewrite bytes_of_string_of_bytes, length_string_of_bytes.
  apply Encode_alphabet.
Qed.

(** X8. [makeCursor] is injective on the cursor maps with [int64] keys
    and tokens that are valid UTF-8: two such maps have the same encoding
    only when they are the same map. *)
Theorem makeCursor_is_injective (m1 m2 : gmap Z string) :
  map_Forall (λ k v, int64 k ∧ utf8.ValidString v = true) m1 →
  map_Forall (λ k v, int64 k ∧ utf8.ValidString v = true) m2 →
  (makeCursor m1).1 = (makeCursor m2).1 ↔ m1 = m2.
Proof.
  intros H1 H2. split; [|by intros ->]. intros Heq.
  destruct (decide (m1 = ∅)) as [->|Hne1].
  { symmetry. apply makeCursor_empty_iff. by rewrite <- Heq. }
  destruct (decide (m2 = ∅)) as [->|Hne2].
  { apply makeCursor_empty_iff. by rewrite Heq. }
  pose proof (readCursor_makeCursor m1 Hne1 H1) as E1.
  pose proof (readCursor_makeCursor m2 Hne2 H2) as E2.
  rewrite Heq in E1. congruence.
Qed.

Lemma makeCursor_is_injective_witness :
  (map_Forall (λ k v, int64 k ∧ utf8.ValidString v = true) tokA_only
   ∧ map_Forall (λ k v, int64 k ∧ utf8.ValidString v = true)
       ({[ 2 := "tokB"%string ]} : gmap Z string))
  ∧ ((makeCursor tokA_only).1 = (makeCursor {[ 2 := "tokB"%string ]}).1
     ↔ tokA_only = {[ 2 := "tokB"%string ]}).
Proof.
  assert (H1 : map_Forall (λ k v, int64 k ∧ utf8.ValidString v = true) tokA_only).
  { apply map_Forall_singleton. split; [unfold int64; lia | reflexivity]. }
  assert (H2 : map_Forall (λ k v, int64 k ∧ utf8.ValidString v = true)
                 ({[ 2 := "tokB"%string ]} : gmap Z string)).
  { apply map_Forall_singleton. split; [unfold int64; lia | reflexivity]. }
  split; [by split|]. exact (makeCursor_is_injective _ _ H1 H2).
Defined.

(** ** What a decoded cursor holds *)

Lemma parse_digits_nonneg (s : list ascii) :
  ∀ n k, 0 ≤ n → strconv.parse_digits s n = Some k → 0 ≤ k.
Proof.
  induction s as [|c s IH]; intros n k Hn; cbn [strconv.parse_digits].
  - by intros [= <-].
  - destruct (strconv.is_digit c) eqn:Hd; [|done].
    apply IH. unfold strconv.is_digit in Hd.
    apply andb_true_iff in Hd as [Hd _]. lia.
Qed.

Lemma ParseInt_int64 (s : string) (k : Z) :
  strconv.ParseInt s = Some k → int64 k.
Proof.
  unfold strconv.ParseInt, int64.
  destruct (bytes_of_string s) as [|c s']; [done|].
  destruct (strconv.ParseUint _) as [un|] eqn:Hun; [|done].
  assert (0 ≤ un).
  { revert Hun. generalize (if Ascii.eqb c "+" || Ascii.eqb c "-"
                             then s' else c :: s').
    intros [|d ds]; [done|]. unfold strconv.ParseUint.
    by apply parse_digits_nonneg. }
  destruct (Ascii.eqb c "-"); cbn [negb andb].
  - destruct (Z.ltb_spec (2 ^ 63) un); [done|]. intros [= <-]. lia.
  - destruct (Z.leb_spec (2 ^ 63) un); [done|]. intros [= <-]. lia.
Qed.

Lemma ValidString_string_of_bytes (u : list ascii) :
  utf8.ValidString (string_of_bytes u) = utf8.valid_from (length u) u.
Proof.
  unfold utf8.ValidString.
  by rewrite length_string_of_bytes, bytes_of_string_of_bytes.
Qed.

(** A rune's bytes before a valid string make a valid string. *)
Lemma valid_from_rune (pre t : list ascii) (r : Z) :
  (1 ≤ length pre)%nat →
  utf8.DecodeRune (pre ++ t) = (r, length pre) →
  ¬ (r = utf8.RuneError ∧ length pre = 1%nat) →
  utf8.valid_from (length t) t = true →
  utf8.valid_from (length (pre ++ t)) (pre ++ t) = true.
Proof.
  intros Hlen Hdec Herr Ht.
  destruct pre as [|c pre]; [simpl in Hlen; lia|].
  rewrite <- app_comm_cons in *. cbn [length utf8.valid_from]. rewrite Hdec.
  destruct ((r =? utf8.RuneError) && (length (c :: pre) =? 1)%nat) eqn:E.
  { apply andb_true_iff in E as [E1 E2].
    apply Z.eqb_eq in E1. apply Nat.eqb_eq in E2. tauto. }
  rewrite app_comm_cons, drop_app_length.
  rewrite (valid_from_fuel_eq (length t) t _ (length t)); [done|lia| |lia].
  rewrite length_app. lia.
Qed.

Lemma valid_from_ascii_cons (c : ascii) (t : list ascii) :
  code c < 0x80 → utf8.valid_from (length t) t = true →
  utf8.valid_from (length (c :: t)) (c :: t) = true.
Proof.
  intros Hc Ht. pose proof (code_range c).
  apply (valid_from_rune [c] t (code c)); [simpl; lia | | |done].
  - unfold utf8.DecodeRune, utf8.first. cbn [app]. by split_tests.
  - unfold utf8.RuneError. lia.
Qed.

(** What [EncodeRune] writes is read back as one rune. *)
Lemma EncodeRune_decodes (r : Z) (t : list ascii) :
  ∃ r', utf8.DecodeRune (utf8.EncodeRune r ++ t)
        = (r', length (utf8.EncodeRune r))
        ∧ (1 ≤ length (utf8.EncodeRune r))%nat
        ∧ ¬ (r' = utf8.RuneError ∧ length (utf8.EncodeRune r) = 1%nat).
Proof.
  assert (Herr : ∃ r', utf8.DecodeRune (utf8.encode3 utf8.RuneError ++ t)
                       = (r', 3%nat)).
  { eexists. apply DecodeRune_3. vm_compute. repeat split; congruence. }
  unfold utf8.EncodeRune, utf8.MaxRune.
  set (i := r mod 2 ^ 32).
  assert (Hi : 0 ≤ i < 2 ^ 32) by (apply Z.mod_pos_bound; lia).
  assert (H0 : r mod 256 = i mod 256).
  { subst i. Z.div_mod_to_equations. lia. }
  assert (H6 : Z.shiftr r 6 mod 256 = i / 64 mod 256).
  { rewrite Z.shiftr_div_pow2 by lia. subst i. Z.div_mod_to_equations. lia. }
  assert (H12 : Z.shiftr r 12 mod 256 = i / 4096 mod 256).
  { rewrite Z.shiftr_div_pow2 by lia. subst i. Z.div_mod_to_equations. lia. }
  assert (H18 : Z.shiftr r 18 mod 256 = i / 262144 mod 256).
  { rewrite Z.shiftr_div_pow2 by lia. subst i. Z.div_mod_to_equations. lia. }
  destruct (Z.leb_spec i 0x7F) as [H1|H1].
  { exists (code (chr r)). cbn [app length].
    assert (code (chr r) < 0x80) by (rewrite code_chr, H0; Z.div_mod_to_equations; lia).
    pose proof (code_range (chr r)).
    split; [|split; [lia|]].
    - unfold utf8.DecodeRune, utf8.first. by split_tests.
    - unfold utf8.RuneError. lia. }
  destruct (Z.leb_spec i 0x7FF) as [H2|H2].
  { eexists. cbn [app length]. split; [|split; [lia|lia]].
    apply DecodeRune_2. unfold valid2. rewrite !code_chr, H0, H6.
    rewrite (land_mask _ 6 0x3F 64) by done.
    rewrite (lor_const 0xC0 6 _ 5) by (try done; Z.div_mod_to_equations; lia).
    rewrite (lor_const 0x80 2 _ 6) by (try done; Z.div_mod_to_equations; lia).
    Z.div_mod_to_equations. lia. }
  destruct ((0x10FFFF <? i) || ((0xD800 <=? i) && (i <=? 0xDFFF))) eqn:Hbad.
  { destruct Herr as [r' Hr']. exists r'. cbn [utf8.encode3 length] in *.
    split; [done|]. split; lia. }
  apply orb_false_iff in Hbad as [Hmax Hsur].
  apply Z.ltb_ge in Hmax.
  assert (Hns : ¬ (0xD800 ≤ i ≤ 0xDFFF)).
  { intros [? ?]. apply andb_false_iff in Hsur as [Hsur|Hsur]; lia. }
  destruct (Z.leb_spec i 0xFFFF) as [H3|H3].
  { eexists. unfold utf8.encode3. cbn [app length]. split; [|split; [lia|lia]].
    apply DecodeRune_3. unfold valid3. rewrite !code_chr, H0, H6, H12.
    rewrite !(land_mask _ 6 0x3F 64) by done.
    rewrite (lor_const 0xE0 14 _ 4) by (try done; Z.div_mod_to_equations; lia).
    rewrite !(lor_const 0x80 2 _ 6) by (try done; Z.div_mod_to_equations; lia).
    Z.div_mod_to_equations. lia. }
  eexists. cbn [app length]. split; [|split; [lia|lia]].
  apply DecodeRune_4. unfold valid4. rewrite !code_chr, H0, H6, H12, H18.
  rewrite !(land_mask _ 6 0x3F 64) by done.
  rewrite (lor_const 0xF0 30 _ 3) by (try done; Z.div_mod_to_equations; lia).
  rewrite !(lor_const 0x80 2 _ 6) by (try done; Z.div_mod_to_equations; lia).
  Z.div_mod_to_equations. lia.
Qed.

Lemma valid_from_EncodeRune (r : Z) (t : list ascii) :
  utf8.valid_from (length t) t = true →
  utf8.valid_from (length (utf8.EncodeRune r ++ t)) (utf8.EncodeRune r ++ t) = true.
Proof.
  intros Ht. destruct (EncodeRune_decodes r t) as (r' & Hdec & Hlen & Herr).
  by apply (valid_from_rune _ t r').
Qed.

Lemma simple_escape_ascii (e x : ascii) :
  json.simple_escape e = Some x → code x < 0x80.
Proof.
  unfold json.simple_escape.
  destruct (Ascii.eqb e dquote) eqn:E1.
  { apply Ascii.eqb_eq in E1 as ->. intros [= <-]. by vm_compute. }
  destruct (Ascii.eqb e backslash) eqn:E2.
  { apply Ascii.eqb_eq in E2 as ->. intros [= <-]. by vm_compute. }
  destruct (Ascii.eqb e "/") eqn:E3.
  { apply Ascii.eqb_eq in E3 as ->. intros [= <-]. by vm_compute. }
  cbn [orb].
  repeat match goal with
         | |- context [if Ascii.eqb e ?z then _ else _] =>
             destruct (Ascii.eqb e z); [intros [= <-]; by vm_compute|]
         end.
  done.
Qed.

(** A string literal is unquoted to valid UTF-8, whatever its bytes. *)
Lemma string_lit_valid (f : nat) :
  ∀ s u t, json.string_lit f s = Some (u, t) →
           utf8.valid_from (length u) u = true.
Proof.
  induction f as [|f IH]; intros s u t H; [by destruct s|].
  destruct s as [|c s']; [done|]. cbn [json.string_lit] in H.
  repeat match type of H with
         | context [json.string_lit f ?X] =>
             let Hrec := fresh "Hrec" in
             destruct (json.string_lit f X) as [[? ?]|] eqn:Hrec;
             [apply IH in Hrec|]
         | context [match ?x with _ => _ end] => destruct x eqn:?
         end; try discriminate; injection H as <- <-;
    first [ reflexivity
          | by apply valid_from_EncodeRune
          | by apply (valid_from_EncodeRune 0xFFFD)
          | apply valid_from_ascii_cons; [|done] ].
  all: first [ by eapply simple_escape_ascii | by apply Z.ltb_lt ].
Qed.

Lemma string_elem_valid (f : nat) (s : list ascii) (elem : string)
    (mismatch : bool) (t : list ascii) :
  json.string_elem f s = Some (elem, mismatch, t) →
  utf8.ValidString elem = true.
Proof.
  unfold json.string_elem. destruct s as [|c s']; [done|].
  destruct (Ascii.eqb c dquote).
  { destruct (json.string_lit (length s') s') as [[u t']|] eqn:Hlit; [|done].
    intros [= <- <- <-]. cbn [fst]. rewrite ValidString_string_of_bytes.
    by eapply string_lit_valid. }
  destruct (Ascii.eqb c "n").
  { destruct (json.literal _ _) as [t'|]; [|done]. by intros [= <- <- <-]. }
  destruct (json.value f (c :: s')) as [t'|]; [|done]. by intros [= <- <- <-].
Qed.

Lemma object_valid (f : nat) :
  ∀ s m saved m' saved' t,
    json.object f s m saved = Some (m', saved', t) →
    map_Forall (λ k v, int64 k ∧ utf8.ValidString v = true) m →
    map_Forall (λ k v, int64 k ∧ utf8.ValidString v = true) m'.
Proof.
  induction f as [|f IH]; intros s m saved m' saved' t H Hm; [by destruct s|].
  destruct s as [|c s']; [done|]. cbn [json.object] in H.
  destruct (Ascii.eqb c dquote); [|done].
  destruct (json.string_lit (length s') s') as [[key t0]|]; [|done].
  destruct (json.skip_space t0) as [|c1 t1]; [done|].
  destruct (Ascii.eqb c1 ":"); [|done].
  destruct (json.string_elem f (json.skip_space t1)) as [[[elem mm] t2]|] eqn:Hel;
    [|done].
  apply string_elem_valid in Hel.
  set (saved1 := if mm then json.saveError saved UnmarshalTypeError else saved) in *.
  destruct (match strconv.ParseInt (string_of_bytes key) with
            | Some k => (<[k := elem]> m, saved1)
            | None => (m, json.saveError saved1 UnmarshalTypeError)
            end) as [m1 saved2] eqn:Hstore.
  assert (Hm1 : map_Forall (λ k v, int64 k ∧ utf8.ValidString v = true) m1).
  { destruct (strconv.ParseInt (string_of_bytes key)) as [k|] eqn:Hk;
      injection Hstore as <- <-; [|done].
    apply map_Forall_insert_2; [|done]. split; [|done].
    by eapply ParseInt_int64. }
  destruct (json.skip_space t2) as [|c3 t3]; [done|].
  destruct (Ascii.eqb c3 ",").
  - by eapply IH.
  - destruct (Ascii.eqb c3 "}"); [|done]. by injection H as <- <- <-.
Qed.

Lemma Unmarshal_valid (data : list ascii) :
  map_Forall (λ k v, int64 k ∧ utf8.ValidString v = true) (json.Unmarshal data).1.
Proof.
  unfold json.Unmarshal.
  destruct (json.top_value (json.skip_space data)) as [[[m saved] t]|] eqn:Htop;
    [|apply map_Forall_empty].
  destruct (json.skip_space t); [|apply map_Forall_empty]. cbn [fst].
  unfold json.top_value in Htop.
  destruct (json.skip_space data) as [|c s']; [done|].
  destruct (Ascii.eqb c "{").
  { destruct (json.skip_space s') as [|c' t']; [done|].
    destruct (Ascii.eqb c' "}").
    - injection Htop as <- <- <-. apply map_Forall_empty.
    - eapply object_valid; [exact Htop|]. apply map_Forall_empty. }
  destruct (Ascii.eqb c "n").
  { destruct (json.literal _ _); [|done]. injection Htop as <- <- <-.
    apply map_Forall_empty. }
  destruct (json.value _ _); [|done]. injection Htop as <- <- <-.
  apply map_Forall_empty.
Qed.

(** X9. What [readCursor] decodes without an error is a map with
    [int64] keys whose tokens are valid UTF-8 ([json.Unmarshal] replaces the
    bytes that are not by U+FFFD); so a decoded map that is not empty is
    written by [makeCursor] and read back by [readCursor] unchanged. *)
Theorem decoded_cursor_is_valid_and_stable
    (after : option string) (m : gmap Z string) :
  readCursor after = (m, None) →
  map_Forall (λ k v, int64 k ∧ utf8.ValidString v = true) m
  ∧ (m ≠ ∅ → readCursor (Some (makeCursor m).1) = (m, None)).
Proof.
  intros Hread.
  assert (Hm : map_Forall (λ k v, int64 k ∧ utf8.ValidString v = true) m).
  { revert Hread. unfold readCursor. destruct after as [s|].
    - destruct (base64.DecodeString s) as [decoded [e|]]; [done|].
      pose proof (Unmarshal_valid decoded) as Hv.
      destruct (json.Unmarshal decoded) as [cursors [e|]]; [done|].
      by intros [= <-].
    - intros [= <-]. apply map_Forall_empty. }
  split; [done|]. intros Hne. by apply readCursor_makeCursor.
Qed.

Lemma decoded_cursor_is_valid_and_stable_witness :
  readCursor (Some "eyIxIjoidG9rQSJ9"%string) = (tokA_only, None)
  ∧ map_Forall (λ k v, int64 k ∧ utf8.ValidString v = true) tokA_only
  ∧ (tokA_only ≠ ∅ → readCursor (Some (makeCursor tokA_only).1) = (tokA_only, None)).
Proof.
  assert (H : readCursor (Some "eyIxIjoidG9rQSJ9"%string) = (tokA_only, None))
    by (vm_compute; reflexivity).
  split; [exact H|].
  exact (decoded_cursor_is_valid_and_stable _ _ H).
Defined.

(** ** The base64 text [readCursor] accepts *)

Lemma is_newline_decodeMap (c : ascii) :
  base64.is_newline c = true →
  base64.decodeMap c = 255 ∧ Ascii.eqb c base64.padChar = false.
Proof.
  unfold base64.is_newline. intros H. apply orb_true_iff in H as [H|H];
    apply Ascii.eqb_eq in H as ->; by vm_compute.
Qed.

Lemma skip_newlines_spec (l : list ascii) :
  (base64.skip_newlines l = [] ∧ without_newlines l = [])
  ∨ ∃ c l', base64.skip_newlines l = c :: l' ∧ base64.is_newline c = false
            ∧ without_newlines l = c :: without_newlines l'.
Proof.
  unfold without_newlines.
  induction l as [|c l IH]; [by left|]. cbn [base64.skip_newlines].
  destruct (base64.is_newline c) eqn:Hc.
  - rewrite filter_cons_False by congruence. exact IH.
  - right. exists c, l. by rewrite filter_cons_True.
Qed.

Lemma skip_newlines_without (l : list ascii) :
  base64.skip_newlines (without_newlines l) = without_newlines l.
Proof.
  destruct (skip_newlines_spec l) as [[_ ->]|(c & l' & _ & Hc & ->)]; [done|].
  cbn [base64.skip_newlines]. by rewrite Hc.
Qed.

Lemma trailing_None (l : list ascii) (si : Z) :
  base64.trailing l si = None ↔ without_newlines l = [].
Proof.
  unfold base64.trailing.
  destruct (skip_newlines_spec l) as [[-> ->]|(c & l' & -> & _ & ->)]; by split.
Qed.

Lemma trailing_without (l : list ascii) (si si' : Z) :
  base64.trailing (without_newlines l) si' = None ↔ base64.trailing l si = None.
Proof.
  rewrite !trailing_None. unfold without_newlines.
  by rewrite list_filter_filter_l.
Qed.

(** [decode] writes for a text the bytes it writes for the text without
    its line breaks, and fails on the one when it fails on the other; the
    offsets of the two errors are those of the two texts. *)
Lemma decode_without_newlines (src : list ascii) :
  ∀ si si' dbuf,
    (base64.decode (without_newlines src) si' dbuf).1
    = (base64.decode src si dbuf).1
    ∧ ((base64.decode (without_newlines src) si' dbuf).2 = None
       ↔ (base64.decode src si dbuf).2 = None).
Proof.
  induction src as [|c src IH]; intros si si' dbuf.
  { by destruct dbuf. }
  unfold without_newlines in *.
  destruct (base64.is_newline c) eqn:Hc.
  - rewrite filter_cons_False by congruence.
    cbn [base64.decode]. destruct (is_newline_decodeMap c Hc) as [-> _].
    cbn. rewrite Hc. apply IH.
  - rewrite filter_cons_True by done. cbn [base64.decode]. rewrite Hc.
    destruct (negb (base64.decodeMap c =? 255)).
    { destruct dbuf as [|d0 [|d1 [|d2 [|d3 dbuf]]]]; try apply IH.
      destruct (IH (si + 1) (si' + 1) []) as [Hb He].
      destruct (base64.decode (filter _ src) (si' + 1) []) as [dst' err'].
      destruct (base64.decode src (si + 1) []) as [dst err].
      simpl in *. by subst dst'. }
    destruct (negb (Ascii.eqb c base64.padChar)); [done|].
    fold (without_newlines src).
    destruct dbuf as [|d0 [|d1 [|d2 [|d3 dbuf]]]]; try done.
    + rewrite skip_newlines_without.
      destruct (skip_newlines_spec src) as [[-> ->]|(c' & l' & -> & Hc' & ->)];
        [done|].
      destruct (Ascii.eqb c' base64.padChar); [|done].
      split; [done|]. apply trailing_without.
    + split; [done|]. apply trailing_without.
Qed.

Lemma newlines_nonneg (l : list ascii) : 0 ≤ base64.newlines l.
Proof.
  induction l as [|c l IH]; simpl; [done|].
  destruct (base64.is_newline c); lia.
Qed.

(** The line breaks a text starts with stand before any other byte of it. *)
Lemma skip_newlines_lookup (l : list ascii) (c : ascii) (j : nat) :
  l !! j = Some c → base64.is_newline c = false →
  ∃ (k : nat) c' l',
    base64.newlines l = Z.of_nat k ∧ base64.skip_newlines l = c' :: l'
    ∧ (k ≤ j)%nat ∧ (c' :: l') !! (j - k)%nat = Some c.
Proof.
  revert j. induction l as [|x l IH]; intros j Hj Hc; [done|].
  cbn [base64.newlines base64.skip_newlines].
  destruct (base64.is_newline x) eqn:Hx.
  - destruct j as [|j]; [simpl in Hj; congruence|].
    destruct (IH j Hj Hc) as (k & c' & l' & Hk & Hl & Hle & Hlook).
    exists (S k), c', l'. rewrite Hk. repeat split; [lia | done | lia | done].
  - exists 0%nat, x, l. repeat split; [lia|]. by rewrite Nat.sub_0_r.
Qed.

Lemma trailing_stray (l : list ascii) (c : ascii) (j : nat) (si : Z) :
  l !! j = Some c → base64.is_newline c = false →
  ∃ n, base64.trailing l si = Some (CorruptInputError n) ∧ n ≤ si + Z.of_nat j.
Proof.
  intros Hj Hc. unfold base64.trailing.
  destruct (skip_newlines_lookup l c j Hj Hc) as (k & c' & l' & Hk & -> & Hle & _).
  eexists. split; [done|]. lia.
Qed.

(** [decode] refuses a text that holds a stray byte, at an offset that is
    not behind that byte. *)
Lemma decode_stray (src : list ascii) (c : ascii) :
  stray c →
  ∀ (i : nat) si dbuf, src !! i = Some c →
    ∃ n, (base64.decode src si dbuf).2 = Some (CorruptInputError n)
         ∧ n ≤ si + Z.of_nat i.
Proof.
  intros Hc. induction src as [|x src IH]; intros i si dbuf Hi; [done|].
  cbn [base64.decode].
  destruct i as [|i].
  { injection Hi as ->. destruct Hc as (-> & -> & Hpad). cbn.
    apply Ascii.eqb_neq in Hpad. rewrite Hpad. cbn. eexists. split; [done|lia]. }
  simpl in Hi.
  destruct (negb (base64.decodeMap x =? 255)).
  { destruct (IH i (si + 1) (dbuf ++ [base64.decodeMap x]) Hi) as (n & Hn & ?).
    destruct (IH i (si + 1) [] Hi) as (n0 & Hn0 & ?).
    destruct dbuf as [|d0 [|d1 [|d2 [|d3 dbuf]]]];
      try (exists n; split; [exact Hn | lia]).
    destruct (base64.decode src (si + 1) []) as [dst err]. simpl in *.
    exists n0. split; [done | lia]. }
  destruct (base64.is_newline x).
  { destruct (IH i (si + 1) dbuf Hi) as (n & Hn & ?). exists n. split; [done|lia]. }
  destruct (negb (Ascii.eqb x base64.padChar)).
  { eexists. split; [done|lia]. }
  pose proof Hc as (_ & Hnl & Hpad).
  destruct dbuf as [|d0 [|d1 [|d2 [|d3 dbuf]]]];
    try (eexists; split; [done|lia]).
  - destruct (skip_newlines_lookup src c i Hi Hnl)
      as (k & c' & l' & Hk & -> & Hle & Hlook).
    rewrite Hk.
    destruct (Ascii.eqb c' base64.padChar) eqn:Hc'.
    + apply Ascii.eqb_eq in Hc' as ->.
      destruct (i - k)%nat as [|j] eqn:Hik; simpl in Hlook; [congruence|].
      destruct (trailing_stray l' c j (si + 1 + Z.of_nat k + 1) Hlook Hnl)
        as (n & -> & ?).
      exists n. split; [done|lia].
    + eexists. split; [done|lia].
  - destruct (trailing_stray src c i (si + 1) Hi Hnl) as (n & -> & ?).
    exists n. split; [done|lia].
Qed.

Lemma newlines_skip_newlines (l : list ascii) :
  base64.newlines l + Z.of_nat (length (base64.skip_newlines l))
  = Z.of_nat (length l).
Proof.
  induction l as [|c l IH]; [done|]. cbn [base64.newlines base64.skip_newlines].
  destruct (base64.is_newline c); cbn [length]; lia.
Qed.

Lemma trailing_offset (l : list ascii) (si n : Z) :
  base64.trailing l si = Some (CorruptInputError n) →
  si ≤ n < si + Z.of_nat (length l).
Proof.
  unfold base64.trailing. pose proof (newlines_nonneg l).
  pose proof (newlines_skip_newlines l) as Hlen.
  destruct (base64.skip_newlines l); [done|]. intros [= <-].
  cbn [length] in Hlen. lia.
Qed.

(** The error of [decode] is a [CorruptInputError] whose offset lies in the
    text. *)
Lemma decode_error (src : list ascii) :
  ∀ si dbuf e, (base64.decode src si dbuf).2 = Some e →
    ∃ n, e = CorruptInputError n
         ∧ si - Z.of_nat (length dbuf) ≤ n ≤ si + Z.of_nat (length src).
Proof.
  induction src as [|x src IH]; intros si dbuf e.
  { destruct dbuf; [done|]. intros [= <-]. eexists. split; [done|].
    cbn [length]. lia. }
  cbn [base64.decode length].
  destruct (negb (base64.decodeMap x =? 255)).
  { destruct dbuf as [|d0 [|d1 [|d2 [|d3 dbuf]]]];
      try (intros He; apply IH in He as (n & -> & Hn); exists n;
           split; [done|]; rewrite length_app in Hn; cbn [length] in *; lia).
    pose proof (IH (si + 1) [] e) as He.
    destruct (base64.decode src (si + 1) []) as [dst err]. simpl in *.
    intros ->. destruct He as (n & -> & Hn); [done|]. exists n. split; [done|lia]. }
  destruct (base64.is_newline x).
  { intros He. apply IH in He as (n & -> & Hn). exists n. split; [done|lia]. }
  destruct (negb (Ascii.eqb x base64.padChar)).
  { intros [= <-]. eexists. split; [done|lia]. }
  pose proof (newlines_nonneg src). pose proof (newlines_skip_newlines src) as Hlen.
  destruct dbuf as [|d0 [|d1 [|d2 [|d3 dbuf]]]];
    try (intros [= <-]; eexists; split; [done|cbn [length]; lia]).
  - destruct (base64.skip_newlines src) as [|c' l'] eqn:Hskip.
    { intros [= <-]. eexists. split; [done|]. cbn [length] in *. lia. }
    destruct (Ascii.eqb c' base64.padChar).
    + cbn [snd]. intros He. destruct e as [n| | |];
        try (unfold base64.trailing in He; by destruct (base64.skip_newlines l')).
      apply trailing_offset in He. exists n. split; [done|].
      cbn [length] in *. lia.
    + intros [= <-]. eexists. split; [done|]. cbn [length] in *. lia.
  - cbn [snd]. intros He. destruct e as [n| | |];
      try (unfold base64.trailing in He; by destruct (base64.skip_newlines src)).
    apply trailing_offset in He. exists n. split; [done|].
    cbn [length] in *. lia.
Qed.

(** X10. [readCursor] reads a token as it reads the token without its
    line feeds and carriage returns: the two results hold the same map and
    the same error, apart from the offset a base64 error reports, which
    counts the line breaks.  It fails with the error of
    [base64.DecodeString] on a token that holds any other byte outside the
    alphabet and the padding sign, at an offset that is not behind that
    byte. *)
Theorem readCursor_skips_line_breaks_only :
  (∀ s s' : string,
     without_newlines (bytes_of_string s') = without_newlines (bytes_of_string s) →
     (readCursor (Some s')).1 = (readCursor (Some s)).1
     ∧ forget_offset <$> (readCursor (Some s')).2
       = forget_offset <$> (readCursor (Some s)).2)
  ∧ (∀ (s : string) (c : ascii) (i : nat),
       bytes_of_string s !! i = Some c → stray c →
       ∃ n, readCursor (Some s) = (∅, Some (CorruptInputError n))
            ∧ 0 ≤ n ≤ Z.of_nat i).
Proof.
  split.
  - intros s s' Heq. unfold readCursor, base64.DecodeString.
    destruct (decode_without_newlines (bytes_of_string s) 0 0 []) as [Hb He].
    destruct (decode_without_newlines (bytes_of_string s') 0 0 []) as [Hb' He'].
    rewrite Heq in Hb', He'. rewrite Hb in Hb'. rewrite He in He'. clear Hb He.
    pose proof (decode_error (bytes_of_string s) 0 []) as Hk.
    pose proof (decode_error (bytes_of_string s') 0 []) as Hk'.
    destruct (base64.decode (bytes_of_string s) 0 []) as [dst err].
    destruct (base64.decode (bytes_of_string s') 0 []) as [dst' err'].
    simpl in *. subst dst'.
    destruct err as [e|], err' as [e'|].
    + destruct (Hk e eq_refl) as (n & -> & _).
      by destruct (Hk' e' eq_refl) as (n' & -> & _).
    + destruct He' as [_ H]. by specialize (H eq_refl).
    + destruct He' as [H _]. by specialize (H eq_refl).
    + by destruct (json.Unmarshal dst) as [m [e|]].
  - intros s c i Hi Hc. unfold readCursor, base64.DecodeString.
    destruct (decode_stray _ c Hc i 0 [] Hi) as (n & Hn & Hle).
    pose proof (decode_error (bytes_of_string s) 0 []) as Hk.
    destruct (base64.decode (bytes_of_string s) 0 []) as [dst err].
    simpl in *. subst err.
    destruct (Hk _ eq_refl) as (n' & [= <-] & Hlow).
    exists n. split; [done|lia].
Qed.

(** The offset of the error counts the line breaks before it. *)
Example readCursor_with_a_line_break :
  readCursor (Some (String.append "eyIxIjoi" (String (chr 10) "dG9rQSJ9")))
  = (tokA_only, None)
  ∧ readCursor (Some "eyIxIjoi dG9rQSJ9"%string) = (∅, Some (CorruptInputError 8))
  ∧ readCursor (Some "aGV*"%string) = (∅, Some (CorruptInputError 3))
  ∧ readCursor (Some (String.append "aGV" (String (chr 10) "*")))
    = (∅, Some (CorruptInputError 4)).
Proof. repeat split; vm_compute; reflexivity. Qed.

(** * The cursors [readCursor] accepts *)

(** ** Base64 text *)

Lemma index_of_elem (c : ascii) (l : list ascii) :
  ∀ i, 0 ≤ i → i + Z.of_nat (length l) ≤ 255 →
       base64.index_of c l i ≠ 255 ↔ c ∈ l.
Proof.
  induction l as [|x l IH]; intros i Hi Hlen; cbn [base64.index_of].
  - split; [done|]. by intros ?%elem_of_nil.
  - cbn [length] in Hlen. rewrite elem_of_cons.
    destruct (Ascii.eqb c x) eqn:Hc.
    + apply Ascii.eqb_eq in Hc. split; [by left | lia].
    + apply Ascii.eqb_neq in Hc. rewrite IH by lia. split; [by right|].
      by intros [?|?].
Qed.

Lemma decodeMap_letter (c : ascii) : base64.decodeMap c ≠ 255 ↔ letter c.
Proof. apply index_of_elem; [done | by vm_compute]. Qed.

Lemma decodeMap_eqb (c : ascii) :
  negb (base64.decodeMap c =? 255) = true ↔ letter c.
Proof.
  rewrite <- decodeMap_letter, negb_true_iff. split; [intros ?%Z.eqb_neq|]; lia.
Qed.

Lemma skip_newlines_id (l : list ascii) :
  Forall (λ c, base64.is_newline c = false) l → base64.skip_newlines l = l.
Proof. intros [|c l' Hc _]; [done|]. cbn. by rewrite Hc. Qed.

Lemma trailing_id (l : list ascii) (si : Z) :
  Forall (λ c, base64.is_newline c = false) l →
  base64.trailing l si = None → l = [].
Proof.
  intros Hl. unfold base64.trailing. rewrite skip_newlines_id by done.
  by destruct l.
Qed.

Lemma decode_letter (a : ascii) (src : list ascii) (si : Z) (dbuf : list Z) :
  letter a →
  base64.decode (a :: src) si dbuf
  = match dbuf with
    | [d0; d1; d2] =>
        let '(dst, err) := base64.decode src (si + 1) [] in
        (base64.quantum d0 d1 d2 (base64.decodeMap a) ++ dst, err)
    | _ => base64.decode src (si + 1) (dbuf ++ [base64.decodeMap a])
    end.
Proof. intros Ha%decodeMap_eqb. cbn [base64.decode]. by rewrite Ha. Qed.

Lemma decode_no_letter (a : ascii) (src : list ascii) (si : Z) (dbuf : list Z) :
  ¬ letter a → base64.is_newline a = false →
  (base64.decode (a :: src) si dbuf).2 = None →
  a = base64.padChar
  ∧ match dbuf with
    | [d0; d1] =>
        match base64.skip_newlines src with
        | c' :: src'' => c' = base64.padChar
                         ∧ base64.trailing src'' (si + 1 + base64.newlines src + 1)
                           = None
        | [] => False
        end
    | [d0; d1; d2] => base64.trailing src (si + 1) = None
    | _ => False
    end.
Proof.
  intros Ha Hnl. cbn [base64.decode]. rewrite Hnl.
  destruct (negb (base64.decodeMap a =? 255)) eqn:Hd.
  { by apply decodeMap_eqb in Hd. }
  destruct (Ascii.eqb a base64.padChar) eqn:Hpad; [|done].
  apply Ascii.eqb_eq in Hpad as ->. cbn [negb].
  destruct dbuf as [|d0 [|d1 [|d2 [|d3 dbuf]]]]; try done.
  destruct (base64.skip_newlines src) as [|c' src'']; [done|].
  destruct (Ascii.eqb c' base64.padChar) eqn:Hc'; [|done].
  by apply Ascii.eqb_eq in Hc' as ->.
Qed.

Lemma decode_text (t : list ascii) :
  base64_text t → ∀ si, (base64.decode t si []).2 = None.
Proof.
  induction 1 as [|a b Ha Hb|a b c Ha Hb Hc|a b c d rest Ha Hb Hc Hd _ IH];
    intros si; repeat (rewrite decode_letter by done; cbn [app]);
    try reflexivity.
  specialize (IH (si + 1 + 1 + 1 + 1)).
  by destruct (base64.decode rest (si + 1 + 1 + 1 + 1) []).
Qed.

Lemma decoded_text (n : nat) :
  ∀ t si, (length t ≤ n)%nat →
    Forall (λ c, base64.is_newline c = false) t →
    (base64.decode t si []).2 = None → base64_text t.
Proof.
  induction n as [|n IH]; intros t si Hn Hnl H.
  { destruct t; [constructor | simpl in Hn; lia]. }
  destruct t as [|a t]; [constructor|].
  apply Forall_cons in Hnl as [Ha Hnl].
  destruct (decide (letter a)) as [La|La];
    [|by apply decode_no_letter in H as [_ ?]].
  rewrite decode_letter in H by done. cbn [app] in H.
  destruct t as [|b t]; [done|].
  apply Forall_cons in Hnl as [Hb Hnl].
  destruct (decide (letter b)) as [Lb|Lb];
    [|by apply decode_no_letter in H as [_ ?]].
  rewrite decode_letter in H by done. cbn [app] in H.
  destruct t as [|c t]; [done|].
  apply Forall_cons in Hnl as [Hc Hnl].
  destruct (decide (letter c)) as [Lc|Lc].
  2: { apply decode_no_letter in H as [-> H]; [|done..].
       rewrite skip_newlines_id in H by done.
       destruct t as [|d t]; [done|]. destruct H as [-> H].
       apply Forall_cons in Hnl as [_ Hnl].
       apply trailing_id in H as ->; [|done]. by constructor. }
  rewrite decode_letter in H by done. cbn [app] in H.
  destruct t as [|d t]; [done|].
  apply Forall_cons in Hnl as [Hd Hnl].
  destruct (decide (letter d)) as [Ld|Ld].
  2: { apply decode_no_letter in H as [-> H]; [|done..].
       apply trailing_id in H as ->; [|done]. by constructor. }
  rewrite decode_letter in H by done.
  constructor; try done. apply (IH t (si + 1 + 1 + 1 + 1)); [|done|].
  - cbn [length] in Hn. lia.
  - by destruct (base64.decode t (si + 1 + 1 + 1 + 1) []).
Qed.

(** ** String literals: the scanner reads no further than the closing quote *)

Lemma getu4_short (s : list ascii) (i : nat) :
  (i < 6)%nat → s !! i = Some dquote → json.getu4 s = -1.
Proof.
  intros Hi Hs.
  destruct s as [|c0 [|c1 [|h0 [|h1 [|h2 [|h3 s]]]]]]; try reflexivity.
  cbn [json.getu4].
  destruct i as [|[|[|[|[|[|i]]]]]]; [..|lia]; simpl in Hs; injection Hs as ->.
  - reflexivity.
  - by destruct (Ascii.eqb c0 backslash).
  - destruct (Ascii.eqb c0 backslash && Ascii.eqb c1 "u"); reflexivity.
  - destruct (Ascii.eqb c0 backslash && Ascii.eqb c1 "u"); [|done].
    by destruct (json.hexval h0).
  - destruct (Ascii.eqb c0 backslash && Ascii.eqb c1 "u"); [|done].
    by destruct (json.hexval h0), (json.hexval h1).
  - destruct (Ascii.eqb c0 backslash && Ascii.eqb c1 "u"); [|done].
    by destruct (json.hexval h0), (json.hexval h1), (json.hexval h2).
Qed.

Lemma getu4_dquote (l x y : list ascii) :
  json.getu4 (l ++ dquote :: x) = json.getu4 (l ++ dquote :: y).
Proof.
  destruct (decide (length l < 6)%nat) as [Hl|Hl].
  - rewrite !(getu4_short _ (length l)); try done;
      by rewrite list_lookup_middle.
  - destruct l as [|c0 [|c1 [|h0 [|h1 [|h2 [|h3 l]]]]]];
      try (cbn [length] in Hl; lia). reflexivity.
Qed.

Lemma getu4_inv (s : list ascii) :
  0 ≤ json.getu4 s →
  ∃ c0 c1 h0 h1 h2 h3 s2, s = c0 :: c1 :: h0 :: h1 :: h2 :: h3 :: s2.
Proof.
  destruct s as [|c0 [|c1 [|h0 [|h1 [|h2 [|h3 s]]]]]]; try (cbn; lia).
  intros _. by eexists _, _, _, _, _, _, _.
Qed.

Lemma DecodeRune_dquote (l x y : list ascii) :
  utf8.DecodeRune (l ++ dquote :: x) = utf8.DecodeRune (l ++ dquote :: y).
Proof.
  destruct l as [|c0 [|c1 [|c2 [|c3 l]]]]; cbn [app];
    unfold utf8.DecodeRune, utf8.first, utf8.not_continuation;
    cbn [length]; rewrite ?length_app; cbn [length];
    change (code dquote) with 34;
    split_tests; cbn; try reflexivity;
    repeat match goal with
           | |- context [(?a <=? ?b)%nat] => destruct (a <=? b)%nat
           | |- context [(?a <? ?b)%nat] => destruct (a <? b)%nat
           end; reflexivity.
Qed.

Lemma DecodeRune_size_le (c : ascii) (p : list ascii) :
  ((utf8.DecodeRune (c :: p)).2 ≤ length (c :: p))%nat.
Proof.
  unfold utf8.DecodeRune, utf8.first, utf8.not_continuation.
  destruct p as [|c1 [|c2 [|c3 p]]]; split_tests; cbn; lia.
Qed.

(** What [string_lit] reads ends with the closing quote, and it reads the
    same whatever stands behind that quote. *)
Lemma string_lit_local (f : nat) :
  ∀ s u t, json.string_lit f s = Some (u, t) →
    ∃ pre, s = pre ++ dquote :: t
           ∧ ∀ rest f', (length pre < f')%nat →
               json.string_lit f' (pre ++ dquote :: rest) = Some (u, rest).
Proof.
  induction f as [|f IH]; intros s u t H; [by destruct s|].
  destruct s as [|c s']; [done|]. cbn [json.string_lit] in H.
  destruct (Ascii.eqb c dquote) eqn:Hq.
  { apply Ascii.eqb_eq in Hq as ->. injection H as <- <-. exists [].
    split; [done|]. intros rest [|f'] Hf; [simpl in Hf; lia|]. reflexivity. }
  destruct (Ascii.eqb c backslash) eqn:Hb.
  { destruct s' as [|e s'']; [done|].
    destruct (Ascii.eqb e "u") eqn:He.
    - destruct (json.getu4 (c :: e :: s'') <? 0) eqn:Hrr; [done|].
      pose proof Hrr as Hsix. apply Z.ltb_ge, getu4_inv in Hsix
        as (c0 & c1 & h0 & h1 & h2 & h3 & s2 & [= <- <- ->]).
      cbn [drop] in H. rewrite drop_0 in H.
      destruct (utf16.IsSurrogate _) eqn:Hsur.
      + destruct (negb (utf16.DecodeRune _ (json.getu4 s2) =? 0xFFFD)) eqn:Hdec.
        * assert (Hlow : 0 ≤ json.getu4 s2).
          { revert Hdec. unfold utf16.DecodeRune.
            destruct (json.getu4 s2 <? 0) eqn:Hneg; [|lia].
            apply Z.ltb_lt in Hneg.
            replace (0xDC00 <=? json.getu4 s2) with false by lia.
            by rewrite andb_false_r. }
          pose proof Hlow as Hsix. apply getu4_inv in Hsix
            as (d0 & d1 & k0 & k1 & k2 & k3 & s3 & ->).
          cbn [drop] in H. rewrite drop_0 in H.
          destruct (json.string_lit f s3) as [[u' t']|] eqn:Hrec; [|done].
          injection H as <- <-.
          apply IH in Hrec as (pre' & -> & Hloc).
          exists (c :: e :: h0 :: h1 :: h2 :: h3
                    :: d0 :: d1 :: k0 :: k1 :: k2 :: k3 :: pre').
          split; [done|]. intros rest [|f'] Hf; [simpl in Hf; lia|].
          cbn [app json.string_lit drop json.getu4] in *.
          rewrite !drop_0, Hrr, Hsur, Hdec, Hq, Hb, He.
          rewrite Hloc; [done | cbn [length] in Hf; lia].
        * destruct (json.string_lit f s2) as [[u' t']|] eqn:Hrec; [|done].
          injection H as <- <-.
          apply IH in Hrec as (pre' & -> & Hloc).
          exists (c :: e :: h0 :: h1 :: h2 :: h3 :: pre').
          split; [done|]. intros rest [|f'] Hf; [simpl in Hf; lia|].
          cbn [app json.string_lit drop json.getu4] in *.
          rewrite !drop_0, Hrr, Hsur, (getu4_dquote pre' rest t'), Hdec.
          rewrite Hq, Hb, He.
          rewrite Hloc; [done | cbn [length] in Hf; lia].
      + destruct (json.string_lit f s2) as [[u' t']|] eqn:Hrec; [|done].
        injection H as <- <-.
        apply IH in Hrec as (pre' & -> & Hloc).
        exists (c :: e :: h0 :: h1 :: h2 :: h3 :: pre').
        split; [done|]. intros rest [|f'] Hf; [simpl in Hf; lia|].
        cbn [app json.string_lit drop json.getu4] in *.
        rewrite !drop_0, Hrr, Hsur, Hq, Hb, He.
        rewrite Hloc; [done | cbn [length] in Hf; lia].
    - destruct (json.simple_escape e) as [x|] eqn:Hesc; [|done].
      destruct (json.string_lit f s'') as [[u' t']|] eqn:Hrec; [|done].
      injection H as <- <-.
      apply IH in Hrec as (pre' & -> & Hloc).
      exists (c :: e :: pre').
      split; [done|]. intros rest [|f'] Hf; [simpl in Hf; lia|].
      cbn [app json.string_lit]. rewrite Hq, Hb, He, Hesc.
      rewrite Hloc; [done | cbn [length] in Hf; lia]. }
  destruct (code c <? 0x20) eqn:Hctl; [done|].
  destruct (code c <? utf8.RuneSelf) eqn:Hself.
  { destruct (json.string_lit f s') as [[u' t']|] eqn:Hrec; [|done].
    injection H as <- <-.
    apply IH in Hrec as (pre' & -> & Hloc).
    exists (c :: pre').
    split; [done|]. intros rest [|f'] Hf; [simpl in Hf; lia|].
    cbn [app json.string_lit]. rewrite Hq, Hb, Hctl, Hself.
    rewrite Hloc; [done | cbn [length] in Hf; lia]. }
  destruct (utf8.DecodeRune (c :: s')) as [rr size] eqn:Hrune.
  destruct (json.string_lit f (drop size (c :: s'))) as [[u' t']|] eqn:Hrec;
    [|done].
  injection H as <- <-.
  apply IH in Hrec as (pre' & Hdrop & Hloc).
  pose proof (DecodeRune_size c s') as H1.
  pose proof (DecodeRune_size_le c s') as H2. rewrite Hrune in H1, H2.
  cbn [snd] in H1, H2.
  destruct size as [|size]; [lia|]. cbn [drop] in Hdrop.
  assert (Hs' : s' = take size s' ++ pre' ++ dquote :: t').
  { by rewrite <- Hdrop, take_drop. }
  assert (Hlen : length (take size s') = size).
  { rewrite length_take. cbn [length] in H2. lia. }
  exists (c :: take size s' ++ pre').
  split; [cbn [app]; by rewrite <- app_assoc, <- Hs'|].
  intros rest [|f'] Hf; [simpl in Hf; lia|].
  pose proof (DecodeRune_dquote (c :: take size s' ++ pre') rest t') as Hd.
  cbn [app] in Hd |- *. cbn [json.string_lit]. rewrite Hq, Hb, Hctl, Hself, Hd.
  rewrite <- !app_assoc, <- Hs', Hrune. cbn [drop].
  rewrite drop_app_length' by done.
  rewrite Hloc; [done|].
  cbn [length] in Hf. rewrite length_app in Hf. lia.
Qed.

(** ** The JSON texts of a cursor *)

Lemma skip_space_blank (s : list ascii) :
  ∃ b, blank b ∧ s = b ++ json.skip_space s.
Proof.
  induction s as [|c s (b & Hb & Hs)]; [exists []; by split; [constructor|]|].
  cbn [json.skip_space]. destruct (json.isSpace c) eqn:Hc.
  - exists (c :: b). split; [by constructor|]. cbn [app]. by f_equal.
  - exists []. by split; [constructor|].
Qed.

Lemma skip_space_app (b s : list ascii) :
  blank b → json.skip_space (b ++ s) = json.skip_space s.
Proof.
  induction 1 as [|c b Hc _ IH]; [done|]. cbn [app json.skip_space].
  by rewrite Hc.
Qed.

Lemma skip_space_nil (b : list ascii) : blank b ↔ json.skip_space b = [].
Proof.
  split.
  - intros Hb. rewrite <- (app_nil_r b). by rewrite skip_space_app.
  - intros Hs. destruct (skip_space_blank b) as (b' & Hb' & Heq).
    rewrite Hs, app_nil_r in Heq. by rewrite Heq.
Qed.

Lemma skip_space_cons (c : ascii) (s : list ascii) :
  json.isSpace c = false → json.skip_space (c :: s) = c :: s.
Proof. intros Hc. cbn [json.skip_space]. by rewrite Hc. Qed.

Lemma literal_inv (lit : list ascii) :
  ∀ s t, json.literal lit s = Some t → s = lit ++ t.
Proof.
  induction lit as [|l lit IH]; intros s t H; cbn [json.literal] in H.
  - by injection H as ->.
  - destruct s as [|c s]; [done|]. destruct (Ascii.eqb l c) eqn:Hl; [|done].
    apply Ascii.eqb_eq in Hl as ->. cbn [app]. f_equal. by apply IH.
Qed.

Lemma literal_app (lit t : list ascii) : json.literal lit (lit ++ t) = Some t.
Proof.
  induction lit as [|l lit IH]; [done|]. cbn [app json.literal].
  by rewrite Ascii.eqb_refl.
Qed.

(** A literal the scanner reads is a quoted string, and conversely. *)
Lemma quoted_scanned (f : nat) (s u t : list ascii) :
  json.string_lit f s = Some (u, t) →
  ∃ lit, quoted lit u ∧ dquote :: s = lit ++ t.
Proof.
  intros H. apply string_lit_local in H as (pre & -> & Hloc).
  exists (dquote :: pre ++ [dquote]). split.
  - exists (pre ++ [dquote]). split; [done|]. apply Hloc.
    rewrite length_app. cbn [length]. lia.
  - cbn [app]. by rewrite <- app_assoc.
Qed.

Lemma quoted_scan (lit u t : list ascii) :
  quoted lit u →
  ∃ body, lit ++ t = dquote :: body ++ t
          ∧ json.string_lit (length (body ++ t)) (body ++ t) = Some (u, t).
Proof.
  intros (body & -> & H). exists body. split; [done|].
  apply string_lit_local in H as (pre & -> & Hloc).
  rewrite <- app_assoc. cbn [app]. apply Hloc.
  rewrite length_app. cbn [length]. lia.
Qed.

Lemma saveError_Some (saved : option error) (e : error) :
  json.saveError saved e ≠ None.
Proof. by destruct saved. Qed.

Ltac list_eq :=
  repeat (rewrite <- app_assoc || rewrite <- app_comm_cons); try reflexivity.

(** The value of a member that [string_elem] stores without a type error
    is a string or [null]. *)
Lemma string_elem_value (f : nat) (s : list ascii) (elem : string)
    (t : list ascii) :
  json.string_elem f s = Some (elem, false, t) →
  ∃ val, s = val ++ t ∧ member_value val elem.
Proof.
  unfold json.string_elem. destruct s as [|c s']; [done|].
  destruct (Ascii.eqb c dquote) eqn:Hq.
  { apply Ascii.eqb_eq in Hq as ->.
    destruct (json.string_lit (length s') s') as [[u t']|] eqn:Hlit; [|done].
    intros [= <- <-].
    apply quoted_scanned in Hlit as (lit & Hlit & ->).
    exists lit. split; [done | by constructor]. }
  destruct (Ascii.eqb c "n").
  { destruct (json.literal _ _) as [t'|] eqn:Hlit; [|done].
    intros [= <- <-]. apply literal_inv in Hlit as ->.
    eexists. split; [done | constructor]. }
  by destruct (json.value f (c :: s')).
Qed.

Lemma member_value_head (val : list ascii) (v : string) :
  member_value val v →
  ∃ c val', val = c :: val' ∧ json.isSpace c = false
            ∧ (c = dquote ∨ c = "n"%char).
Proof.
  intros [lit u (body & -> & _)|]; eexists _, _; split; try done;
    split; auto.
Qed.

Lemma member_value_elem (val : list ascii) (v : string) :
  member_value val v →
  ∀ t f, json.string_elem f (val ++ t) = Some (v, false, t).
Proof.
  intros [lit u Hq|] t f.
  - destruct (quoted_scan lit u t Hq) as (body & -> & Hlit).
    unfold json.string_elem.
    replace (Ascii.eqb dquote dquote) with true by done.
    by rewrite Hlit.
  - reflexivity.
Qed.

(** The members [object] stores without an error, as a text. *)
Lemma object_members (f : nat) :
  ∀ s m saved m' t,
    json.object f s m saved = Some (m', None, t) →
    saved = None
    ∧ ∃ ms kvs, s = ms ++ "}"%char :: t ∧ member_list ms kvs
                ∧ m' = insert_all m kvs.
Proof.
  induction f as [|f IH]; intros s m saved m' t H; [by destruct s|].
  destruct s as [|c s']; [done|]. cbn [json.object] in H.
  destruct (Ascii.eqb c dquote) eqn:Hq; [|done]. apply Ascii.eqb_eq in Hq as ->.
  destruct (json.string_lit (length s') s') as [[key t0]|] eqn:Hlit; [|done].
  destruct (json.skip_space t0) as [|c1 t1] eqn:Hs0; [done|].
  destruct (Ascii.eqb c1 ":") eqn:Hcolon; [|done].
  apply Ascii.eqb_eq in Hcolon as ->.
  destruct (json.string_elem f (json.skip_space t1))
    as [[[elem mismatch] t2]|] eqn:Helem; [|done].
  destruct (match strconv.ParseInt (string_of_bytes key) with
            | Some k => _
            | None => _
            end) as [m1 saved2] eqn:Hins.
  destruct (json.skip_space t2) as [|c3 t3] eqn:Hs2; [done|].
  assert (Hrest : saved2 = None
            ∧ ((c3 = "}"%char ∧ t3 = t ∧ m' = m1)
               ∨ (c3 = ","%char
                  ∧ ∃ ms kvs, json.skip_space t3 = ms ++ "}"%char :: t
                      ∧ member_list ms kvs ∧ m' = insert_all m1 kvs))).
  { destruct (Ascii.eqb c3 ",") eqn:Hcomma.
    - apply Ascii.eqb_eq in Hcomma as ->.
      apply IH in H as (-> & ms & kvs & ? & ? & ?).
      split; [done|]. right. split; [done|]. by exists ms, kvs.
    - destruct (Ascii.eqb c3 "}") eqn:Hbrace; [|done].
      apply Ascii.eqb_eq in Hbrace as ->. injection H as <- <- <-.
      split; [done|]. by left. }
  destruct Hrest as [-> Hrest].
  destruct (strconv.ParseInt (string_of_bytes key)) as [k|] eqn:Hkey;
    injection Hins as <- Hsaved; [|by apply saveError_Some in Hsaved].
  destruct mismatch; [by apply saveError_Some in Hsaved|]. subst saved.
  split; [done|].
  apply quoted_scanned in Hlit as (lit & Hlit & Hs').
  destruct (skip_space_blank t0) as (b1 & Hb1 & Ht0). rewrite Hs0 in Ht0.
  destruct (skip_space_blank t1) as (b2 & Hb2 & Ht1).
  apply string_elem_value in Helem as (val & Hval & Hv). rewrite Hval in Ht1.
  destruct (skip_space_blank t2) as (b3 & Hb3 & Ht2). rewrite Hs2 in Ht2.
  assert (Hm : member (lit ++ b1 ++ ":"%char :: b2 ++ val) k elem)
    by (by econstructor).
  destruct Hrest as [(-> & -> & ->)|(-> & ms & kvs & Hms & Hlist & ->)].
  - exists ((lit ++ b1 ++ ":"%char :: b2 ++ val) ++ b3), [(k, elem)].
    split; [|split; [by constructor | done]].
    rewrite Hs', Ht0, Ht1, Ht2. list_eq.
  - destruct (skip_space_blank t3) as (b4 & Hb4 & Ht3). rewrite Hms in Ht3.
    exists ((lit ++ b1 ++ ":"%char :: b2 ++ val) ++ b3 ++ ","%char :: b4 ++ ms),
      ((k, elem) :: kvs).
    split; [|split; [by constructor | done]].
    rewrite Hs', Ht0, Ht1, Ht2, Ht3. list_eq.
Qed.

Lemma member_head (txt : list ascii) (k : Z) (v : string) :
  member txt k v → ∃ txt', txt = dquote :: txt'.
Proof. intros [lit u ? ? ? ? ? (body & -> & _)]. by eexists. Qed.

Lemma member_list_head (ms : list ascii) (kvs : list (Z * string)) :
  member_list ms kvs → ∃ ms', ms = dquote :: ms'.
Proof.
  intros [txt k v b Hm _|txt k v b1 b2 rest kvs' Hm _ _ _];
    apply member_head in Hm as (txt' & ->); by eexists.
Qed.

(** [object] on a member. *)
Lemma object_member_text (txt : list ascii) (k : Z) (v : string) :
  member txt k v →
  ∀ rest f m saved,
    json.object (S f) (txt ++ rest) m saved
    = match json.skip_space rest with
      | c3 :: t3 =>
          if Ascii.eqb c3 ","%char
          then json.object f (json.skip_space t3) (<[k := v]> m) saved
          else if Ascii.eqb c3 "}"%char
          then Some (<[k := v]> m, saved, t3)
          else None
      | [] => None
      end.
Proof.
  intros [lit u k' b1 b2 val v' Hq Hkey Hb1 Hb2 Hval] rest f m saved.
  destruct (quoted_scan lit u (b1 ++ ":"%char :: b2 ++ val ++ rest) Hq)
    as (body & Hlit & Hscan).
  replace ((lit ++ b1 ++ ":"%char :: b2 ++ val) ++ rest)
    with (lit ++ b1 ++ ":"%char :: b2 ++ val ++ rest) by list_eq.
  rewrite Hlit. cbn [json.object].
  replace (Ascii.eqb dquote dquote) with true by done.
  rewrite Hscan, (skip_space_app b1) by done.
  rewrite skip_space_cons by done.
  replace (Ascii.eqb ":" ":") with true by done.
  rewrite (skip_space_app b2) by done.
  destruct (member_value_head val v' Hval) as (c & val' & -> & Hc & _).
  cbn [app]. rewrite skip_space_cons by done.
  rewrite (app_comm_cons val' rest c), (member_value_elem _ _ Hval), Hkey.
  reflexivity.
Qed.

(** [object] stores the members of a member list. *)
Lemma object_member_list (ms : list ascii) (kvs : list (Z * string)) :
  member_list ms kvs →
  ∀ t m f, (length ms ≤ f)%nat →
    json.object f (ms ++ "}"%char :: t) m None
    = Some (insert_all m kvs, None, t).
Proof.
  induction 1 as [txt k v b Hm Hb|txt k v b1 b2 rest kvs Hm Hb1 Hb2 Hrest IH];
    intros t m f Hf; destruct (member_head _ _ _ Hm) as (txt' & Htxt).
  - destruct f as [|f]; [subst txt; cbn [app length] in Hf; lia|].
    rewrite <- app_assoc, (object_member_text _ _ _ Hm).
    rewrite skip_space_app, skip_space_cons by done. reflexivity.
  - destruct f as [|f]; [subst txt; cbn [app length] in Hf; lia|].
    rewrite <- app_assoc, (object_member_text _ _ _ Hm).
    rewrite <- !app_assoc, skip_space_app by done. cbn [app].
    rewrite skip_space_cons by done.
    replace (Ascii.eqb "," ",") with true by done.
    rewrite <- app_assoc, skip_space_app by done.
    destruct (member_list_head _ _ Hrest) as (ms' & Hms').
    rewrite Hms' at 1. cbn [app]. rewrite skip_space_cons by done.
    rewrite (app_comm_cons ms'), <- Hms'. rewrite IH; [done|].
    subst txt. rewrite !length_app in Hf. cbn [length] in Hf.
    rewrite !length_app in Hf. lia.
Qed.

(** [json.Unmarshal] reads a text without an error exactly when it is the
    text of a cursor, and then it returns the map the text denotes. *)
Lemma Unmarshal_cursor_text (data : list ascii) (m : gmap Z string) :
  json.Unmarshal data = (m, None) ↔ cursor_text data m.
Proof.
  split.
  - unfold json.Unmarshal, json.top_value.
    destruct (skip_space_blank data) as (b1 & Hb1 & Hdata).
    destruct (json.skip_space data) as [|c s'] eqn:Hs; [done|].
    destruct (Ascii.eqb c "{") eqn:Hbrace.
    + apply Ascii.eqb_eq in Hbrace as ->.
      destruct (skip_space_blank s') as (b2 & Hb2 & Hs').
      destruct (json.skip_space s') as [|c' t] eqn:Hs2; [done|].
      destruct (Ascii.eqb c' "}") eqn:Hclose.
      * apply Ascii.eqb_eq in Hclose as ->.
        destruct (json.skip_space t) eqn:Ht; [|done]. intros [= <-].
        apply skip_space_nil in Ht. rewrite Hdata, Hs'. by constructor.
      * destruct (json.object (length s') (c' :: t) ∅ None)
          as [[[m' saved] t']|] eqn:Hobj; [|done].
        destruct (json.skip_space t') eqn:Ht; [|done]. intros [= -> ->].
        apply skip_space_nil in Ht.
        apply object_members in Hobj as (_ & ms & kvs & Hms & Hlist & ->).
        rewrite Hdata, Hs', Hms. by constructor.
    + destruct (Ascii.eqb c "n").
      * destruct (json.literal _ _) as [t|] eqn:Hlit; [|done]. cbn.
        destruct (json.skip_space t) eqn:Ht; [|done]. intros [= <-].
        apply skip_space_nil in Ht. apply literal_inv in Hlit.
        rewrite Hdata, Hlit. by constructor.
      * destruct (json.value _ _) as [t|]; [|done]. cbn.
        by destruct (json.skip_space t).
  - intros [b1 b2 Hb1 Hb2|b1 b2 b3 Hb1 Hb2 Hb3|b1 b2 ms kvs b3 Hb1 Hb2 Hms Hb3];
      unfold json.Unmarshal.
    + rewrite skip_space_app by done. cbn.
      apply skip_space_nil in Hb2. by rewrite Hb2.
    + rewrite skip_space_app, skip_space_cons by done.
      unfold json.top_value. replace (Ascii.eqb "{" "{") with true by done.
      rewrite skip_space_app, skip_space_cons by done.
      replace (Ascii.eqb "}" "}") with true by done.
      apply skip_space_nil in Hb3. by rewrite Hb3.
    + rewrite skip_space_app, skip_space_cons by done.
      unfold json.top_value. replace (Ascii.eqb "{" "{") with true by done.
      rewrite skip_space_app by done.
      destruct (member_list_head _ _ Hms) as (ms' & Hms').
      rewrite Hms' at 1. cbn [app]. rewrite skip_space_cons by done.
      replace (Ascii.eqb dquote "}") with false by done.
      rewrite (app_comm_cons ms'), <- Hms'.
      rewrite (object_member_list ms kvs); [|done|rewrite !length_app; lia].
      apply skip_space_nil in Hb3. by rewrite Hb3.
Qed.

(** ** The tokens [readCursor] rejects *)

Lemma DecodeString_base64_text (s : string) :
  (base64.DecodeString s).2 = None
  ↔ base64_text (without_newlines (bytes_of_string s)).
Proof.
  unfold base64.DecodeString.
  destruct (decode_without_newlines (bytes_of_string s) 0 0 []) as [_ <-].
  split; [|by intros H; apply decode_text].
  intros H.
  apply (decoded_text (length (without_newlines (bytes_of_string s))) _ 0);
    [done| |exact H].
  unfold without_newlines. apply Forall_forall.
  by intros c [? _]%list_elem_of_filter.
Qed.

(** A type error [object] reports. *)
Lemma object_error (f : nat) :
  ∀ s m saved m' saved' t,
    json.object f s m saved = Some (m', saved', t) →
    saved' = saved ∨ saved' = Some UnmarshalTypeError.
Proof.
  induction f as [|f IH]; intros s m saved m' saved' t H; [by destruct s|].
  destruct s as [|c s']; [done|]. cbn [json.object] in H.
  destruct (Ascii.eqb c dquote); [|done].
  destruct (json.string_lit (length s') s') as [[key t0]|]; [|done].
  destruct (json.skip_space t0) as [|c1 t1]; [done|].
  destruct (Ascii.eqb c1 ":"); [|done].
  destruct (json.string_elem f (json.skip_space t1))
    as [[[elem mismatch] t2]|]; [|done].
  destruct (match strconv.ParseInt (string_of_bytes key) with
            | Some k => _
            | None => _
            end) as [m1 saved2] eqn:Hins.
  assert (Hsaved : saved2 = saved ∨ saved2 = Some UnmarshalTypeError).
  { destruct (strconv.ParseInt (string_of_bytes key)), mismatch, saved;
      injection Hins as <- <-; auto. }
  destruct (json.skip_space t2) as [|c3 t3]; [done|].
  destruct (Ascii.eqb c3 ",").
  - apply IH in H as [->| ->]; auto.
  - destruct (Ascii.eqb c3 "}"); [|done]. by injection H as <- <- <-.
Qed.

(** The errors of [json.Unmarshal]. *)
Lemma Unmarshal_error (data : list ascii) (e : error) :
  (json.Unmarshal data).2 = Some e → e = SyntaxError ∨ e = UnmarshalTypeError.
Proof.
  unfold json.Unmarshal, json.top_value.
  destruct (json.skip_space data) as [|c s']; [by intros [= <-]; left|].
  destruct (Ascii.eqb c "{").
  - destruct (json.skip_space s') as [|c' t]; [by intros [= <-]; left|].
    destruct (Ascii.eqb c' "}").
    + destruct (json.skip_space t); [done | by intros [= <-]; left].
    + destruct (json.object _ _ _ _) as [[[m saved] t']|] eqn:Hobj;
        [|by intros [= <-]; left].
      destruct (json.skip_space t'); [|by intros [= <-]; left].
      cbn. intros ->. apply object_error in Hobj as [?|[= ->]]; [done | by right].
  - destruct (Ascii.eqb c "n").
    + destruct (json.literal _ _) as [t|]; [|by intros [= <-]; left]. cbn.
      destruct (json.skip_space t); [done | by intros [= <-]; left].
    + destruct (json.value _ _) as [t|]; [|by intros [= <-]; left]. cbn.
      destruct (json.skip_space t); intros [= <-]; auto.
Qed.

(** C4, as the code has it.  [readCursor] never returns a map beside an
    error: whatever [json.Unmarshal] had stored is dropped.  It rejects
    every token that is no base64 text (its line breaks apart) with the
    [CorruptInputError] of [base64.DecodeString], and every token whose
    decoded bytes are no text of a cursor with the syntax error or the type
    error of [json.Unmarshal]; a text of a cursor is the JSON text [null] or
    a JSON object whose member names are decimal [int64] numbers and whose
    member values are strings or [null].  Every other token is read, without
    an error, as the map its text denotes.  [References] returns the error of
    [readCursor] at once, before any backend call. *)
Theorem malformed_cursor_is_rejected
    {L R W : Type} (c : Client L R W) (r : lsifQueryResolver) (w : W) :
  (∀ after m e, readCursor after = (m, Some e) → m = ∅)
  ∧ (∀ s, ¬ base64_text (without_newlines (bytes_of_string s)) →
          ∃ n, base64.DecodeString s = ((base64.DecodeString s).1,
                                        Some (CorruptInputError n))
               ∧ readCursor (Some s) = (∅, Some (CorruptInputError n)))
  ∧ (∀ s, base64_text (without_newlines (bytes_of_string s)) →
          (∀ m, ¬ cursor_text (base64.DecodeString s).1 m) →
          ∃ e, (e = SyntaxError ∨ e = UnmarshalTypeError)
               ∧ (json.Unmarshal (base64.DecodeString s).1).2 = Some e
               ∧ readCursor (Some s) = (∅, Some e))
  ∧ (∀ s m, base64_text (without_newlines (bytes_of_string s)) →
            cursor_text (base64.DecodeString s).1 m →
            readCursor (Some s) = (m, None))
  ∧ (∀ args m e, readCursor (After args) = (m, Some e) →
                 References (recording c) r args (w, []) = (None, Some e, (w, []))
                 ∧ References c r args w = (None, Some e, w)).
Proof.
  split; [|split; [|split; [|split]]].
  - intros [s|] m e; unfold readCursor; [|done].
    destruct (base64.DecodeString s) as [decoded [e1|]]; [by intros [= <- _]|].
    destruct (json.Unmarshal decoded) as [cursors [e2|]]; [by intros [= <- _]|done].
  - intros s Htext. rewrite <- DecodeString_base64_text in Htext.
    unfold readCursor.
    pose proof (decode_error (bytes_of_string s) 0 []) as Hk.
    fold (base64.DecodeString s) in Hk.
    destruct (base64.DecodeString s) as [decoded [e|]]; [|done].
    destruct (Hk e eq_refl) as (n & -> & _). by exists n.
  - intros s Htext Hjson. rewrite <- DecodeString_base64_text in Htext.
    unfold readCursor.
    destruct (base64.DecodeString s) as [decoded err]. simpl in *. subst err.
    destruct (json.Unmarshal decoded) as [m [e|]] eqn:Hun.
    + exists e. split; [|done]. apply (Unmarshal_error decoded). by rewrite Hun.
    + by apply Unmarshal_cursor_text, Hjson in Hun.
  - intros s m Htext Hjson. rewrite <- DecodeString_base64_text in Htext.
    unfold readCursor.
    destruct (base64.DecodeString s) as [decoded err]. simpl in *. subst err.
    apply Unmarshal_cursor_text in Hjson. by rewrite Hjson.
  - intros args m e Hread. unfold References. by rewrite Hread.
Qed.

(** Tokens whose texts are objects, and that [readCursor] rejects: a name
    that is no number, a value that is a number, and an object that is not
    closed; and the token of an object with a [null] value, which it
    accepts. *)
Example readCursor_rejects_objects :
  base64.DecodeString "eyJhYmMiOiJ4In0="
  = (bytes_of_string "{" ++ dquote :: bytes_of_string "abc" ++ dquote
       :: bytes_of_string ":" ++ dquote :: bytes_of_string "x" ++ dquote
       :: bytes_of_string "}", None)
  ∧ readCursor (Some "eyJhYmMiOiJ4In0="%string) = (∅, Some UnmarshalTypeError)
  ∧ base64.DecodeString "eyIxIjo1fQ=="
    = (bytes_of_string "{" ++ dquote :: bytes_of_string "1" ++ dquote
         :: bytes_of_string ":5}", None)
  ∧ readCursor (Some "eyIxIjo1fQ=="%string) = (∅, Some UnmarshalTypeError)
  ∧ base64.DecodeString "eyIxIjoieCI="
    = (bytes_of_string "{" ++ dquote :: bytes_of_string "1" ++ dquote
         :: bytes_of_string ":" ++ dquote :: bytes_of_string "x" ++ [dquote],
       None)
  ∧ readCursor (Some "eyIxIjoieCI="%string) = (∅, Some SyntaxError)
  ∧ base64.DecodeString "eyIxIjpudWxsfQ=="
    = (bytes_of_string "{" ++ dquote :: bytes_of_string "1" ++ dquote
         :: bytes_of_string ":null}", None)
  ∧ readCursor (Some "eyIxIjpudWxsfQ=="%string) = ({[ 1 := ""%string ]}, None).
Proof. repeat split; vm_compute; reflexivity. Qed.


(** * Search latency statistics *)

Section Latencies.

Context {float64 Time error W : Type}.
Variable zero : float64.
Variables p50 p90 p99 : float64.

Ltac entries H :=
  repeat (apply elem_of_cons in H as [H|H]; [injection H as -> ->|]);
  try (by apply elem_of_nil in H).

Lemma latenciesByName_lawful (name : string) (g : usagestats.getter float64) :
  (name, g) ∈ usagestats.latenciesByName → usagestats.lawful g.
Proof.
  intros H. unfold usagestats.latenciesByName in H. entries H.
  all: split; [by intros v [[]] | by intros v v' [[]]].
Qed.

Lemma latenciesByName_apart (n n' : string) (g g' : usagestats.getter float64) :
  (n, g) ∈ usagestats.latenciesByName → (n', g') ∈ usagestats.latenciesByName → n ≠ n' → usagestats.apart g g'.
Proof.
  intros H H' Hne. unfold usagestats.latenciesByName in H, H'.
  entries H; entries H'; try done; by intros v [[]].
Qed.

Lemma latenciesByName_NoDup : NoDup (usagestats.latenciesByName (float64 := float64)).*1.
Proof. refine (bool_decide_unpack _ _). by vm_compute. Qed.

(** A period is what the seven getters read in it. *)
Lemma period_ext (p q : usagestats.SearchLatencyPeriod float64) :
  (∀ n g, (n, g) ∈ usagestats.latenciesByName → usagestats.load g p = usagestats.load g q) →
  p = q.
Proof.
  intros H.
  assert (Hn : ∀ k e, usagestats.latenciesByName !! k = Some e →
                      usagestats.load e.2 p = usagestats.load e.2 q).
  { intros k [n g] Hk. apply (H n g). by eapply list_elem_of_lookup_2. }
  destruct p as [[]], q as [[]].
  pose proof (Hn 0%nat _ eq_refl) as H0. pose proof (Hn 1%nat _ eq_refl) as H1.
  pose proof (Hn 2%nat _ eq_refl) as H2. pose proof (Hn 3%nat _ eq_refl) as H3.
  pose proof (Hn 4%nat _ eq_refl) as H4. pose proof (Hn 5%nat _ eq_refl) as H5.
  pose proof (Hn 6%nat _ eq_refl) as H6.
  simpl in *. congruence.
Qed.

(** ** The inner loop *)

Lemma write_percentiles_cons (g : usagestats.getter float64) (i : nat)
    (p : usagestats.PercentileValue float64)
    (rows : list (usagestats.PercentileValue float64)) (aps : list (usagestats.SearchLatencyPeriod float64)) :
  usagestats.lawful g →
  usagestats.write_percentiles g i (p :: rows) aps
  = match aps !! i, usagestats.latency_of p with
    | Some period, Some l =>
        usagestats.write_percentiles g (S i) rows
          (<[i := usagestats.store g l period]> aps)
    | _, _ => usagestats.Panic
    end.
Proof.
  intros [Hload Hstore]. cbn [usagestats.write_percentiles].
  unfold usagestats.assign, usagestats.latency_of.
  destruct (aps !! i) as [period|] eqn:Hi; [|done].
  assert (i < length aps)%nat by (by eapply lookup_lt_Some).
  destruct (usagestats.Values p) as [|v0 [|v1 [|v2 vs]]]; cbn; try done.
  - rewrite list_lookup_insert_eq by done. done.
  - rewrite list_lookup_insert_eq by done. cbn.
    rewrite list_lookup_insert_eq by (by rewrite length_insert). done.
  - rewrite list_lookup_insert_eq by done. cbn.
    rewrite list_lookup_insert_eq by (by rewrite length_insert). cbn.
    rewrite !list_insert_insert_eq, !Hload, !Hstore. done.
Qed.

Lemma write_percentiles_spec (g : usagestats.getter float64)
    (rows : list (usagestats.PercentileValue float64)) :
  usagestats.lawful g →
  ∀ i aps aps',
    usagestats.write_percentiles g i rows aps = usagestats.Return aps' →
    length aps' = length aps
    ∧ (rows = [] ∨ (i + length rows ≤ length aps)%nat)
    ∧ Forall (λ row, is_Some (usagestats.latency_of row)) rows
    ∧ (∀ j, (j < i ∨ i + length rows ≤ j)%nat → aps' !! j = aps !! j)
    ∧ (∀ k row, rows !! k = Some row →
         ∃ l period, usagestats.latency_of row = Some l
                     ∧ aps !! (i + k)%nat = Some period
                     ∧ aps' !! (i + k)%nat = Some (usagestats.store g l period)).
Proof.
  intros Hg. induction rows as [|p rows IH]; intros i aps aps'.
  { intros [= <-]. split; [done|]. split; [by left|]. split; [constructor|].
    split; [done|]. intros k row Hk. by rewrite lookup_nil in Hk. }
  rewrite write_percentiles_cons by done.
  destruct (aps !! i) as [period|] eqn:Hi; [|done].
  destruct (usagestats.latency_of p) as [l|] eqn:Hl; [|done].
  assert (i < length aps)%nat by (by eapply lookup_lt_Some).
  intros Hrun. apply IH in Hrun as (Hlen & Hfit & Hrows & Hout & Hin).
  rewrite length_insert in *.
  split; [done|]. split.
  { right. destruct Hfit as [->|Hfit]; simpl in *; lia. }
  split; [by constructor|]. split.
  - intros j Hj. rewrite Hout by (simpl in Hj; lia).
    apply list_lookup_insert_ne. simpl in Hj. lia.
  - intros [|k] row Hk; simpl in Hk.
    + injection Hk as <-. exists l, period. rewrite Nat.add_0_r.
      split; [done|]. split; [done|]. rewrite Hout by lia.
      by apply list_lookup_insert_eq.
    + destruct (Hin k row Hk) as (l' & period' & Hl' & Hold & Hnew).
      exists l', period'. replace (i + S k)%nat with (S i + k)%nat by lia.
      split; [done|]. split; [|done].
      rewrite list_lookup_insert_ne in Hold by lia. done.
Qed.

Lemma write_percentiles_returns (g : usagestats.getter float64)
    (rows : list (usagestats.PercentileValue float64)) :
  usagestats.lawful g →
  ∀ i aps, (i + length rows ≤ length aps)%nat →
           Forall (λ row, is_Some (usagestats.latency_of row)) rows →
           ∃ aps', usagestats.write_percentiles g i rows aps = usagestats.Return aps'.
Proof.
  intros Hg. induction rows as [|p rows IH]; intros i aps Hlen Hrows.
  { by eexists. }
  rewrite write_percentiles_cons by done.
  apply Forall_cons in Hrows as [[l Hl] Hrows]. simpl in Hlen.
  destruct (lookup_lt_is_Some_2 aps i) as [period Hi]; [lia|].
  rewrite Hi, Hl. apply IH; [|done]. rewrite length_insert. lia.
Qed.

(** The inner loop returns exactly when the rows fit the periods. *)
Lemma write_percentiles_fits (g : usagestats.getter float64)
    (rows : list (usagestats.PercentileValue float64)) (aps : list (usagestats.SearchLatencyPeriod float64)) :
  usagestats.lawful g →
  usagestats.fits (length aps) rows
  ↔ ∃ aps', usagestats.write_percentiles g 0 rows aps = usagestats.Return aps'.
Proof.
  intros Hg. split.
  - intros [Hlen Hrows]. by apply write_percentiles_returns.
  - intros [aps' Hrun].
    apply write_percentiles_spec in Hrun as (_ & Hlen & Hrows & _); [|done].
    split; [|done]. destruct Hlen as [->|Hlen]; simpl in *; lia.
Qed.

End Latencies.

Section Queries.

Context {float64 Time error W : Type}.
Variable zero : float64.
Variables p50 p90 p99 : float64.
Variable timeNow : W → Time.
Variable logs : usagestats.EventLogs float64 Time error W.
Variable periodType : usagestats.db.PeriodType.
Variable periods : Z.

Lemma NoDup_fst_inj {A B : Type} (l : list (A * B)) (a : A) (b b' : B) :
  NoDup l.*1 → (a, b) ∈ l → (a, b') ∈ l → b = b'.
Proof.
  intros Hnd H H'.
  apply list_elem_of_lookup in H as [i Hi]. apply list_elem_of_lookup in H' as [j Hj].
  assert (i = j) as ->; [|congruence].
  apply (NoDup_lookup l.*1 i j a); [done|..]; by rewrite list_lookup_fmap, ?Hi, ?Hj.
Qed.

(** [searchQueryLatency]'s second loop against the recording event logs:
    the result of the plain run, and one query per entry of the map up to
    the first one that fails or whose rows do not fit. *)
Lemma query_latencies_run (order : list (string * usagestats.getter float64)) :
  Forall (λ e, e ∈ usagestats.latenciesByName) order →
  NoDup order.*1 →
  ∀ aps w log,
  ∃ qs,
    usagestats.query_latencies p50 p90 p99 (usagestats.recording_clock timeNow)
      (usagestats.recording logs) order periodType periods aps (w, log)
    = ((usagestats.query_latencies p50 p90 p99 timeNow logs order periodType
          periods aps w).1,
       ((usagestats.query_latencies p50 p90 p99 timeNow logs order periodType
           periods aps w).2, log ++ qs))
    ∧ Forall (usagestats.asked p50 p90 p99 timeNow logs periodType periods) qs
    ∧ usagestats.q_name <$> qs = take (length qs) order.*1
    ∧ match (usagestats.query_latencies p50 p90 p99 timeNow logs order periodType
               periods aps w).1 with
      | usagestats.Return (ps, None) =>
          length qs = length order
          ∧ Forall (usagestats.answered (length aps)) qs
          ∧ length ps = length aps
          ∧ ∀ j period, aps !! j = Some period →
              ∃ period', ps !! j = Some period'
                ∧ (∀ n g, (n, g) ∈ usagestats.latenciesByName → n ∉ order.*1 →
                          usagestats.load g period' = usagestats.load g period)
                ∧ (∀ k n g q, order !! k = Some (n, g) → qs !! k = Some q →
                     match usagestats.q_rows q !! j with
                     | Some row =>
                         usagestats.latency_of row
                         = Some (usagestats.load g period')
                     | None =>
                         usagestats.load g period' = usagestats.load g period
                     end)
      | usagestats.Return (ps, Some e) =>
          ps = []
          ∧ ∃ qs' q, qs = qs' ++ [q] ∧ usagestats.q_err q = Some e
                     ∧ Forall (usagestats.answered (length aps)) qs'
      | usagestats.Panic =>
          ∃ qs' q, qs = qs' ++ [q] ∧ usagestats.q_err q = None
                   ∧ ¬ usagestats.fits (length aps) (usagestats.q_rows q)
                   ∧ Forall (usagestats.answered (length aps)) qs'
      end.
Proof.
  induction order as [|[n0 g0] order IH]; intros Hin Hnd aps w log.
  { exists []. rewrite app_nil_r. cbn.
    split; [done|]. split; [constructor|]. split; [done|].
    split; [done|]. split; [constructor|]. split; [done|].
    intros j period Hj. exists period. split; [done|]. split; [done|].
    intros k n g q Hk. by rewrite lookup_nil in Hk. }
  apply Forall_cons in Hin as [Hin0 Hin].
  rewrite fmap_cons in Hnd. apply NoDup_cons in Hnd as [Hn0 Hnd]. cbn [fst] in Hn0.
  pose proof (latenciesByName_lawful n0 g0 Hin0) as Hg0.
  cbn [usagestats.query_latencies usagestats.recording
       usagestats.PercentilesPerPeriod].
  change (usagestats.recording_clock timeNow (w, log)) with (timeNow w).
  destruct (usagestats.PercentilesPerPeriod logs periodType (timeNow w) periods
              usagestats.durationField (usagestats.durationPercentiles p50 p90 p99)
              {| usagestats.db.ByEventName := n0 |} w)
    as [[rows err] w'] eqn:Hcall.
  set (q0 := {| usagestats.q_periodType := periodType;
                usagestats.q_time := timeNow w;
                usagestats.q_periods := periods;
                usagestats.q_field := usagestats.durationField;
                usagestats.q_percentiles := usagestats.durationPercentiles p50 p90 p99;
                usagestats.q_name := n0;
                usagestats.q_rows := rows; usagestats.q_err := err |}).
  assert (Hq0 : usagestats.asked p50 p90 p99 timeNow logs periodType periods q0).
  { repeat split. exists w. split; [done|]. cbn. by rewrite Hcall. }
  destruct err as [e|].
  { exists [q0]. cbn. split; [done|]. split; [by constructor|]. split; [done|].
    split; [done|]. exists [], q0. by repeat split. }
  destruct (usagestats.write_percentiles g0 0 rows aps) as [aps1|] eqn:Hwrite.
  2:{ exists [q0]. cbn. split; [done|]. split; [by constructor|]. split; [done|].
      exists [], q0. split; [done|]. split; [done|]. split; [|constructor].
      intros Hfits. apply (write_percentiles_fits g0 rows aps Hg0) in Hfits
        as [aps' Haps']. cbn in Haps'. congruence. }
  assert (Hfits : usagestats.fits (length aps) rows).
  { apply (write_percentiles_fits g0 rows aps Hg0). by exists aps1. }
  apply write_percentiles_spec in Hwrite as (Hlen1 & _ & _ & Hout & Hrows); [|done].
  assert (Ha0 : usagestats.answered (length aps) q0) by done.
  destruct (IH Hin Hnd aps1 w' (log ++ [q0])) as (qs & Hrun & Hasked & Hnames & Hspec).
  exists (q0 :: qs). split.
  { replace (log ++ q0 :: qs) with ((log ++ [q0]) ++ qs)
      by (by rewrite <- app_assoc).
    exact Hrun. }
  split; [by constructor|]. split; [cbn; by f_equal|].
  destruct (usagestats.query_latencies p50 p90 p99 timeNow logs order periodType
              periods aps1 w').1 as [[ps [e|]]|]; rewrite Hlen1 in Hspec.
  - destruct Hspec as (-> & qs' & q & -> & Hq & Hall).
    split; [done|]. exists (q0 :: qs'), q. split; [done|]. split; [done|].
    by constructor.
  - destruct Hspec as (Hlen & Hall & Hps & Hvals).
    split; [cbn; by f_equal|]. split; [by constructor|]. split; [done|].
    intros j period Hj.
    assert (∃ period1, aps1 !! j = Some period1
              ∧ match rows !! j with
                | Some row => ∃ l, usagestats.latency_of row = Some l
                                   ∧ period1 = usagestats.store g0 l period
                | None => period1 = period
                end) as (period1 & Hj1 & Hperiod1).
    { destruct (rows !! j) as [row|] eqn:Hrow.
      - destruct (Hrows j row Hrow) as (l & period0 & Hl & Hold & Hnew).
        cbn in Hold, Hnew. exists (usagestats.store g0 l period0).
        split; [done|]. exists l. split; [done|]. congruence.
      - exists period. split; [|done]. rewrite Hout; [done|].
        right. apply lookup_ge_None in Hrow. cbn. lia. }
    destruct (Hvals j period1 Hj1) as (period' & Hj' & Hrest & Hread).
    assert (Hkeep : ∀ n g, (n, g) ∈ usagestats.latenciesByName → n ≠ n0 →
                           usagestats.load g period1 = usagestats.load g period).
    { intros n g Hg Hne. destruct (rows !! j) as [row|]; [|by subst].
      destruct Hperiod1 as (l & _ & ->).
      by apply (latenciesByName_apart n0 n g0 g). }
    exists period'. split; [done|]. split.
    + intros n g Hg Hn. apply not_elem_of_cons in Hn as [Hne Hn].
      rewrite (Hrest n g) by done. by apply (Hkeep n).
    + intros [|k] n g q Hk Hq; cbn in Hk, Hq.
      * injection Hk as <- <-. injection Hq as <-. cbn.
        rewrite (Hrest n0 g0) by done.
        destruct (rows !! j) as [row|]; [|by subst].
        destruct Hperiod1 as (l & Hl & ->). rewrite Hl.
        destruct Hg0 as [Hload _]. by rewrite Hload.
      * specialize (Hread k n g q Hk Hq).
        assert ((n, g) ∈ order) as Hng by (by eapply list_elem_of_lookup_2).
        rewrite Forall_forall in Hin.
        assert (n ≠ n0).
        { intros ->. apply Hn0. by apply (list_elem_of_fmap_2 fst order (n0, g)). }
        destruct (usagestats.q_rows q !! j); [done|].
        rewrite Hread. by apply (Hkeep n); [apply Hin|].
  - destruct Hspec as (qs' & q & -> & Hq & Hbad & Hall).
    exists (q0 :: qs'), q. split; [done|]. split; [done|]. split; [done|].
    by constructor.
Qed.

End Queries.

Section Statistics.

Context {float64 Time error W : Type}.
Variable zero : float64.
Variables p50 p90 p99 : float64.
Variable timeNow : W → Time.
Variable logs : usagestats.EventLogs float64 Time error W.

Lemma order_entries (order : list (string * usagestats.getter float64)) :
  order ≡ₚ usagestats.latenciesByName →
  Forall (λ e, e ∈ usagestats.latenciesByName) order ∧ NoDup order.*1.
Proof.
  intros Hperm. split.
  - apply Forall_forall. intros e He. by rewrite <- Hperm.
  - rewrite Hperm. apply latenciesByName_NoDup.
Qed.

Lemma series_length_periods (periods : Z) :
  periods ≠ 0 →
  length ((λ _, usagestats.emptyPeriod zero) <$> seqZ 0 (periods + 1))
  = usagestats.series_length periods.
Proof.
  intros Hp. rewrite length_fmap, length_seqZ. unfold usagestats.series_length.
  by destruct (Z.eqb_spec periods 0).
Qed.

(** [searchQueryLatency] against the recording event logs. *)
Lemma searchQueryLatency_run (order : list (string * usagestats.getter float64))
    (periodType : usagestats.db.PeriodType) (periods : Z) (w : W) :
  order ≡ₚ usagestats.latenciesByName →
  periods ≠ 0 →
  ∃ qs,
    usagestats.searchQueryLatency zero p50 p90 p99
      (usagestats.recording_clock timeNow) (usagestats.recording logs)
      order periodType periods (w, [])
    = ((usagestats.searchQueryLatency zero p50 p90 p99 timeNow logs order
          periodType periods w).1,
       ((usagestats.searchQueryLatency zero p50 p90 p99 timeNow logs order
           periodType periods w).2, qs))
    ∧ Forall (usagestats.asked p50 p90 p99 timeNow logs periodType periods) qs
    ∧ usagestats.q_name <$> qs = take (length qs) order.*1
    ∧ match (usagestats.searchQueryLatency zero p50 p90 p99 timeNow logs order
               periodType periods w).1 with
      | usagestats.Return (ps, None) =>
          usagestats.q_name <$> qs = order.*1
          ∧ Forall (usagestats.answered (usagestats.series_length periods)) qs
          ∧ length ps = usagestats.series_length periods
          ∧ ∀ q g j period,
              q ∈ qs → (usagestats.q_name q, g) ∈ usagestats.latenciesByName →
              ps !! j = Some period →
              match usagestats.q_rows q !! j with
              | Some row =>
                  usagestats.latency_of row = Some (usagestats.load g period)
              | None => usagestats.load g period = usagestats.emptyLatency zero
              end
      | usagestats.Return (ps, Some e) =>
          ps = []
          ∧ ∃ qs' q, qs = qs' ++ [q] ∧ usagestats.q_err q = Some e
              ∧ Forall (usagestats.answered (usagestats.series_length periods)) qs'
      | usagestats.Panic =>
          ∃ qs' q, qs = qs' ++ [q] ∧ usagestats.q_err q = None
            ∧ ¬ usagestats.fits (usagestats.series_length periods)
                  (usagestats.q_rows q)
            ∧ Forall (usagestats.answered (usagestats.series_length periods)) qs'
      end.
Proof.
  intros Hperm Hp. destruct (order_entries order Hperm) as [Hin Hnd].
  unfold usagestats.searchQueryLatency.
  destruct (Z.eqb_spec periods 0) as [|_]; [done|].
  set (aps := (λ _, usagestats.emptyPeriod zero) <$> seqZ 0 (periods + 1)).
  pose proof (series_length_periods periods Hp) as Hlen. fold aps in Hlen.
  destruct (query_latencies_run p50 p90 p99 timeNow logs periodType periods
              order Hin Hnd aps w []) as (qs & Hrun & Hasked & Hnames & Hspec).
  exists qs. split; [done|]. split; [done|]. split; [done|].
  rewrite Hlen in Hspec.
  destruct (usagestats.query_latencies p50 p90 p99 timeNow logs order periodType
              periods aps w).1 as [[ps [e|]]|]; [done| |done].
  destruct Hspec as (Hqs & Hall & Hps & Hvals).
  assert (Hall_names : usagestats.q_name <$> qs = order.*1).
  { rewrite Hnames, Hqs, <- (length_fmap fst). apply firstn_all. }
  split; [done|]. split; [done|]. split; [done|].
  intros q g j period' Hq Hg Hj.
  apply list_elem_of_lookup in Hq as [k Hk].
  assert (∃ e, order !! k = Some e) as [[n' g'] Hk'].
  { apply lookup_lt_is_Some_2. rewrite <- Hqs. by eapply lookup_lt_Some. }
  assert (usagestats.q_name q = n') as Hn.
  { assert (order.*1 !! k = Some n') as H1 by (by rewrite list_lookup_fmap, Hk').
    rewrite <- Hall_names, list_lookup_fmap, Hk in H1. by injection H1. }
  assert (g = g') as <-.
  { rewrite Forall_forall in Hin.
    apply (NoDup_fst_inj usagestats.latenciesByName n');
      [apply latenciesByName_NoDup | by rewrite <- Hn |].
    apply Hin. by eapply list_elem_of_lookup_2. }
  assert (∃ period, aps !! j = Some period) as [period Hperiod].
  { apply lookup_lt_is_Some_2. rewrite Hlen, <- Hps. by eapply lookup_lt_Some. }
  assert (period = usagestats.emptyPeriod zero) as ->.
  { unfold aps in Hperiod. rewrite list_lookup_fmap in Hperiod.
    destruct (seqZ 0 (periods + 1) !! j); simpl in Hperiod; congruence. }
  destruct (Hvals j _ Hperiod) as (period'' & Hj'' & _ & Hread).
  assert (period'' = period') as -> by congruence.
  specialize (Hread k n' g q Hk' Hk).
  destruct (usagestats.q_rows q !! j); [done|]. rewrite Hread.
  clear - Hg. unfold usagestats.latenciesByName in Hg.
  repeat (apply elem_of_cons in Hg as [Hg|Hg]; [by injection Hg as _ ->|]).
  by apply elem_of_nil in Hg.
Qed.

(** The outcome of [searchQueryLatency] and the number of periods. *)
Lemma searchQueryLatency_length (order : list (string * usagestats.getter float64))
    (periodType : usagestats.db.PeriodType) (periods : Z) (w : W) :
  order ≡ₚ usagestats.latenciesByName →
  match (usagestats.searchQueryLatency zero p50 p90 p99 timeNow logs order
           periodType periods w).1 with
  | usagestats.Return (ps, None) => length ps = usagestats.series_length periods
  | usagestats.Return (ps, Some _) => ps = []
  | usagestats.Panic => periods ≠ 0
  end.
Proof.
  intros Hperm. destruct (decide (periods = 0)) as [->|Hp]; [done|].
  destruct (searchQueryLatency_run order periodType periods w Hperm Hp)
    as (qs & _ & _ & _ & Hspec).
  destruct (usagestats.searchQueryLatency zero p50 p90 p99 timeNow logs order
              periodType periods w).1 as [[ps [e|]]|]; [|tauto|done].
  by destruct Hspec.
Qed.

End Statistics.

Section Theorems.

Context {float64 Time error W : Type}.
Variable zero : float64.
Variables p50 p90 p99 : float64.
Variable timeNow : W → Time.
Variable logs : usagestats.EventLogs float64 Time error W.

(** X11. [searchQueryLatency] makes one period more than it is asked
    for: when it returns without an error, whatever the order in which the
    map is visited, the result has [periods + 1] entries (none for a negative
    number), and none for [periods = 0], for which it returns at once, with
    no query and no change of the world.  Beside an error it returns no
    period, and it cannot panic when [periods] is zero.  The number of
    periods is below [maxInt]. *)
Theorem searchQueryLatency_returns_periods_plus_one
    (order : list (string * usagestats.getter float64))
    (periodType : usagestats.db.PeriodType) (periods : Z) (w : W) :
  periods < usagestats.maxInt →
  order ≡ₚ usagestats.latenciesByName →
  (periods = 0 →
   usagestats.searchQueryLatency zero p50 p90 p99 timeNow logs order periodType
     periods w
   = (usagestats.Return ([], None), w))
  ∧ match (usagestats.searchQueryLatency zero p50 p90 p99 timeNow logs order
             periodType periods w).1 with
    | usagestats.Return (ps, None) =>
        length ps = if periods =? 0 then 0%nat else Z.to_nat (periods + 1)
    | usagestats.Return (ps, Some _) => ps = []
    | usagestats.Panic => periods ≠ 0
    end.
Proof.
  intros _.
  intros Hperm. split; [by intros ->|].
  exact (searchQueryLatency_length zero p50 p90 p99 timeNow logs order
           periodType periods w Hperm).
Qed.

(** X12. What [searchQueryLatency] returns holds the answers of the event
    logs, row by row: every event name is queried once, in the order of the
    visit; in the period [j] the latency of a search type holds the first
    three values of the row [j] of the answer to the query of its event name
    as P50, P90 and P99, and is zero when that answer has no row [j].  The
    number of periods is below [maxInt]. *)
Theorem searchQueryLatency_fills_each_search_type_from_its_rows
    (order : list (string * usagestats.getter float64))
    (periodType : usagestats.db.PeriodType) (periods : Z) (w w' : W)
    (ps : list (usagestats.SearchLatencyPeriod float64))
    (log : list (usagestats.query float64 Time error)) :
  periods < usagestats.maxInt →
  order ≡ₚ usagestats.latenciesByName →
  periods ≠ 0 →
  usagestats.searchQueryLatency zero p50 p90 p99
    (usagestats.recording_clock timeNow) (usagestats.recording logs)
    order periodType periods (w, [])
  = (usagestats.Return (ps, None), (w', log)) →
  usagestats.q_name <$> log = order.*1
  ∧ ∀ q g j period,
      q ∈ log → (usagestats.q_name q, g) ∈ usagestats.latenciesByName →
      ps !! j = Some period →
      match usagestats.q_rows q !! j with
      | Some row =>
          ∃ v0 v1 v2 vs,
            usagestats.Values row = v0 :: v1 :: v2 :: vs
            ∧ usagestats.load g period
              = {| usagestats.P50 := v0; usagestats.P90 := v1;
                   usagestats.P99 := v2 |}
      | None =>
          usagestats.load g period
          = {| usagestats.P50 := zero; usagestats.P90 := zero;
               usagestats.P99 := zero |}
      end.
Proof.
  intros _.
  intros Hperm Hp Hrec.
  destruct (searchQueryLatency_run zero p50 p90 p99 timeNow logs order periodType
              periods w Hperm Hp) as (qs & Hrun & _ & _ & Hspec).
  rewrite Hrec in Hrun. cbn [fst snd] in Hrun.
  destruct (usagestats.searchQueryLatency zero p50 p90 p99 timeNow logs order
              periodType periods w) as [res w0].
  cbn [fst snd] in *. injection Hrun as <- <- <-.
  destruct Hspec as (Hnames & _ & _ & Hvals). split; [done|].
  intros q g j period Hq Hg Hj. specialize (Hvals q g j period Hq Hg Hj).
  destruct (usagestats.q_rows q !! j) as [row|]; [|done].
  unfold usagestats.latency_of in Hvals.
  destruct (usagestats.Values row) as [|v0 [|v1 [|v2 vs]]]; try done.
  injection Hvals as <-. by exists v0, v1, v2, vs.
Qed.

(** X13. The order in which Go visits [latenciesByName] does not change
    the statistics: when the answer of the event logs to a query depends on
    the event name alone (not on the time and the world of the call), and
    [searchQueryLatency] returns periods without an error for one order of
    the map, it returns the same periods for every other order.  The number
    of periods is below [maxInt]. *)
Theorem searchQueryLatency_ignores_the_map_order
    (order1 order2 : list (string * usagestats.getter float64))
    (periodType : usagestats.db.PeriodType) (periods : Z) (w1 w2 : W)
    (ps : list (usagestats.SearchLatencyPeriod float64)) :
  periods < usagestats.maxInt →
  order1 ≡ₚ usagestats.latenciesByName →
  order2 ≡ₚ usagestats.latenciesByName →
  (∀ name t t' w w',
     (usagestats.PercentilesPerPeriod logs periodType t periods
        usagestats.durationField (usagestats.durationPercentiles p50 p90 p99)
        {| usagestats.db.ByEventName := name |} w).1
     = (usagestats.PercentilesPerPeriod logs periodType t' periods
          usagestats.durationField (usagestats.durationPercentiles p50 p90 p99)
          {| usagestats.db.ByEventName := name |} w').1) →
  (usagestats.searchQueryLatency zero p50 p90 p99 timeNow logs order1 periodType
     periods w1).1
  = usagestats.Return (ps, None) →
  (usagestats.searchQueryLatency zero p50 p90 p99 timeNow logs order2 periodType
     periods w2).1
  = usagestats.Return (ps, None).
Proof.
  intros _.
  intros Hperm1 Hperm2 Hsame Hrun1.
  destruct (decide (periods = 0)) as [->|Hp]; [done|].
  destruct (searchQueryLatency_run zero p50 p90 p99 timeNow logs order1
              periodType periods w1 Hperm1 Hp) as (qs1 & _ & Hasked1 & _ & Hspec1).
  rewrite Hrun1 in Hspec1. destruct Hspec1 as (Hnames1 & Hall1 & Hlen1 & Hvals1).
  destruct (searchQueryLatency_run zero p50 p90 p99 timeNow logs order2
              periodType periods w2 Hperm2 Hp)
    as (qs2 & _ & Hasked2 & Hnames2 & Hspec2).
  rewrite Forall_forall in Hasked1, Hasked2, Hall1.
  assert (Hq : ∀ q2, q2 ∈ qs2 →
            ∃ q1, q1 ∈ qs1 ∧ usagestats.q_name q1 = usagestats.q_name q2
                  ∧ usagestats.q_rows q1 = usagestats.q_rows q2
                  ∧ usagestats.q_err q1 = usagestats.q_err q2).
  { intros q2 Hq2.
    assert (usagestats.q_name q2 ∈ usagestats.q_name <$> qs1) as Hin.
    { rewrite Hnames1, Hperm1, <- Hperm2.
      eapply subseteq_take. rewrite <- Hnames2. by apply list_elem_of_fmap_2. }
    apply list_elem_of_fmap in Hin as (q1 & Hname & Hq1).
    exists q1. split; [done|]. split; [done|].
    destruct (Hasked1 q1 Hq1) as (_ & _ & _ & _ & wa & _ & Ha).
    destruct (Hasked2 q2 Hq2) as (_ & _ & _ & _ & wb & _ & Hb).
    rewrite Hname, (Hsame _ _ (timeNow wa) _ wa), Ha in Hb.
    by injection Hb. }
  destruct (usagestats.searchQueryLatency zero p50 p90 p99 timeNow logs order2
              periodType periods w2).1 as [[ps2 [e|]]|].
  - destruct Hspec2 as (_ & qs' & q & -> & He & _).
    destruct (Hq q) as (q1 & Hq1 & _ & _ & Herr).
    { apply elem_of_app. right. by apply list_elem_of_singleton. }
    destruct (Hall1 q1 Hq1) as [Hnone _]. congruence.
  - destruct Hspec2 as (Hnames2' & _ & Hlen2 & Hvals2).
    do 2 f_equal. apply list_eq. intros j.
    destruct (ps2 !! j) as [period2|] eqn:Hj2, (ps !! j) as [period1|] eqn:Hj1.
    + f_equal. apply period_ext. intros n g Hg.
      assert (n ∈ usagestats.q_name <$> qs2) as Hin.
      { rewrite Hnames2', Hperm2. by apply (list_elem_of_fmap_2 fst _ (n, g)). }
      apply list_elem_of_fmap in Hin as (q2 & -> & Hq2).
      destruct (Hq q2 Hq2) as (q1 & Hq1 & Hname & Hrows & _).
      specialize (Hvals2 q2 g j period2 Hq2 Hg Hj2).
      rewrite <- Hname in Hg.
      specialize (Hvals1 q1 g j period1 Hq1 Hg Hj1).
      rewrite Hrows in Hvals1.
      destruct (usagestats.q_rows q2 !! j); congruence.
    + apply lookup_lt_Some in Hj2. apply lookup_ge_None in Hj1. lia.
    + apply lookup_ge_None in Hj2. apply lookup_lt_Some in Hj1. lia.
    + done.
  - destruct Hspec2 as (qs' & q & -> & _ & Hbad & _).
    destruct (Hq q) as (q1 & Hq1 & _ & Hrows & _).
    { apply elem_of_app. right. by apply list_elem_of_singleton. }
    destruct (Hall1 q1 Hq1) as [_ Hfits]. rewrite Hrows in Hfits. done.
Qed.

(** X14. [searchQueryLatency] stops at the first query that fails: for
    [periods] other than zero the queries are made for the event names in
    the order of the visit, each for the period type, the number of periods,
    the field [durationMs] and the three percentiles of the code; all seven
    are made and answered when periods are returned; an error is the error
    of the last query made, and it panics exactly on the last query made,
    when that one was answered by more rows than there are periods or by a
    row of fewer than three values.  The number of periods is below
    [maxInt]. *)
Theorem searchQueryLatency_stops_at_the_first_failure
    (order : list (string * usagestats.getter float64))
    (periodType : usagestats.db.PeriodType) (periods : Z) (w : W) :
  periods < usagestats.maxInt →
  order ≡ₚ usagestats.latenciesByName →
  periods ≠ 0 →
  ∃ log,
    usagestats.searchQueryLatency zero p50 p90 p99
      (usagestats.recording_clock timeNow) (usagestats.recording logs)
      order periodType periods (w, [])
    = ((usagestats.searchQueryLatency zero p50 p90 p99 timeNow logs order
          periodType periods w).1,
       ((usagestats.searchQueryLatency zero p50 p90 p99 timeNow logs order
           periodType periods w).2, log))
    ∧ Forall (usagestats.asked p50 p90 p99 timeNow logs periodType periods) log
    ∧ usagestats.q_name <$> log = take (length log) order.*1
    ∧ match (usagestats.searchQueryLatency zero p50 p90 p99 timeNow logs order
               periodType periods w).1 with
      | usagestats.Return (ps, None) =>
          length log = 7%nat
          ∧ Forall (usagestats.answered (Z.to_nat (periods + 1))) log
      | usagestats.Return (ps, Some e) =>
          ps = []
          ∧ ∃ log' q, log = log' ++ [q] ∧ usagestats.q_err q = Some e
              ∧ Forall (usagestats.answered (Z.to_nat (periods + 1))) log'
      | usagestats.Panic =>
          ∃ log' q, log = log' ++ [q] ∧ usagestats.q_err q = None
            ∧ ¬ usagestats.fits (Z.to_nat (periods + 1)) (usagestats.q_rows q)
            ∧ Forall (usagestats.answered (Z.to_nat (periods + 1))) log'
      end.
Proof.
  intros _.
  intros Hperm Hp.
  destruct (searchQueryLatency_run zero p50 p90 p99 timeNow logs order periodType
              periods w Hperm Hp) as (qs & Hrun & Hasked & Hnames & Hspec).
  exists qs. split; [done|]. split; [done|]. split; [done|].
  assert (usagestats.series_length periods = Z.to_nat (periods + 1)) as Hlen.
  { unfold usagestats.series_length. by destruct (Z.eqb_spec periods 0). }
  rewrite Hlen in Hspec.
  destruct (usagestats.searchQueryLatency zero p50 p90 p99 timeNow logs order
              periodType periods w).1 as [[ps [e|]]|]; [done| |done].
  destruct Hspec as (Hall & Hans & _). split; [|done].
  rewrite <- (length_fmap usagestats.q_name), Hall, length_fmap, Hperm.
  reflexivity.
Qed.

Variable minIntOrZero : Z → Z → Z.
Variable maxStorageDays : Z.

(** X15. [GetSearchLatencyStatistics] returns statistics or an error,
    never both and never neither; the statistics hold, for the days, weeks
    and months, a series of [n + 1] periods where [n] is what [minIntOrZero]
    makes of the number asked for and of [maxStorageDays], [maxStorageDays / 7]
    and [maxStorageDays / 31], and no period when [n] is zero.  The three
    numbers [n] are below [maxInt]. *)
Theorem GetSearchLatencyStatistics_series
    (orders : usagestats.db.PeriodType → list (string * usagestats.getter float64))
    (days weeks months : Z) (w : W) :
  minIntOrZero maxStorageDays days < usagestats.maxInt →
  minIntOrZero (maxStorageDays `quot` 7) weeks < usagestats.maxInt →
  minIntOrZero (maxStorageDays `quot` 31) months < usagestats.maxInt →
  (∀ periodType, orders periodType ≡ₚ usagestats.latenciesByName) →
  match (usagestats.GetSearchLatencyStatistics zero p50 p90 p99 timeNow logs
           minIntOrZero maxStorageDays orders days weeks months w).1 with
  | usagestats.Return (Some stats, None) =>
      length (usagestats.Daily stats)
      = usagestats.series_length (minIntOrZero maxStorageDays days)
      ∧ length (usagestats.Weekly stats)
        = usagestats.series_length (minIntOrZero (maxStorageDays `quot` 7) weeks)
      ∧ length (usagestats.Monthly stats)
        = usagestats.series_length
            (minIntOrZero (maxStorageDays `quot` 31) months)
  | usagestats.Return (None, Some _) => True
  | usagestats.Return _ => False
  | usagestats.Panic => True
  end.
Proof.
  intros _ _ _.
  intros Hperm. unfold usagestats.GetSearchLatencyStatistics, usagestats.get.
  pose proof (searchQueryLatency_length zero p50 p90 p99 timeNow logs
                (orders usagestats.db.Daily) usagestats.db.Daily
                (minIntOrZero maxStorageDays days) w (Hperm _)) as Hd.
  destruct (usagestats.searchQueryLatency zero p50 p90 p99 timeNow logs
              (orders usagestats.db.Daily) usagestats.db.Daily _ w)
    as [[[daily [e|]]|] w1]; cbn [fst] in *; [done| |done].
  pose proof (searchQueryLatency_length zero p50 p90 p99 timeNow logs
                (orders usagestats.db.Weekly) usagestats.db.Weekly
                (minIntOrZero (maxStorageDays `quot` 7) weeks) w1 (Hperm _)) as Hw.
  destruct (usagestats.searchQueryLatency zero p50 p90 p99 timeNow logs
              (orders usagestats.db.Weekly) usagestats.db.Weekly _ w1)
    as [[[weekly [e|]]|] w2]; cbn [fst] in *; [done| |done].
  pose proof (searchQueryLatency_length zero p50 p90 p99 timeNow logs
                (orders usagestats.db.Monthly) usagestats.db.Monthly
                (minIntOrZero (maxStorageDays `quot` 31) months) w2 (Hperm _)) as Hm.
  destruct (usagestats.searchQueryLatency zero p50 p90 p99 timeNow logs
              (orders usagestats.db.Monthly) usagestats.db.Monthly _ w2)
    as [[[monthly [e|]]|] w3]; cbn [fst] in *; [done| |done].
  done.
Qed.

End Theorems.

(** The example logs for two days, in the order of the source: three
    periods; the literal searches of the first two hold the rows of their
    event (whose name has 24 bytes), and the third stays zero.  No period is
    made for a number of periods that is zero, without a query; a negative
    number makes no period either, and the first row of an answer then has
    nowhere to go. *)
Example searchQueryLatency_on_the_example_logs :
  (λ p, usagestats.Literal (usagestats.Latencies p))
    <$> periods_of (exampleLatency sourceOrder 2)
  = [ {| usagestats.P50 := 24; usagestats.P90 := 25; usagestats.P99 := 26 |};
      {| usagestats.P50 := 48; usagestats.P90 := 49; usagestats.P99 := 50 |};
      {| usagestats.P50 := 0; usagestats.P90 := 0; usagestats.P99 := 0 |} ]
  ∧ usagestats.q_name <$> (exampleQueries sourceOrder 2).2.2
    = sourceOrder.*1
  ∧ exampleQueries sourceOrder 0
    = (usagestats.Return ([], None), (tt, []))
  ∧ (exampleLatency sourceOrder (-1)).1 = usagestats.Panic
  ∧ (exampleLatency sourceOrder 1).1 ≠ usagestats.Panic.
Proof. repeat split; vm_compute; (reflexivity || discriminate). Qed.

Lemma searchQueryLatency_returns_periods_plus_one_witness :
  (2 < usagestats.maxInt
   ∧ reverse sourceOrder ≡ₚ usagestats.latenciesByName)
  ∧ ((2 = 0 →
      exampleLatency (reverse sourceOrder) 2
      = (usagestats.Return ([], None), tt))
     ∧ match (exampleLatency (reverse sourceOrder) 2).1 with
       | usagestats.Return (ps, None) =>
           length ps = if 2 =? 0 then 0%nat else Z.to_nat (2 + 1)
       | usagestats.Return (ps, Some _) => ps = []
       | usagestats.Panic => 2 ≠ 0
       end).
Proof.
  assert (H0 : 2 < usagestats.maxInt) by reflexivity.
  assert (H : reverse (sourceOrder)
              ≡ₚ usagestats.latenciesByName) by apply reverse_Permutation.
  split; [exact (conj H0 H)|].
  exact (searchQueryLatency_returns_periods_plus_one 0 50 90 99 exampleClock
           exampleLogs (reverse sourceOrder) usagestats.db.Daily 2 tt H0 H).
Defined.

Lemma searchQueryLatency_fills_each_search_type_from_its_rows_witness :
  (2 < usagestats.maxInt
   ∧ sourceOrder ≡ₚ usagestats.latenciesByName
   ∧ 2 ≠ 0
   ∧ exampleQueries sourceOrder 2
     = (usagestats.Return
          (periods_of (exampleQueries sourceOrder 2), None),
        (tt, (exampleQueries sourceOrder 2).2.2)))
  ∧ (usagestats.q_name <$> (exampleQueries sourceOrder 2).2.2
     = sourceOrder.*1
     ∧ ∀ q g j period,
         q ∈ (exampleQueries sourceOrder 2).2.2 →
         (usagestats.q_name q, g) ∈ usagestats.latenciesByName →
         periods_of (exampleQueries sourceOrder 2) !! j
         = Some period →
         match usagestats.q_rows q !! j with
         | Some row =>
             ∃ v0 v1 v2 vs,
               usagestats.Values row = v0 :: v1 :: v2 :: vs
               ∧ usagestats.load g period
                 = {| usagestats.P50 := v0; usagestats.P90 := v1;
                      usagestats.P99 := v2 |}
         | None =>
             usagestats.load g period
             = {| usagestats.P50 := 0; usagestats.P90 := 0;
                  usagestats.P99 := 0 |}
         end).
Proof.
  assert (H0 : 2 < usagestats.maxInt) by reflexivity.
  assert (H1 : sourceOrder
               ≡ₚ usagestats.latenciesByName) by reflexivity.
  assert (H2 : 2 ≠ 0) by lia.
  assert (H3 : exampleQueries sourceOrder 2
               = (usagestats.Return
                    (periods_of (exampleQueries sourceOrder 2),
                     None),
                  (tt, (exampleQueries sourceOrder 2).2.2)))
    by (vm_compute; reflexivity).
  split; [exact (conj H0 (conj H1 (conj H2 H3)))|].
  exact (searchQueryLatency_fills_each_search_type_from_its_rows 0 50 90 99
           exampleClock exampleLogs sourceOrder usagestats.db.Daily 2 tt tt
           (periods_of (exampleQueries sourceOrder 2))
           (exampleQueries sourceOrder 2).2.2 H0 H1 H2 H3).
Defined.

Lemma searchQueryLatency_ignores_the_map_order_witness :
  (2 < usagestats.maxInt
   ∧ sourceOrder ≡ₚ usagestats.latenciesByName
   ∧ reverse sourceOrder ≡ₚ usagestats.latenciesByName
   ∧ (∀ name t t' w w',
        (usagestats.PercentilesPerPeriod exampleLogs usagestats.db.Daily t 2
           usagestats.durationField (usagestats.durationPercentiles 50 90 99)
           {| usagestats.db.ByEventName := name |} w).1
        = (usagestats.PercentilesPerPeriod exampleLogs usagestats.db.Daily t' 2
             usagestats.durationField (usagestats.durationPercentiles 50 90 99)
             {| usagestats.db.ByEventName := name |} w').1)
   ∧ (exampleLatency sourceOrder 2).1
     = usagestats.Return
         (periods_of (exampleLatency sourceOrder 2), None))
  ∧ (exampleLatency (reverse sourceOrder) 2).1
    = usagestats.Return
        (periods_of (exampleLatency sourceOrder 2), None).
Proof.
  assert (H0 : 2 < usagestats.maxInt) by reflexivity.
  assert (H1 : sourceOrder
               ≡ₚ usagestats.latenciesByName) by reflexivity.
  assert (H2 : reverse (sourceOrder)
               ≡ₚ usagestats.latenciesByName) by apply reverse_Permutation.
  assert (H3 : ∀ name t t' w w',
             (usagestats.PercentilesPerPeriod exampleLogs usagestats.db.Daily t 2
                usagestats.durationField (usagestats.durationPercentiles 50 90 99)
                {| usagestats.db.ByEventName := name |} w).1
             = (usagestats.PercentilesPerPeriod exampleLogs usagestats.db.Daily t' 2
                  usagestats.durationField (usagestats.durationPercentiles 50 90 99)
                  {| usagestats.db.ByEventName := name |} w').1)
    by reflexivity.
  assert (H4 : (exampleLatency sourceOrder 2).1
               = usagestats.Return
                   (periods_of (exampleLatency sourceOrder 2), None))
    by (vm_compute; reflexivity).
  split; [exact (conj H0 (conj H1 (conj H2 (conj H3 H4))))|].
  exact (searchQueryLatency_ignores_the_map_order 0 50 90 99 exampleClock
           exampleLogs sourceOrder (reverse sourceOrder) usagestats.db.Daily 2
           tt tt (periods_of (exampleLatency sourceOrder 2)) H0 H1 H2 H3 H4).
Defined.

Lemma searchQueryLatency_stops_at_the_first_failure_witness :
  (-1 < usagestats.maxInt
   ∧ sourceOrder ≡ₚ usagestats.latenciesByName ∧ -1 ≠ 0)
  ∧ ∃ log,
      exampleQueries sourceOrder (-1)
      = ((exampleLatency sourceOrder (-1)).1,
         ((exampleLatency sourceOrder (-1)).2, log))
      ∧ Forall (usagestats.asked 50 90 99 exampleClock exampleLogs
                  usagestats.db.Daily (-1)) log
      ∧ usagestats.q_name <$> log
        = take (length log) sourceOrder.*1
      ∧ match (exampleLatency sourceOrder (-1)).1 with
        | usagestats.Return (ps, None) =>
            length log = 7%nat
            ∧ Forall (usagestats.answered (Z.to_nat (-1 + 1))) log
        | usagestats.Return (ps, Some e) =>
            ps = []
            ∧ ∃ log' q, log = log' ++ [q] ∧ usagestats.q_err q = Some e
                ∧ Forall (usagestats.answered (Z.to_nat (-1 + 1))) log'
        | usagestats.Panic =>
            ∃ log' q, log = log' ++ [q] ∧ usagestats.q_err q = None
              ∧ ¬ usagestats.fits (Z.to_nat (-1 + 1)) (usagestats.q_rows q)
              ∧ Forall (usagestats.answered (Z.to_nat (-1 + 1))) log'
        end.
Proof.
  assert (H0 : -1 < usagestats.maxInt) by reflexivity.
  assert (H1 : sourceOrder
               ≡ₚ usagestats.latenciesByName) by reflexivity.
  assert (H2 : -1 ≠ 0) by lia.
  split; [exact (conj H0 (conj H1 H2))|].
  exact (searchQueryLatency_stops_at_the_first_failure 0 50 90 99 exampleClock
           exampleLogs sourceOrder usagestats.db.Daily (-1) tt H0 H1 H2).
Defined.

Lemma GetSearchLatencyStatistics_series_witness :
  (exampleMin 93 2 < usagestats.maxInt
   ∧ exampleMin (93 `quot` 7) 1 < usagestats.maxInt
   ∧ exampleMin (93 `quot` 31) 0 < usagestats.maxInt
   ∧ ∀ periodType : usagestats.db.PeriodType,
       (λ _, sourceOrder) periodType
       ≡ₚ usagestats.latenciesByName)
  ∧ match (usagestats.GetSearchLatencyStatistics 0 50 90 99 exampleClock
             exampleLogs exampleMin 93 (λ _, sourceOrder)
             2 1 0 tt).1 with
    | usagestats.Return (Some stats, None) =>
        length (usagestats.Daily stats)
        = usagestats.series_length (exampleMin 93 2)
        ∧ length (usagestats.Weekly stats)
          = usagestats.series_length (exampleMin (93 `quot` 7) 1)
        ∧ length (usagestats.Monthly stats)
          = usagestats.series_length (exampleMin (93 `quot` 31) 0)
    | usagestats.Return (None, Some _) => True
    | usagestats.Return _ => False
    | usagestats.Panic => True
    end.
Proof.
  assert (Hd : exampleMin 93 2 < usagestats.maxInt) by reflexivity.
  assert (Hw : exampleMin (93 `quot` 7) 1 < usagestats.maxInt) by reflexivity.
  assert (Hm : exampleMin (93 `quot` 31) 0 < usagestats.maxInt) by reflexivity.
  assert (H : ∀ periodType : usagestats.db.PeriodType,
             (λ _, sourceOrder) periodType
             ≡ₚ usagestats.latenciesByName) by (intros; reflexivity).
  split; [exact (conj Hd (conj Hw (conj Hm H)))|].
  exact (GetSearchLatencyStatistics_series 0 50 90 99 exampleClock exampleLogs
           exampleMin 93 (λ _, sourceOrder) 2 1 0 tt Hd Hw Hm H).
Defined.

(** The statistics of the example logs for two days, one week and no
    month: three, two and no periods. *)
Example GetSearchLatencyStatistics_on_the_example_logs :
  match (usagestats.GetSearchLatencyStatistics 0 50 90 99 exampleClock
           exampleLogs exampleMin 93 (λ _, sourceOrder)
           2 1 0 tt).1 with
  | usagestats.Return (Some stats, None) =>
      length (usagestats.Daily stats) = 3%nat
      ∧ length (usagestats.Weekly stats) = 2%nat
      ∧ usagestats.Monthly stats = []
  | _ => False
  end.
Proof. vm_compute. by repeat split. Qed.
